(** * PatchMatchNet inference modules (src/mvs/torch_modules.cc)

    A shallow embedding of the depth-estimation modules of
    [src/mvs/torch_modules.cc] and of the libtorch primitives they call.

    Conventions of the embedding.
    - A [torch::Tensor] is a shape together with an indexing function
      ([Tensor]); every libtorch primitive that throws on a shape or range
      error returns [option], [None] standing for the exception.
    - Tensor scalars are exact: rationals ([Q]) wherever the code uses field
      operations, comparisons and rounding only, so that every definition can
      be evaluated; reals ([R]) for the softmax, which needs [exp] and [ln].
      Rounding of [float]/[double] is not modelled. The literal [1e-3] is the
      rational [1/1000].
    - C++ [int]/[int64_t] values are in [Z] or [nat]; overflow is not modelled.
    - Learned layers (convolutions, batch norms) are uninterpreted functions. *)

From stdpp Require Import base option list sorting gmap strings.
From Stdlib Require Import ZArith QArith Qround Qabs Reals Qreals Psatz.
Close Scope Q_scope.
Close Scope R_scope.

(** ** Tensors *)

Abbreviation index := (list nat).

Record Tensor (A : Type) := mkTensor {
  sizes : list nat;          (* t.sizes() *)
  at_ : index -> A           (* t[i0][i1]...[ik] *)
}.
Arguments mkTensor {A} _ _.
Arguments sizes {A} _.
Arguments at_ {A} _ _.

Definition numel (s : list nat) : nat := foldr Nat.mul 1 s.

(** [insert_at d x l] puts [x] in front of position [d]. *)
Definition insert_at (d x : nat) (l : list nat) : list nat :=
  take d l ++ x :: drop d l.

(** All indices of a tensor of shape [s], in row-major order. *)
Fixpoint indices (s : list nat) : list index :=
  match s with
  | [] => [[]]
  | n :: s' => k ← seq 0 n; cons k <$> indices s'
  end.

(** Row-major offset of an index in a contiguous tensor of shape [s]. *)
Definition ravel (s : list nat) (i : index) : nat :=
  foldl (fun acc nk => acc * fst nk + snd nk) 0 (zip s i).

Fixpoint unravel (s : list nat) (k : nat) : index :=
  match s with
  | [] => []
  | n :: s' => (k / numel s') :: unravel s' (k mod numel s')
  end.

(** Broadcasting of two shapes, aligned at the last dimension. *)
Fixpoint broadcast_rev (r1 r2 : list nat) : option (list nat) :=
  match r1, r2 with
  | [], r => Some r
  | r, [] => Some r
  | a :: r1', b :: r2' =>
      r ← broadcast_rev r1' r2';
      if a =? b then Some (a :: r)
      else if a =? 1 then Some (b :: r)
      else if b =? 1 then Some (a :: r)
      else None
  end.

Definition broadcast_shapes (s1 s2 : list nat) : option (list nat) :=
  reverse <$> broadcast_rev (reverse s1) (reverse s2).

(** The index an operand of shape [s] is read at, for index [i] of the
    broadcast result. *)
Definition bindex (s : list nat) (i : index) : index :=
  zip_with (fun n k => if n =? 1 then 0 else k) s (drop (length i - length s) i).

#[global] Instance Qle_dec : RelDecision Qle := fun x y =>
  match Qlt_le_dec y x with
  | left H => right (Qlt_not_le _ _ H)
  | right H => left H
  end.

Module torch.

Section Structural.
Context {A : Type}.

Definition dim (t : Tensor A) : nat := length (sizes t).

(* t.size(d) *)
Definition size (t : Tensor A) (d : nat) : option nat := sizes t !! d.

Definition full (s : list nat) (v : A) : Tensor A := mkTensor s (fun _ => v).

(* t.select(d, i) *)
Definition select (t : Tensor A) (d i : nat) : option (Tensor A) :=
  n ← sizes t !! d;
  if i <? n
  then Some (mkTensor (delete d (sizes t)) (fun ix => at_ t (insert_at d i ix)))
  else None.

(* t.narrow(d, start, len) *)
Definition narrow (t : Tensor A) (d start len : nat) : option (Tensor A) :=
  n ← sizes t !! d;
  if start + len <=? n
  then Some (mkTensor (<[d:=len]> (sizes t))
               (fun ix => at_ t (<[d:=start + default 0 (ix !! d)]> ix)))
  else None.

(* t.unsqueeze(d) *)
Definition unsqueeze (t : Tensor A) (d : nat) : option (Tensor A) :=
  if d <=? dim t
  then Some (mkTensor (insert_at d 1 (sizes t)) (fun ix => at_ t (delete d ix)))
  else None.

(* t.squeeze(d): drops dimension d when its size is 1, else returns t *)
Definition squeeze (t : Tensor A) (d : nat) : option (Tensor A) :=
  n ← sizes t !! d;
  if n =? 1
  then Some (mkTensor (delete d (sizes t)) (fun ix => at_ t (insert_at d 0 ix)))
  else Some t.

(* t.view(s) of a contiguous tensor *)
Definition view (t : Tensor A) (s : list nat) : option (Tensor A) :=
  if numel (sizes t) =? numel s
  then Some (mkTensor s (fun ix => at_ t (unravel (sizes t) (ravel s ix))))
  else None.

(* t.repeat(reps) *)
Definition repeat (t : Tensor A) (reps : list nat) : option (Tensor A) :=
  if dim t <=? length reps
  then
    let s := replicate (length reps - dim t) 1 ++ sizes t in
    Some (mkTensor (zip_with Nat.mul reps s)
            (fun ix => at_ t (zip_with (fun k n => k mod n)
                                (drop (length reps - dim t) ix) (sizes t))))
  else None.

(* torch::stack(ts, d) *)
Definition stack (ts : list (Tensor A)) (d : nat) : option (Tensor A) :=
  match ts with
  | [] => None
  | t0 :: _ =>
      if forallb (fun t => bool_decide (sizes t = sizes t0)) ts && (d <=? dim t0)
      then Some (mkTensor (insert_at d (length ts) (sizes t0))
                   (fun ix => at_ (default t0 (ts !! default 0 (ix !! d))) (delete d ix)))
      else None
  end.

(** [cat_at ts k]: the tensor holding position [k] of the concatenated
    dimension, and the position inside it. *)
Fixpoint cat_at (d : nat) (t0 : Tensor A) (ts : list (Tensor A)) (k : nat)
  : Tensor A * nat :=
  match ts with
  | [] => (t0, k)
  | t :: ts' =>
      let n := default 0 (sizes t !! d) in
      if k <? n then (t, k) else cat_at d t0 ts' (k - n)
  end.

(* torch::cat(ts, d) *)
Definition cat (ts : list (Tensor A)) (d : nat) : option (Tensor A) :=
  match ts with
  | [] => None
  | t0 :: _ =>
      if forallb (fun t => bool_decide (delete d (sizes t) = delete d (sizes t0))
                           && (d <? dim t)) ts
      then Some (mkTensor
                   (<[d:=sum_list ((fun t => default 0 (sizes t !! d)) <$> ts)]> (sizes t0))
                   (fun ix => let '(t, k) := cat_at d t0 ts (default 0 (ix !! d)) in
                              at_ t (<[d:=k]> ix)))
      else None
  end.

(** The entries along dimension [d] through index [ix]. *)
Definition fiber (t : Tensor A) (d : nat) (ix : index) : list A :=
  (fun j => at_ t (<[d:=j]> ix)) <$> seq 0 (default 0 (sizes t !! d)).

(* t.gather(d, idx): out[ix] = t[ix with position d replaced by idx[ix]] *)
Definition gather (t : Tensor A) (d : nat) (idx : Tensor Z) : option (Tensor A) :=
  n ← sizes t !! d;
  if (length (sizes idx) =? dim t)
     && forallb (fun k => bool_decide (k = d)
                          || (default 0 (sizes idx !! k) <=? default 0 (sizes t !! k)))
          (seq 0 (dim t))
     && forallb (fun ix => (0 <=? at_ idx ix)%Z && (at_ idx ix <? Z.of_nat n)%Z)
          (indices (sizes idx))
  then Some (mkTensor (sizes idx) (fun ix => at_ t (<[d:=Z.to_nat (at_ idx ix)]> ix)))
  else None.

End Structural.

Definition map {A B} (f : A -> B) (t : Tensor A) : Tensor B :=
  mkTensor (sizes t) (fun ix => f (at_ t ix)).

(** Element-wise binary operation with broadcasting. *)
Definition map2 {A B C} (f : A -> B -> C) (t1 : Tensor A) (t2 : Tensor B)
  : option (Tensor C) :=
  s ← broadcast_shapes (sizes t1) (sizes t2);
  Some (mkTensor s (fun ix => f (at_ t1 (bindex (sizes t1) ix))
                                (at_ t2 (bindex (sizes t2) ix)))).

(** *** Rational tensors *)

Section Rational.
Local Open Scope Q_scope.

Definition Qsum (l : list Q) : Q := foldr Qplus 0 l.

Definition Qmin (a b : Q) : Q := if Qle_bool a b then a else b.
Definition Qmax (a b : Q) : Q := if Qle_bool a b then b else a.

Definition add := map2 Qplus.
Definition sub := map2 Qminus.
Definition mul := map2 Qmult.
Definition div := map2 Qdiv.

(* torch::arange(a, b, 1) *)
Definition arange (a b : Z) : Tensor Q :=
  mkTensor [Z.to_nat (b - a)]
    (fun ix => inject_Z (a + Z.of_nat (default 0%nat (ix !! 0%nat)))).

Definition ones_like {A} (t : Tensor A) : Tensor Q := full (sizes t) 1.

(* torch::meshgrid({a, b}), 'ij' indexing *)
Definition meshgrid (a b : Tensor Q) : option (Tensor Q * Tensor Q) :=
  match sizes a, sizes b with
  | [n], [m] =>
      Some (mkTensor [n; m] (fun ix => at_ a (take 1 ix)),
            mkTensor [n; m] (fun ix => at_ b (drop 1 ix)))
  | _, _ => None
  end.

(* t.clamp(lo, hi) = min(max(t, lo), hi) *)
Definition clamp (t : Tensor Q) (lo hi : Q) : Tensor Q :=
  map (fun v => Qmin (Qmax v lo) hi) t.

(* t <= c *)
Definition le_scalar (t : Tensor Q) (c : Q) : Tensor bool :=
  map (fun v => Qle_bool v c) t.

(* t.masked_fill(mask, v) *)
Definition masked_fill (t : Tensor Q) (mask : Tensor bool) (v : Q)
  : option (Tensor Q) :=
  map2 (fun x (m : bool) => if m then v else x) t mask.

(* torch::sum(t, d, keepdim) *)
Definition sum (t : Tensor Q) (d : nat) (keepdim : bool) : option (Tensor Q) :=
  if (d <? dim t)%nat
  then Some (if keepdim
             then mkTensor (<[d:=1%nat]> (sizes t)) (fun ix => Qsum (fiber t d ix))
             else mkTensor (delete d (sizes t))
                    (fun ix => Qsum (fiber t d (insert_at d 0 ix))))
  else None.

(* t.to(torch::kLong): truncation toward zero *)
Definition to_kLong (t : Tensor Q) : Tensor Z :=
  map (fun v : Q => Z.quot (Qnum v) (Z.pos (Qden v))) t.

(* idx.clamp(lo, hi) on integers *)
Definition clampZ (t : Tensor Z) (lo hi : Z) : Tensor Z :=
  map (fun v => Z.min (Z.max v lo) hi) t.

(** Values of [torch::sort(t, d)], ascending along dimension [d]. *)
Definition sort_values (t : Tensor Q) (d : nat) : option (Tensor Q) :=
  if (d <? dim t)%nat
  then Some (mkTensor (sizes t)
               (fun ix => default 0 (merge_sort Qle (fiber t d ix) !! default 0%nat (ix !! d))))
  else None.

(** Batched matrix product of rank-3 tensors. *)
Definition matmul (a b : Tensor Q) : option (Tensor Q) :=
  match sizes a, sizes b with
  | [B1; n; m], [B2; m'; p] =>
      bs ← broadcast_shapes [B1] [B2];
      if (m =? m')%nat
      then Some (mkTensor (bs ++ [n; p])
              (fun ix =>
                 let b_ := default 0%nat (ix !! 0%nat) in
                 let i := default 0%nat (ix !! 1%nat) in
                 let j := default 0%nat (ix !! 2%nat) in
                 Qsum ((fun k => at_ a [if (B1 =? 1)%nat then 0%nat else b_; i; k]
                                 * at_ b [if (B2 =? 1)%nat then 0%nat else b_; k; j])
                       <$> seq 0 m)))
      else None
  | _, _ => None
  end.

Definition skip (i k : nat) : nat := if (k <? i)%nat then k else S k.
Definition sign (k : nat) : Q := if Nat.even k then 1 else -1.

(** Determinant by expansion along the first row. *)
Fixpoint det (n : nat) (M : nat -> nat -> Q) : Q :=
  match n with
  | O => 1
  | S n' => Qsum ((fun j => sign j * M 0%nat j * det n' (fun r c => M (S r) (skip j c)))
                  <$> seq 0 n)
  end.

Definition cofactor (n : nat) (M : nat -> nat -> Q) (i j : nat) : Q :=
  sign (i + j) * det (pred n) (fun r c => M (skip i r) (skip j c)).

(** [torch::inverse] of a batch of square matrices; a singular matrix
    raises. *)
Definition inverse (t : Tensor Q) : option (Tensor Q) :=
  match sizes t with
  | [B; n; n'] =>
      if (n =? n')%nat
         && forallb (fun b => negb (Qeq_bool (det n (fun r c => at_ t [b; r; c])) 0))
              (seq 0 B)
      then Some (mkTensor [B; n; n]
              (fun ix =>
                 let b := default 0%nat (ix !! 0%nat) in
                 let i := default 0%nat (ix !! 1%nat) in
                 let j := default 0%nat (ix !! 2%nat) in
                 let M := fun r c => at_ t [b; r; c] in
                 cofactor n M j i / det n M))
      else None
  | _ => None
  end.

(** *** torch::nn::functional *)

(** [padding_mode] of [GridSampleFuncOptions]; the mode is bilinear and
    [align_corners] is false in both constants of the source. *)
Inductive GridSampleFuncOptions := kZeros | kBorder.

Definition grid_sampler_unnormalize (coord : Q) (size : nat) : Q :=
  ((coord + 1) * inject_Z (Z.of_nat size) - 1) / 2.

Definition clip_coordinates (coord : Q) (size : nat) : Q :=
  Qmin (inject_Z (Z.of_nat size - 1)) (Qmax coord 0).

Definition compute_coordinates (o : GridSampleFuncOptions) (coord : Q) (size : nat) : Q :=
  match o with
  | kBorder => clip_coordinates (grid_sampler_unnormalize coord size) size
  | kZeros => grid_sampler_unnormalize coord size
  end.

Definition within_bounds_2d (h w : Z) (H W : nat) : bool :=
  (0 <=? h)%Z && (h <? Z.of_nat H)%Z && (0 <=? w)%Z && (w <? Z.of_nat W)%Z.

(** Contribution of one corner: the pixel value times its weight when the
    corner lies inside the image, nothing otherwise. *)
Definition corner (plane : nat -> nat -> Q) (H W : nat) (iy ix : Z) (wt : Q) : Q :=
  if within_bounds_2d iy ix H W then plane (Z.to_nat iy) (Z.to_nat ix) * wt else 0.

(** Bilinear sample of an [H] x [W] image at normalized coordinates
    [(gx, gy)]. *)
Definition bilinear_sample (o : GridSampleFuncOptions) (plane : nat -> nat -> Q)
    (H W : nat) (gx gy : Q) : Q :=
  let ix := compute_coordinates o gx W in
  let iy := compute_coordinates o gy H in
  let ix_nw := Qfloor ix in
  let iy_nw := Qfloor iy in
  let ix_se := (ix_nw + 1)%Z in
  let iy_se := (iy_nw + 1)%Z in
  let nw := (inject_Z ix_se - ix) * (inject_Z iy_se - iy) in
  let ne := (ix - inject_Z ix_nw) * (inject_Z iy_se - iy) in
  let sw := (inject_Z ix_se - ix) * (iy - inject_Z iy_nw) in
  let se := (ix - inject_Z ix_nw) * (iy - inject_Z iy_nw) in
  corner plane H W iy_nw ix_nw nw + corner plane H W iy_nw ix_se ne
  + corner plane H W iy_se ix_nw sw + corner plane H W iy_se ix_se se.

(* torch::nn::functional::grid_sample(input, grid, options), 4-D input *)
Definition grid_sample (input grid : Tensor Q) (o : GridSampleFuncOptions)
  : option (Tensor Q) :=
  match sizes input, sizes grid with
  | [N; C; IH; IW], [N'; H; W; two] =>
      if (N =? N')%nat && (two =? 2)%nat && (0 <? IH)%nat && (0 <? IW)%nat
      then Some (mkTensor [N; C; H; W]
              (fun ix =>
                 let n := default 0%nat (ix !! 0%nat) in
                 let c := default 0%nat (ix !! 1%nat) in
                 let h := default 0%nat (ix !! 2%nat) in
                 let w := default 0%nat (ix !! 3%nat) in
                 bilinear_sample o (fun y x => at_ input [n; c; y; x]) IH IW
                   (at_ grid [n; h; w; 0%nat]) (at_ grid [n; h; w; 1%nat])))
      else None
  | _, _ => None
  end.

(** Source position and interpolation weight of output position [dst]
    (bilinear, [align_corners] false). *)
Definition area_pixel_compute_source_index (scale : Q) (dst : nat) : Q :=
  Qmax (scale * (inject_Z (Z.of_nat dst) + 1 / 2) - 1 / 2) 0.

Definition lerp (line : nat -> Q) (n : nat) (src : Q) : Q :=
  let i1 := Z.to_nat (Qfloor src) in
  let i1p := if (i1 <? n - 1)%nat then 1%nat else 0%nat in
  let lambda1 := src - inject_Z (Z.of_nat i1) in
  let lambda0 := 1 - lambda1 in
  lambda0 * line i1 + lambda1 * line (i1 + i1p)%nat.

(* torch::nn::functional::interpolate(input, options): bilinear,
   align_corners false, both spatial dimensions scaled by scale_factor *)
Definition interpolate (input : Tensor Q) (scale_factor : Q) : option (Tensor Q) :=
  match sizes input with
  | [N; C; IH; IW] =>
      let OH := Z.to_nat (Qfloor (inject_Z (Z.of_nat IH) * scale_factor)) in
      let OW := Z.to_nat (Qfloor (inject_Z (Z.of_nat IW) * scale_factor)) in
      if (0 <? IH)%nat && (0 <? IW)%nat && (0 <? OH)%nat && (0 <? OW)%nat
      then Some (mkTensor [N; C; OH; OW]
              (fun ix =>
                 let n := default 0%nat (ix !! 0%nat) in
                 let c := default 0%nat (ix !! 1%nat) in
                 let oh := default 0%nat (ix !! 2%nat) in
                 let ow := default 0%nat (ix !! 3%nat) in
                 let sy := area_pixel_compute_source_index (1 / scale_factor) oh in
                 let sx := area_pixel_compute_source_index (1 / scale_factor) ow in
                 lerp (fun y => lerp (fun x => at_ input [n; c; y; x]) IW sx) IH sy))
      else None
  | _ => None
  end.

(** [pad t pads]: constant zero padding; [pads] lists (before, after) for
    the last dimension first. *)
Definition pad (t : Tensor Q) (pads : list (nat * nat)) : option (Tensor Q) :=
  if (length pads <=? dim t)%nat
  then
    let k := (dim t - length pads)%nat in
    let ps := replicate k (0%nat, 0%nat) ++ reverse pads in
    Some (mkTensor (zip_with (fun n p => (fst p + n + snd p)%nat) (sizes t) ps)
            (fun ix =>
               if forallb (fun x => let '(i, n, p) := x in
                             (fst p <=? i)%nat && (i <? fst p + n)%nat)
                    (zip (zip ix (sizes t)) ps)
               then at_ t (zip_with (fun i p => (i - fst p)%nat) ix ps)
               else 0))
  else None.

(* avg_pool3d(input, kernel).stride(1).padding(0), 5-D input *)
Definition avg_pool3d (input : Tensor Q) (kernel : nat * nat * nat)
  : option (Tensor Q) :=
  let '(kd, kh, kw) := kernel in
  match sizes input with
  | [N; C; D; H; W] =>
      if (0 <? C)%nat && (kd <=? D)%nat && (kh <=? H)%nat && (kw <=? W)%nat
         && (0 <? kd * kh * kw)%nat
      then Some (mkTensor [N; C; D - kd + 1; H - kh + 1; W - kw + 1]%nat
              (fun ix =>
                 let n := default 0%nat (ix !! 0%nat) in
                 let c := default 0%nat (ix !! 1%nat) in
                 let d := default 0%nat (ix !! 2%nat) in
                 let h := default 0%nat (ix !! 3%nat) in
                 let w := default 0%nat (ix !! 4%nat) in
                 Qsum (i ← seq 0 kd; j ← seq 0 kh; l ← seq 0 kw;
                       [at_ input [n; c; d + i; h + j; w + l]%nat])
                 / inject_Z (Z.of_nat (kd * kh * kw))))
      else None
  | _ => None
  end.

End Rational.

End torch.

(** ** Real tensors: the softmax *)

Module real.
Import torch.
Local Open Scope R_scope.

Definition Rsum (l : list R) : R := foldr Rplus 0 l.

(* torch::exp(t) *)
Definition exp (t : Tensor R) : Tensor R := map Rtrigo_def.exp t.

(* torch::log_softmax(t, d): t - log(sum(exp(t), d)) *)
Definition log_softmax (t : Tensor R) (d : nat) : option (Tensor R) :=
  if (d <? dim t)%nat
  then Some (mkTensor (sizes t)
               (fun ix => at_ t ix - ln (Rsum (Rtrigo_def.exp <$> fiber t d ix))))
  else None.

(* torch::sigmoid(t) *)
Definition sigmoid (t : Tensor R) : Tensor R :=
  map (fun x => 1 / (1 + Rtrigo_def.exp (- x))) t.

Definition Rmax_list (x : R) (l : list R) : R := foldl Rmax x l.

(** Values of [torch::max(t, d, keepdim)]; the reduced dimension must not
    be empty. *)
Definition max_values (t : Tensor R) (d : nat) (keepdim : bool) : option (Tensor R) :=
  n ← sizes t !! d;
  if (0 <? n)%nat
  then
    let value ix :=
      match fiber t d ix with
      | [] => 0
      | x :: l => Rmax_list x l
      end in
    Some (if keepdim
          then mkTensor (<[d:=1%nat]> (sizes t)) value
          else mkTensor (delete d (sizes t)) (fun ix => value (insert_at d 0 ix)))
  else None.

End real.

(** ** InitDepth (lines 282-315) *)

Module InitDepthImpl.
Import torch.
Local Open Scope Q_scope.

Record t := mk {
  num_samples : nat;
  interval_scale : Q
}.

(** [rand] stands for the draws of [torch::rand], uniform in [0, 1). *)
Definition forward (self : t) (rand : index -> Q) (depth_init : option (Tensor Q))
    (depth_min depth_max : Q) (batch_size height width : nat)
  : option (Tensor Q) :=
  let inv_depth_min := 1 / depth_min in
  let inv_depth_max := 1 / depth_max in
  match depth_init with
  | None =>
      let rand_num_samples := 48%nat in
      ar ← view (arange 0 (Z.of_nat rand_num_samples)) [1; rand_num_samples; 1; 1]%nat;
      depth ← add (mkTensor [batch_size; rand_num_samples; height; width] rand) ar;
      Some (map (fun v => 1 / (((inv_depth_min - inv_depth_max)
                                / inject_Z (Z.of_nat rand_num_samples)) * v
                               + inv_depth_max)) depth)
  | Some depth_init =>
      if (num_samples self =? 1)%nat then Some depth_init
      else
        let n := Z.of_nat (num_samples self) in
        ar ← view (arange (Z.quot (- n) 2) (Z.quot n 2)) [1; num_samples self; 1; 1]%nat;
        depth ← repeat ar [batch_size; 1; height; width]%nat;
        depth ← add (map (fun v => 1 / v) depth_init)
                    (map (fun v => (inv_depth_min - inv_depth_max)
                                   * interval_scale self * v) depth);
        Some (map (fun v => 1 / v) (clamp depth inv_depth_max inv_depth_min))
  end.

End InitDepthImpl.

(** ** Propagation (lines 317-334) *)

Module PropagationImpl.
Import torch.
Local Open Scope Q_scope.

Definition kGridSampleBorder : GridSampleFuncOptions := kBorder.

Definition forward (depth grid : Tensor Q) (depth_min depth_max : Q)
  : option (Tensor Q) :=
  batch_size ← size depth 0;
  num_depth ← size depth 1;
  height ← size depth 2;
  width ← size depth 3;
  grid_rows ← size grid 1;
  if (height =? 0)%nat then None            (* integer division by zero *)
  else
    let num_neighbors := (grid_rows / height)%nat in
    middle ← select depth 1 (num_depth / 2);
    middle ← unsqueeze middle 1;
    sampled ← grid_sample middle grid kGridSampleBorder;
    prop_depth ← view sampled [batch_size; num_neighbors; height; width];
    all_depth ← cat [depth; prop_depth] 1;
    sort_values all_depth 1.

End PropagationImpl.

(** ** Evaluation: differentiable warping (lines 391-436) *)

Module EvaluationImpl.
Import torch.
Local Open Scope Q_scope.

Definition kGridSampleZeros : GridSampleFuncOptions := kZeros.

(** The camera-space points [xyz] of line 418: for every batch entry,
    coordinate, depth hypothesis and pixel, the relative transform applied
    to the homogeneous pixel scaled by the hypothesis. *)
Definition camera_points (feature proj ref_proj depth : Tensor Q)
  : option (Tensor Q) :=
  batch_size ← size feature 0;
  height ← size feature 2;
  width ← size feature 3;
  num_depth ← size depth 1;
  ref_inv ← inverse ref_proj;
  pmtx ← matmul proj ref_inv;
  top ← narrow pmtx 1 0 3;
  rot ← narrow top 2 0 3;
  trans ← narrow top 2 3 1;
  xy ← meshgrid (arange 0 (Z.of_nat height)) (arange 0 (Z.of_nat width));
  x ← view (snd xy) [height * width]%nat;
  y ← view (fst xy) [height * width]%nat;
  xyz ← stack [x; y; ones_like x] 0;
  xyz ← unsqueeze xyz 0;
  xyz ← repeat xyz [batch_size; 1; 1]%nat;
  xyz ← matmul rot xyz;
  xyz ← unsqueeze xyz 2;
  xyz ← repeat xyz [1; 1; num_depth; 1]%nat;
  depth_v ← view depth [batch_size; 1; num_depth; height * width]%nat;
  trans_v ← view trans [batch_size; 3; 1; 1]%nat;
  xyz ← mul xyz depth_v;
  add xyz trans_v.

(** The sampling grid [proj_xy] built in the no-gradient block
    (lines 402-432). *)
Definition warp_grid (feature proj ref_proj depth : Tensor Q) : option (Tensor Q) :=
  height ← size feature 2;
  width ← size feature 3;
  xyz ← camera_points feature proj ref_proj depth;
  z ← select xyz 1 2;
  let mask := le_scalar z (1 / 1000) in
  x0 ← select xyz 1 0;
  fx ← masked_fill x0 mask (inject_Z (Z.of_nat width));
  x0 ← select xyz 1 0;
  fy ← masked_fill x0 mask (inject_Z (Z.of_nat height));
  x0 ← select xyz 1 0;
  fz ← masked_fill x0 mask 1;
  xyz ← stack [fx; fy; fz] 1;
  num ← narrow xyz 1 0 2;
  den ← select xyz 1 2;
  proj_xy ← div num den;
  px ← select proj_xy 1 0;
  py ← select proj_xy 1 1;
  let x := map (fun v => v / ((inject_Z (Z.of_nat width) - 1) / 2) - 1) px in
  let y := map (fun v => v / ((inject_Z (Z.of_nat height) - 1) / 2) - 1) py in
  stack [x; y] 3.

Definition DifferentiableWarping (feature proj ref_proj depth : Tensor Q)
  : option (Tensor Q) :=
  batch_size ← size feature 0;
  num_channels ← size feature 1;
  height ← size feature 2;
  width ← size feature 3;
  num_depth ← size depth 1;
  proj_xy ← warp_grid feature proj ref_proj depth;
  sampled ← grid_sample feature proj_xy kGridSampleZeros;
  view sampled [batch_size; num_channels; num_depth; height; width].

(** The sampling position the warp is meant to use, following the
    description of the projection: the camera-space point
    [(x', y', z')] of pixel [p] at hypothesis [d], divided by its depth. *)
Definition projected_xy (xyz : Tensor Q) (b d p : nat) : Q * Q :=
  (at_ xyz [b; 0; d; p]%nat / at_ xyz [b; 2; d; p]%nat,
   at_ xyz [b; 1; d; p]%nat / at_ xyz [b; 2; d; p]%nat).

(* EvaluationImpl::InverseDepthRegression (lines 438-450) *)
Definition InverseDepthRegression (depth score : Tensor Q) : option (Tensor Q) :=
  num_depth ← size depth 1;
  depth_index ← view (arange 0 (Z.of_nat num_depth)) [1; num_depth; 1; 1]%nat;
  weighted ← mul depth_index score;
  depth_index ← sum weighted 1 false;
  last ← select depth 1 (num_depth - 1);
  let inv_depth_min := map (fun v => 1 / v) last in
  first ← select depth 1 0;
  let inv_depth_max := map (fun v => 1 / v) first in
  range ← sub inv_depth_min inv_depth_max;
  scaled ← mul range depth_index;
  let scaled := map (fun v => v / (inject_Z (Z.of_nat num_depth) - 1)) scaled in
  inv_depth ← add inv_depth_max scaled;
  Some (map (fun v => 1 / v) inv_depth).

End EvaluationImpl.

(** ** Confidence (lines 718-738) *)

Module PatchMatchNetModuleImpl.
Import torch.
Local Open Scope Q_scope.

(** [scale_factor] of [kInterpBilinear]; bilinear, [align_corners] false. *)
Definition kInterpBilinear : Q := 2.

(** [num_depth] is the member initialised from [num_samples[0]]. *)
Definition CalcConfidence (num_depth : nat) (score : Tensor Q) : option (Tensor Q) :=
  score_1 ← unsqueeze score 1;
  padded ← pad score_1 [(0, 0); (0, 0); (1, 2)]%nat;
  pooled ← avg_pool3d padded (4, 1, 1)%nat;
  score_sum ← squeeze (map (Qmult 4) pooled) 1;
  depth_index ← view (arange 0 (Z.of_nat num_depth)) [1; num_depth; 1; 1]%nat;
  weighted ← mul score depth_index;
  expected ← sum weighted 1 true;
  let depth_index := clampZ (to_kLong expected) 0 (Z.of_nat num_depth - 1) in
  gathered ← gather score_sum 1 depth_index;
  up ← interpolate gathered kInterpBilinear;
  squeeze up 1.

End PatchMatchNetModuleImpl.

(** ** Neighbor offset tables (lines 546-598) *)

Module PatchMatchModuleImpl.

Local Open Scope Z_scope.

Definition offset := (Z * Z)%type.

Definition ring8 (dilation : Z) : list offset :=
  [(- dilation, - dilation); (- dilation, 0); (- dilation, dilation);
   (0, - dilation); (0, dilation);
   (dilation, - dilation); (dilation, 0); (dilation, dilation)].

Definition square9 (dilation : Z) : list offset :=
  [(- dilation, - dilation); (- dilation, 0); (- dilation, dilation);
   (0, - dilation); (0, 0); (0, dilation);
   (dilation, - dilation); (dilation, 0); (dilation, dilation)].

(** The loop of lines 565-568: reads [prop_offset_orig[i]] for [i < 8] and
    appends its double. Reading past the end of the vector is undefined
    behaviour, [None] here. *)
Fixpoint push_doubled_prop (todo : list nat) (prop_offset_orig : list offset)
  : option (list offset) :=
  match todo with
  | [] => Some prop_offset_orig
  | i :: todo' =>
      o ← prop_offset_orig !! i;
      push_doubled_prop todo' (prop_offset_orig ++ [(2 * fst o, 2 * snd o)])
  end.

(** The loop of lines 588-592: reads [prop_offset_orig[i]] for [i < 8],
    skips a zero offset, appends the double of any other to
    [eval_offset_orig]. *)
Fixpoint push_doubled_eval (todo : list nat) (prop_offset_orig eval_offset_orig : list offset)
  : option (list offset) :=
  match todo with
  | [] => Some eval_offset_orig
  | i :: todo' =>
      o ← prop_offset_orig !! i;
      if (fst o =? 0) && (snd o =? 0)
      then push_doubled_eval todo' prop_offset_orig eval_offset_orig
      else push_doubled_eval todo' prop_offset_orig
             (eval_offset_orig ++ [(2 * fst o, 2 * snd o)])
  end.

(** [CalcOffsets] on a freshly constructed module (both tables empty):
    the tables [(prop_offset_orig, eval_offset_orig)] it leaves, or [None]
    when it reads a table out of bounds. An unsupported neighbor count
    prints an error and leaves its table empty. *)
Definition CalcOffsets (propagation_neighbors evaluation_neighbors : Z) (dilation : Z)
  : option (list offset * list offset) :=
  prop_offset_orig ←
    (if propagation_neighbors =? 0 then Some []
     else if propagation_neighbors =? 4 then
       Some [(- dilation, 0); (0, - dilation); (0, dilation); (dilation, 0)]
     else if propagation_neighbors =? 8 then Some (ring8 dilation)
     else if propagation_neighbors =? 16 then
       push_doubled_prop (seq 0 8) (ring8 dilation)
     else Some []);
  let dilation := dilation - 1 in
  eval_offset_orig ←
    (if evaluation_neighbors =? 9 then Some (square9 dilation)
     else if evaluation_neighbors =? 17 then
       push_doubled_eval (seq 0 8) prop_offset_orig (square9 dilation)
     else Some []);
  Some (prop_offset_orig, eval_offset_orig).

Section Grids.
Import torch.
Local Open Scope Q_scope.

(** The loop of lines 617-625 from table index [i] on: one grid of shape
    [B; 2; 1; H * W] per entry of [orig_offset]. *)
Fixpoint neighbor_grids (xy_grid offset : Tensor Q) (i : nat)
    (orig_offset : list PatchMatchModuleImpl.offset) : option (list (Tensor Q)) :=
  match orig_offset with
  | [] => Some []
  | o :: rest =>
      sx ← select offset 1 (2 * i);
      sx ← unsqueeze sx 1;
      let x_offset := map (fun v => inject_Z (snd o) + v) sx in
      sy ← select offset 1 (2 * i + 1);
      sy ← unsqueeze sy 1;
      let y_offset := map (fun v => inject_Z (fst o) + v) sy in
      both ← cat [x_offset; y_offset] 1;
      moved ← add xy_grid both;
      g ← unsqueeze moved 2;
      gs ← neighbor_grids xy_grid offset (S i) rest;
      Some (g :: gs)
  end.

(* PatchMatchModuleImpl::GetGrid (lines 600-632) *)
Definition GetGrid (offset : Tensor Q) (orig_offset : list PatchMatchModuleImpl.offset)
    (num_neighbors batch_size height width : nat) : option (Tensor Q) :=
  grid ← meshgrid (arange 0 (Z.of_nat height)) (arange 0 (Z.of_nat width));
  y_grid ← view (fst grid) [height * width]%nat;
  x_grid ← view (snd grid) [height * width]%nat;
  xy_grid ← stack [x_grid; y_grid] 0;
  xy_grid ← unsqueeze xy_grid 0;
  xy_grid ← repeat xy_grid [batch_size; 1; 1]%nat;
  xy_grids ← neighbor_grids xy_grid offset 0 orig_offset;
  xy_grid ← cat xy_grids 2;
  xs ← select xy_grid 1 0;
  let x_norm := map (fun v => v / ((inject_Z (Z.of_nat width) - 1) / 2) - 1) xs in
  ys ← select xy_grid 1 1;
  let y_norm := map (fun v => v / ((inject_Z (Z.of_nat height) - 1) / 2) - 1) ys in
  both ← stack [x_norm; y_norm] 3;
  view both [batch_size; num_neighbors * height; width; 2]%nat.

(** PatchMatchModuleImpl::GetDepthWeight (lines 634-652).
    [evaluation_neighbors] and [interval_scale] are the members of the
    module. The result is real: the argument of the sigmoid is computed
    exactly and injected into the reals. *)
Definition GetDepthWeight (evaluation_neighbors : nat) (interval_scale : Q)
    (depth grid : Tensor Q) (depth_min depth_max : Q) : option (Tensor R) :=
  batch_size ← size depth 0;
  num_samples ← size depth 1;
  height ← size depth 2;
  width ← size depth 3;
  let inv_depth_min := 1 / depth_min in
  let inv_depth_max := 1 / depth_max in
  let weight := map (fun v => 1 / v) depth in
  let weight := map (fun v => (v - inv_depth_max) / (inv_depth_min - inv_depth_max))
                  weight in
  sampled ← grid_sample weight grid PropagationImpl.kGridSampleBorder;
  grid_weight ← view sampled
                  [batch_size; num_samples; evaluation_neighbors; height; width];
  own ← unsqueeze weight 2;
  diff ← sub grid_weight own;
  let grid_weight := map (fun v => Qabs v / interval_scale) diff in
  Some (real.sigmoid
          (map (fun v => Q2R (2 * (2 - v))) (clamp grid_weight 0 4))).

End Grids.

End PatchMatchModuleImpl.

(** ** Refinement (lines 121-155) *)

Module RefinementImpl.
Import torch.
Local Open Scope Q_scope.

(** The learned layers, as functions that return a tensor or throw:
    [conv] is the [ConvBnReLU2D] on the image, [deconv] the [Sequential]
    on the depth, [residual] the [Sequential] on their concatenation. *)
Record t := mk {
  conv : Tensor Q -> option (Tensor Q);
  deconv : Tensor Q -> option (Tensor Q);
  residual : Tensor Q -> option (Tensor Q)
}.

(* torch::nn::functional::relu *)
Definition relu (t : Tensor Q) : Tensor Q := map (fun v => Qmax v 0) t.

Definition forward (self : t) (image depth_init : Tensor Q) (depth_min depth_max : Q)
  : option (Tensor Q) :=
  let depth := map (fun v => (v - depth_min) / (depth_max - depth_min)) depth_init in
  image_conv ← conv self image;
  deconved ← deconv self depth;
  let depth_deconv := relu deconved in
  concat ← cat [depth_deconv; image_conv] 1;
  up ← interpolate depth PatchMatchNetModuleImpl.kInterpBilinear;
  res ← residual self concat;
  depth ← add up res;
  squeeze (map (fun v => v * (depth_max - depth_min) + depth_min) depth) 1.

End RefinementImpl.

(** ** PixelwiseNet (lines 267-280) *)

Module PixelwiseNetImpl.
Import torch.

(** [layers] stands for the three learned layers at the head of [conv]
    ([ConvBnReLU3D], [ConvBnReLU3D], [Conv3d]); the [Sequential] ends with
    a [Sigmoid]. *)
Record t := mk {
  layers : Tensor R -> option (Tensor R)
}.

Definition conv (self : t) (input : Tensor R) : option (Tensor R) :=
  real.sigmoid <$> layers self input.

Definition forward (self : t) (input : Tensor R) : option (Tensor R) :=
  c ← conv self input;
  s ← squeeze c 1;
  real.max_values s 1 true.

End PixelwiseNetImpl.

(** ** Loading parameters (lines 752-784) *)

Module Serialize.

Section ReadValues.
(** Tensors and archives are opaque here. [try_read archive key is_buffer]
    is [InputArchive::try_read]: [Some v] when it returns true having read
    [v], [None] when it returns false. [copy_ p v] is the parameter after
    [p->copy_(v)]. *)
Context {T Archive : Type}.
Variable try_read : Archive -> string -> bool -> option T.
Variable copy_ : T -> T -> T.

Definition warning (is_buffer : bool) (key : string) : string :=
  "WARN: archive does not contain " +:+ (if is_buffer then "buffer" else "parameter")
  +:+ ": " +:+ key.

(** One iteration of the loop of [ReadValues]: the value of the entry
    afterwards, and the line printed, if any. *)
Definition read_value (archive : Archive) (param_dict : gmap string string)
    (is_buffer : bool) (param : string * T) : (string * T) * list string :=
  let found := None in
  let found :=
    match param_dict !! param.1 with
    | Some alt => try_read archive alt is_buffer
    | None => found
    end in
  let found :=
    match found with
    | None => try_read archive param.1 is_buffer
    | Some v => Some v
    end in
  match found with
  | Some value => ((param.1, copy_ param.2 value), [])
  | None => (param, [warning is_buffer param.1])
  end.

Fixpoint ReadValues (archive : Archive) (dict : list (string * T))
    (param_dict : gmap string string) (is_buffer : bool)
  : list (string * T) * list string :=
  match dict with
  | [] => ([], [])
  | param :: dict' =>
      let '(param', out) := read_value archive param_dict is_buffer param in
      let '(rest, out') := ReadValues archive dict' param_dict is_buffer in
      (param' :: rest, out ++ out')
  end.

Record Module_ := mkModule {
  named_parameters : list (string * T);
  named_buffers : list (string * T);
  param_dict : gmap string string
}.

(* PatchMatchNetModuleImpl::load *)
Definition load (self : Module_) (archive : Archive) : Module_ * list string :=
  let '(ps, out1) := ReadValues archive (named_parameters self) (param_dict self) false in
  let '(bs, out2) := ReadValues archive (named_buffers self) (param_dict self) true in
  (mkModule ps bs (param_dict self), out1 ++ out2).

End ReadValues.

Section save.
(** [write archive key value is_buffer] is [OutputArchive::write]. *)
Context {T OutputArchive : Type}.
Variable write : OutputArchive -> string -> T -> bool -> OutputArchive.

(* PatchMatchNetModuleImpl::save (lines 740-750) *)
Definition save (self : @Module_ T) (archive : OutputArchive) : OutputArchive :=
  let archive :=
    foldl (fun archive param => write archive param.1 param.2 false)
          archive (named_parameters self) in
  foldl (fun archive buffer => write archive buffer.1 buffer.2 true)
        archive (named_buffers self).

End save.

End Serialize.

(** ** The stage loop and the multi-stage pipeline *)

Module Pipeline.

Inductive error :=
| EmptyModuleHolder      (* a module holder that was never registered is dereferenced *)
| UndefinedTensor        (* a method is called on an undefined tensor *)
| UndefinedBehaviour     (* a vector is read past its end *)
| TorchError.            (* an exception thrown inside a tensor operation *)

Definition Result (A : Type) : Type := error + A.

Definition ok {A} (a : A) : Result A := inr a.
Definition throw {A} (e : error) : Result A := inl e.
Definition bind {A B} (m : Result A) (k : A -> Result B) : Result B :=
  match m with
  | inl e => inl e
  | inr a => k a
  end.

Notation "'do' x <- m ; k" := (bind m (fun x => k))
  (at level 10, x name, m at level 100, k at level 200).
Notation "'do' ' p <- m ; k" := (bind m (fun x => let 'p := x in k))
  (at level 10, p pattern, m at level 100, k at level 200).

(** A call into libtorch or into a tensor-level method: [None] is a thrown
    exception. *)
Definition call {A} (o : option A) : Result A :=
  match o with
  | Some a => ok a
  | None => throw TorchError
  end.

(** Use of a tensor that may be undefined. *)
Definition defined {A} (o : option A) : Result A :=
  match o with
  | Some a => ok a
  | None => throw UndefinedTensor
  end.

(** [v[i]] on a [std::vector] or [TensorList]. *)
Definition nth_ {A} (v : list A) (i : nat) : Result A :=
  match v !! i with
  | Some a => ok a
  | None => throw UndefinedBehaviour
  end.

(** The tensor operations the orchestration code calls. Learned layers and
    the tensor-level methods modelled on their own above are operations
    that return a tensor or throw. *)
Class Ops (T : Type) := {
  (* libtorch *)
  size : T -> nat -> option nat;
  view : T -> list nat -> option T;
  zeros : list nat -> T;
  mul : T -> T -> option T;
  div : T -> T -> option T;
  add_ : T -> T -> option T;         (* a += b *)
  mul_ : T -> T -> option T;         (* a *= b *)
  div_ : T -> T -> option T;         (* a /= b *)
  mean : T -> nat -> option T;
  sum : T -> nat -> bool -> option T;
  select : T -> nat -> nat -> option T;
  slice : T -> nat -> nat -> option T;
  unbind : T -> nat -> option (list T);
  unsqueeze : T -> nat -> option T;
  cat : list T -> nat -> option T;
  detach : T -> T;
  contiguous : T -> T;
  exp : T -> T;
  log_softmax : T -> nat -> option T;
  interpolate : T -> option T;       (* interpolate(t, kInterpBilinear) *)
  (* learned modules, as constructed from their options *)
  FeatureNet : T -> option (list T);
  Refinement : T -> T -> Q -> Q -> option T;
  PixelwiseNet : nat -> T -> option T;
  SimilarityNet : nat -> T -> T -> T -> option T;
  FeatureWeightNet : Z -> nat -> T -> T -> option T;
  Conv2d : nat -> Z -> Z -> T -> option T;
  (* tensor-level methods *)
  DifferentiableWarping : T -> T -> T -> T -> option T;
  InverseDepthRegression : T -> T -> option T;
  InitDepth_forward : InitDepthImpl.t -> option T -> Q -> Q -> nat -> nat -> nat -> option T;
  Propagation_forward : T -> T -> Q -> Q -> option T;
  GetGrid : T -> list PatchMatchModuleImpl.offset -> Z -> nat -> nat -> nat -> option T;
  GetDepthWeight : Z -> Q -> T -> T -> Q -> Q -> option T;
  CalcConfidence : nat -> T -> option T
}.

Definition kNumStages : nat := 4.

Section Modules.
Context {T : Type} {ops : Ops T}.

(** *** Evaluation (lines 336-389) *)

Record EvaluationImpl := mkEvaluation {
  num_groups : nat;
  pixelwise_net : option (T -> option T);
  similarity_net : T -> T -> T -> option T
}.

(* EvaluationImpl::EvaluationImpl(num_groups, stage) *)
Definition Evaluation (num_groups : nat) (stage : Z) : EvaluationImpl :=
  {| num_groups := num_groups;
     pixelwise_net := if (stage =? 3)%Z then Some (PixelwiseNet num_groups) else None;
     similarity_net := SimilarityNet num_groups |}.

(** The loop over the source views (lines 368-381), from view [i] on. *)
Fixpoint views_loop (self : EvaluationImpl)
    (ref_feature ref_proj_mtx depth : T) (src_proj_mtx : list T)
    (view_weights : option T) (shape : list nat)
    (i : nat) (src_features : list T) (acc : list T * T * T)
  : Result (list T * T * T) :=
  match src_features with
  | [] => ok acc
  | src_feature :: rest =>
      let '(weights, similarity_sum, weight_sum) := acc in
      do src_proj <- nth_ src_proj_mtx i ;
      do warped <- call (DifferentiableWarping src_feature src_proj ref_proj_mtx depth) ;
      do warped_feature <- call (view warped shape) ;
      do prod <- call (mul warped_feature ref_feature) ;
      do similarity <- call (mean prod 2) ;
      do view_weight <-
        match view_weights with
        | Some vw => do s <- call (select vw 1 i) ; call (unsqueeze s 1)
        | None =>
            match pixelwise_net self with
            | Some net => call (net similarity)
            | None => throw EmptyModuleHolder
            end
        end ;
      do vw1 <- call (unsqueeze view_weight 1) ;
      do weighted <- call (mul similarity vw1) ;
      do similarity_sum <- call (add_ similarity_sum weighted) ;
      do vw1 <- call (unsqueeze view_weight 1) ;
      do weight_sum <- call (add_ weight_sum vw1) ;
      views_loop self ref_feature ref_proj_mtx depth src_proj_mtx view_weights shape
        (S i) rest (weights ++ [view_weight], similarity_sum, weight_sum)
  end.

(* EvaluationImpl::forward *)
Definition Evaluation_forward (self : EvaluationImpl)
    (ref_feature_in : T) (src_features : list T)
    (ref_proj_mtx : T) (src_proj_mtx : list T)
    (depth_init grid weight : T) (view_weights : option T) (is_inverse : bool)
  : Result (T * T * T) :=
  let depth := depth_init in
  do batch_size <- call (size ref_feature_in 0) ;
  do num_channels <- call (size ref_feature_in 1) ;
  do height <- call (size ref_feature_in 2) ;
  do width <- call (size ref_feature_in 3) ;
  do num_depth <- call (size depth 1) ;
  let group := (num_channels / num_groups self)%nat in
  do ref_feature <- call (view ref_feature_in
                         [batch_size; num_groups self; group; 1; height; width]) ;
  let weight_sum := zeros [batch_size; 1; 1; height; width] in
  let similarity_sum := zeros [batch_size; num_groups self; num_depth; height; width] in
  do ' (weights, similarity_sum, weight_sum) <-
    views_loop self ref_feature ref_proj_mtx depth src_proj_mtx view_weights
      [batch_size; num_groups self; group; num_depth; height; width]
      0 src_features ([], similarity_sum, weight_sum) ;
  do averaged <- call (div similarity_sum weight_sum) ;
  do cost <- call (similarity_net self averaged grid weight) ;
  do log_score <- call (log_softmax cost 1) ;
  let score := exp log_score in
  do depth <- (if is_inverse then call (InverseDepthRegression depth score)
            else (do weighted <- call (mul depth score) ; call (sum weighted 1 false))) ;
  do view_weights <-
    match view_weights with
    | Some vw => ok vw
    | None => do all <- call (cat weights 1) ; ok (detach all)
    end ;
  ok (depth, score, view_weights).

(** *** PatchMatchModule (lines 452-544) *)

Record PatchMatchModuleImpl := mkPatchMatchModule {
  propagation_neighbors : Z;
  evaluation_neighbors : Z;
  iterations : Z;
  stage : Z;
  interval_scale : Q;
  prop_offset_orig : list PatchMatchModuleImpl.offset;
  eval_offset_orig : list PatchMatchModuleImpl.offset;
  propagation_conv : option (T -> option T);
  evaluation_conv : T -> option T;
  init_depth : InitDepthImpl.t;
  evaluation : EvaluationImpl;
  feature_weight_net : T -> T -> option T
}.

(* PatchMatchModuleImpl::PatchMatchModuleImpl *)
Definition PatchMatchModule (propagation_range iterations num_samples : Z)
    (interval_scale : Q) (num_features group_correlations : nat)
    (propagation_neighbors evaluation_neighbors stage : Z)
  : Result PatchMatchModuleImpl :=
  do offsets <-
    match PatchMatchModuleImpl.CalcOffsets propagation_neighbors evaluation_neighbors
            propagation_range with
    | Some o => ok o
    | None => throw UndefinedBehaviour
    end ;
  ok {| propagation_neighbors := propagation_neighbors;
        evaluation_neighbors := evaluation_neighbors;
        iterations := iterations;
        stage := stage;
        interval_scale := interval_scale;
        prop_offset_orig := fst offsets;
        eval_offset_orig := snd offsets;
        propagation_conv :=
          if (0 <? propagation_neighbors)%Z
             && negb ((stage =? 1)%Z && (iterations =? 1)%Z)
          then Some (Conv2d num_features (2 * propagation_neighbors) propagation_range)
          else None;
        evaluation_conv :=
          Conv2d num_features (2 * evaluation_neighbors) propagation_range;
        init_depth := InitDepthImpl.mk (Z.to_nat num_samples) interval_scale;
        evaluation := Evaluation group_correlations stage;
        feature_weight_net := FeatureWeightNet evaluation_neighbors group_correlations |}.

(** The iteration loop (lines 526-541) over the remaining iterations
    [iters]; the state is the triple [(depth, score, view_weights)], each
    possibly undefined. *)
Fixpoint iterations_loop (self : PatchMatchModuleImpl)
    (ref_feature : T) (src_features : list T)
    (ref_proj_mtx : T) (src_proj_mtx : list T) (depth_min depth_max : Q)
    (batch_size height width : nat)
    (propagation_grid : option T) (evaluation_grid feature_weight : T)
    (iters : list nat) (st : option T * option T * option T)
  : Result (option T * option T * option T) :=
  match iters with
  | [] => ok st
  | iter :: rest =>
      let '(depth, score, view_weights) := st in
      let last := ((stage self =? 1) && (Z.of_nat iter =? iterations self - 1))%Z in
      do depth <- call (InitDepth_forward (init_depth self) depth depth_min depth_max
                          batch_size height width) ;
      do depth <-
        (if (0 <? propagation_neighbors self)%Z && negb last
         then (do grid <- defined propagation_grid ;
               call (Propagation_forward depth grid depth_min depth_max))
         else ok depth) ;
      do weight <- call (GetDepthWeight (evaluation_neighbors self) (interval_scale self)
                           (detach depth) evaluation_grid depth_min depth_max) ;
      do fw <- call (unsqueeze feature_weight 1) ;
      do weight <- call (mul_ weight fw) ;
      do total <- call (sum weight 2 true) ;
      do weight <- call (div_ weight total) ;
      do result <- Evaluation_forward (evaluation self) ref_feature src_features
                     ref_proj_mtx src_proj_mtx depth evaluation_grid weight
                     view_weights last ;
      let '(depth, score, view_weights) := result in
      iterations_loop self ref_feature src_features ref_proj_mtx src_proj_mtx
        depth_min depth_max batch_size height width
        propagation_grid evaluation_grid feature_weight
        rest (Some depth, Some score, Some view_weights)
  end.

(* PatchMatchModuleImpl::forward *)
Definition PatchMatchModule_forward (self : PatchMatchModuleImpl)
    (ref_feature : T) (src_features : list T)
    (ref_proj_mtx : T) (src_proj_mtx : list T) (depth_min depth_max : Q)
    (depth_init view_weights_init : option T)
  : Result (T * option T * option T) :=
  do batch_size <- call (size ref_feature 0) ;
  do height <- call (size ref_feature 2) ;
  do width <- call (size ref_feature 3) ;
  do propagation_grid <-
    match propagation_conv self with
    | Some conv =>
        do offset <- call (conv ref_feature) ;
        do offset <- call (view offset
                             [batch_size; Z.to_nat (2 * propagation_neighbors self);
                              height * width]%nat) ;
        do grid <- call (GetGrid offset (prop_offset_orig self)
                           (propagation_neighbors self) batch_size height width) ;
        ok (Some grid)
    | None => ok None
    end ;
  do offset <- call (evaluation_conv self ref_feature) ;
  do evaluation_offset <- call (view offset
                                  [batch_size; Z.to_nat (2 * evaluation_neighbors self);
                                   height * width]%nat) ;
  do evaluation_grid <- call (GetGrid evaluation_offset (eval_offset_orig self)
                                (evaluation_neighbors self) batch_size height width) ;
  do feature_weight <- call (feature_weight_net self ref_feature evaluation_grid) ;
  do st <- iterations_loop self ref_feature src_features ref_proj_mtx src_proj_mtx
             depth_min depth_max batch_size height width
             propagation_grid evaluation_grid feature_weight
             (seq 0 (Z.to_nat (iterations self)))
             (depth_init, None, view_weights_init) ;
  let '(depth, score, view_weights) := st in
  do depth <- defined depth ;
  do depth <- call (unsqueeze depth 1) ;
  ok (detach depth, score, view_weights).

(** *** PatchMatchNetModule (lines 654-716) *)

Record PatchMatchNetModuleImpl := mkPatchMatchNetModule {
  num_depth : Z;
  feature : T -> option (list T);
  refinement : T -> T -> Q -> Q -> option T;
  patch_match : list PatchMatchModuleImpl
}.

(** The loop of lines 670-678, from stage index [i] on. *)
Fixpoint make_stages (interval_scale : list Q)
    (propagation_range iterations num_samples
     propagation_neighbors evaluation_neighbors : list Z)
    (num_features group_correlations : list nat) (todo : list nat)
  : Result (list PatchMatchModuleImpl) :=
  match todo with
  | [] => ok []
  | i :: rest =>
      do pr <- nth_ propagation_range i ;
      do it <- nth_ iterations i ;
      do ns <- nth_ num_samples i ;
      do sc <- nth_ interval_scale i ;
      do nf <- nth_ num_features i ;
      do gc <- nth_ group_correlations i ;
      do pn <- nth_ propagation_neighbors i ;
      do en <- nth_ evaluation_neighbors i ;
      do m <- PatchMatchModule pr it ns sc nf gc pn en (Z.of_nat i + 1) ;
      do ms <- make_stages interval_scale propagation_range iterations num_samples
                 propagation_neighbors evaluation_neighbors
                 num_features group_correlations rest ;
      ok (m :: ms)
  end.

(* PatchMatchNetModuleImpl::PatchMatchNetModuleImpl *)
Definition PatchMatchNetModule (interval_scale : list Q)
    (propagation_range iterations num_samples
     propagation_neighbors evaluation_neighbors : list Z)
  : Result PatchMatchNetModuleImpl :=
  do num_depth <- nth_ num_samples 0 ;
  do stages <- make_stages interval_scale propagation_range iterations num_samples
                 propagation_neighbors evaluation_neighbors
                 [16; 32; 64]%nat [4; 8; 8]%nat (seq 0 (kNumStages - 1)) ;
  ok {| num_depth := num_depth;
        feature := FeatureNet;
        refinement := Refinement;
        patch_match := stages |}.

(** The loop of lines 686-692 over the source images. *)
Fixpoint source_features (self : PatchMatchNetModuleImpl) (images : T)
    (im_idxs : list nat) (src_features : list (list T))
  : Result (list (list T)) :=
  match im_idxs with
  | [] => ok src_features
  | im_idx :: rest =>
      do image <- call (select images 1 im_idx) ;
      do stage_features <- call (feature self image) ;
      do src_features <-
        foldl (fun acc stage =>
                 do src_features <- acc ;
                 do f <- nth_ stage_features stage ;
                 do fs <- nth_ src_features stage ;
                 ok (<[stage := fs ++ [f]]> src_features))
              (ok src_features) (seq 1 (kNumStages - 1)) ;
      source_features self images rest src_features
  end.

(** The coarse-to-fine loop of lines 697-710 over the remaining
    [stages]. *)
Fixpoint stages_loop (self : PatchMatchNetModuleImpl)
    (ref_features : list T) (src_features : list (list T))
    (proj_matrices : T) (depth_min depth_max : Q)
    (stages : list nat) (st : option T * option T * option T)
  : Result (option T * option T * option T) :=
  match stages with
  | [] => ok st
  | stage :: rest =>
      let '(depth, score, view_weights) := st in
      do stage_proj <- call (select proj_matrices 1 stage) ;
      do ref_proj_mtx <- call (select stage_proj 1 0) ;
      do stage_proj <- call (select proj_matrices 1 stage) ;
      do src_proj <- call (slice stage_proj 1 1) ;
      do src_proj_mtx <- call (unbind src_proj 1) ;
      do module <- nth_ (patch_match self) (stage - 1) ;
      do ref_feature <- nth_ ref_features stage ;
      do src_feature <- nth_ src_features stage ;
      do result <- PatchMatchModule_forward module ref_feature src_feature
                     ref_proj_mtx src_proj_mtx depth_min depth_max depth view_weights ;
      let '(depth, score, view_weights) := result in
      do st <-
        (if (1 <? stage)%nat
         then (do depth <- call (interpolate depth) ;
               do view_weights <- defined view_weights ;
               do view_weights <- call (interpolate view_weights) ;
               ok (Some depth, score, Some view_weights))
         else ok (Some depth, score, view_weights)) ;
      stages_loop self ref_features src_features proj_matrices depth_min depth_max
        rest st
  end.

(* PatchMatchNetModuleImpl::forward *)
Definition PatchMatchNetModule_forward (self : PatchMatchNetModuleImpl)
    (images proj_matrices : T) (depth_min depth_max : Q)
  : Result (T * T) :=
  do ref_image <- call (select images 1 0) ;
  do ref_features <- call (feature self ref_image) ;
  do num_images <- call (size images 1) ;
  do src_features <- source_features self images (seq 1 (num_images - 1))
                       (replicate kNumStages []) ;
  do st <- stages_loop self ref_features src_features proj_matrices
             depth_min depth_max [3; 2; 1]%nat (None, None, None) ;
  let '(depth, score, view_weights) := st in
  do ref_image <- call (select images 1 0) ;
  do depth <- defined depth ;
  do depth <- call (refinement self ref_image depth depth_min depth_max) ;
  do score <- defined score ;
  do conf <- call (CalcConfidence (Z.to_nat (num_depth self)) score) ;
  ok (contiguous depth, contiguous conf).

End Modules.

End Pipeline.

(** * Vocabulary of the statements

    Predicates in which the properties below are phrased, and the concrete
    scenes they are evaluated on. *)

Section Vocabulary.
Import torch.
Local Open Scope Q_scope.

(** Inverse depth of hypothesis [i] on the linear grid from
    [1 / depth_max] towards [1 / depth_min] in 48 steps. *)
Definition cold_inv_depth (depth_min depth_max : Q) (i : nat) : Q :=
  1 / depth_max + inject_Z (Z.of_nat i) * ((1 / depth_min - 1 / depth_max) / 48).

(** The candidate that neighbor [j] contributes at pixel [(h, w)]: the
    middle hypothesis plane of [depth], sampled bilinearly with border
    padding at the grid position of that neighbor. *)
Definition propagated (depth grid : Tensor Q) (b j h w : nat) : Q :=
  let num_depth := default 0%nat (sizes depth !! 1%nat) in
  let height := default 0%nat (sizes depth !! 2%nat) in
  let width := default 0%nat (sizes depth !! 3%nat) in
  bilinear_sample kBorder (fun y x => at_ depth [b; (num_depth / 2)%nat; y; x])
    height width
    (at_ grid [b; (j * height + h)%nat; w; 0%nat])
    (at_ grid [b; (j * height + h)%nat; w; 1%nat]).

(** Sum of the [n] entries of a list from position [d] on (entries past
    the end count as zero). *)
Definition window (m : list Q) (d n : nat) : Q :=
  Qsum ((fun i => default 0 (m !! (d + i)%nat)) <$> seq 0 n).

(** A volume of scores that is a probability distribution over the depth
    hypotheses at every pixel. *)
Definition distribution (score : Tensor Q) : Prop :=
  forall b h w,
    Forall2 lt [b; 0%nat; h; w] (<[1%nat:=1%nat]> (sizes score)) ->
    (forall d, (d < default 0%nat (sizes score !! 1%nat))%nat -> 0 <= at_ score [b; d; h; w])
    /\ Qsum (fiber score 1 [b; 0%nat; h; w]) == 1.

(** How one dimension of a broadcast result relates to the operands. *)
Definition broadcast_dim (a b r : nat) : Prop :=
  (a = b /\ r = a) \/ (a = 1%nat /\ r = b) \/ (b = 1%nat /\ r = a).

(** *** Scenes *)

Definition two_hypotheses : Tensor Q :=
  mkTensor [1; 2; 1; 1]%nat (fun ix => if bool_decide (ix !! 1%nat = Some 0%nat) then 3 else 1).

Definition one_neighbor : Tensor Q := full [1; 1; 1; 2]%nat 0.

Definition two_peaks : Tensor Q :=
  mkTensor [1; 4; 1; 1]%nat
    (fun ix => match ix !! 1%nat with
               | Some 1%nat | Some 2%nat => 1 # 2
               | _ => 0
               end).


(** Identity projections, a 4 x 4 feature map whose value at row [y],
    column [x] is [10 y + x], one depth hypothesis of constant depth. *)
Definition identity_proj (B : nat) : Tensor Q :=
  mkTensor [B; 4; 4]%nat
    (fun ix => if bool_decide (ix !! 1%nat = ix !! 2%nat) then 1 else 0).

Definition ramp_feature (B : nat) : Tensor Q :=
  mkTensor [B; 1; 4; 4]%nat
    (fun ix => inject_Z (Z.of_nat (10 * default 0 (ix !! 2)
                                   + default 0 (ix !! 3))%nat)).

Definition flat_depth (B : nat) (z : Q) : Tensor Q := full [B; 1; 4; 4]%nat z.

End Vocabulary.

Section LoadVocabulary.
Import Serialize.
Context {T Archive : Type}.
Variable try_read : Archive -> string -> bool -> option T.
Variable copy_ : T -> T -> T.

(** What [load] must leave in an entry [p] of a dictionary: the value read
    under the alternate name when the table has one and the read succeeds,
    else the value read under the entry's own name, else the old value
    together with a warning line in the output [out]. *)
Definition entry_loaded (archive : Archive) (param_dict : gmap string string)
    (is_buffer : bool) (out : list string) (p p' : string * T) : Prop :=
  p'.1 = p.1 /\
  match param_dict !! p.1 ≫= (fun alt => try_read archive alt is_buffer) with
  | Some v => p'.2 = copy_ p.2 v
  | None =>
      match try_read archive p.1 is_buffer with
      | Some v => p'.2 = copy_ p.2 v
      | None => p'.2 = p.2 /\ warning is_buffer p.1 ∈ out
      end
  end.

(** A line of the output is the warning of an entry that neither name
    resolves. *)
Definition is_warning_of (archive : Archive) (param_dict : gmap string string)
    (is_buffer : bool) (dict : list (string * T)) (line : string) : Prop :=
  exists p, p ∈ dict /\ line = warning is_buffer p.1
    /\ param_dict !! p.1 ≫= (fun alt => try_read archive alt is_buffer) = None
    /\ try_read archive p.1 is_buffer = None.

End LoadVocabulary.

Section PipelineVocabulary.
Import Pipeline.

(** A result that is not the dereference of an empty module holder. *)
Definition holder_safe {A} (r : Result A) : Prop := r <> throw EmptyModuleHolder.


(** An interpretation of the tensor operations in which every operation
    succeeds and returns its first tensor argument; [e] and [l] interpret
    [exp] and [log_softmax]. *)
Definition first_arg_ops {T : Type} (z : T) (e : T -> T) (l : T -> nat -> option T)
  : Pipeline.Ops T :=
  {| Pipeline.size := fun _ _ => Some 1;
     Pipeline.view := fun t _ => Some t;
     Pipeline.zeros := fun _ => z;
     Pipeline.mul := fun a _ => Some a;
     Pipeline.div := fun a _ => Some a;
     Pipeline.add_ := fun a _ => Some a;
     Pipeline.mul_ := fun a _ => Some a;
     Pipeline.div_ := fun a _ => Some a;
     Pipeline.mean := fun a _ => Some a;
     Pipeline.sum := fun a _ _ => Some a;
     Pipeline.select := fun a _ _ => Some a;
     Pipeline.slice := fun a _ _ => Some a;
     Pipeline.unbind := fun a _ => Some [a];
     Pipeline.unsqueeze := fun a _ => Some a;
     Pipeline.cat := fun _ _ => Some z;
     Pipeline.detach := fun a => a;
     Pipeline.contiguous := fun a => a;
     Pipeline.exp := e;
     Pipeline.log_softmax := l;
     Pipeline.interpolate := fun a => Some a;
     Pipeline.FeatureNet := fun a => Some [a; a; a; a];
     Pipeline.Refinement := fun _ d _ _ => Some d;
     Pipeline.PixelwiseNet := fun _ a => Some a;
     Pipeline.SimilarityNet := fun _ a _ _ => Some a;
     Pipeline.FeatureWeightNet := fun _ _ a _ => Some a;
     Pipeline.Conv2d := fun _ _ _ a => Some a;
     Pipeline.DifferentiableWarping := fun a _ _ _ => Some a;
     Pipeline.InverseDepthRegression := fun a _ => Some a;
     Pipeline.InitDepth_forward := fun _ d _ _ _ _ _ => Some (default z d);
     Pipeline.Propagation_forward := fun a _ _ _ => Some a;
     Pipeline.GetGrid := fun a _ _ _ _ _ => Some a;
     Pipeline.GetDepthWeight := fun _ _ a _ _ _ => Some a;
     Pipeline.CalcConfidence := fun _ a => Some a |}.

Definition uniform_cost : Tensor R := torch.full [1; 2; 1; 1]%nat 0%R.

Definition uniform_ops : Ops (Tensor R) :=
  first_arg_ops uniform_cost real.exp real.log_softmax.

Definition unit_ops : Ops unit :=
  first_arg_ops tt (fun t => t) (fun t _ => Some t).

End PipelineVocabulary.

(** ** Further vocabulary *)

Section PipelineVocabulary2.
Import Pipeline.

(** A result that is not the use of an undefined tensor. *)
Definition tensor_safe {A} (r : Result A) : Prop := r <> throw UndefinedTensor.

End PipelineVocabulary2.

Section Scenes2.
Import torch.
Local Open Scope Q_scope.

(** Four hypotheses of depth 1, 2, 3, 4 at a single pixel. *)
Definition rising_depth : Tensor Q :=
  mkTensor [1; 4; 1; 1]%nat
    (fun ix => inject_Z (Z.of_nat (1 + default 0 (ix !! 1))%nat)).

(** Learned layers of [Refinement] that ignore their input: 8 zero
    channels from [conv] and [deconv], a residual of 1/4 everywhere. *)
Definition constant_layers : RefinementImpl.t :=
  RefinementImpl.mk (fun _ => Some (full [1; 8; 2; 2]%nat 0))
                    (fun _ => Some (full [1; 8; 2; 2]%nat 0))
                    (fun _ => Some (full [1; 1; 2; 2]%nat (1 # 4))).

(** Learned offsets of half a pixel for two neighbours on a 2x2 image. *)
Definition half_pixel_offsets : Tensor Q := full [1; 4; 4]%nat (1 # 2).

End Scenes2.

Section Scenes3.
Import torch.
Local Open Scope R_scope.



End Scenes3.

Section ArchiveVocabulary.
Import Serialize.

(** An archive as a table from keys to values. *)
Definition table_try_read (a : gmap string nat) (k : string) (is_buffer : bool)
  : option nat := a !! k.

Definition table_write (a : gmap string nat) (k : string) (v : nat) (is_buffer : bool)
  : gmap string nat := <[k:=v]> a.

(** A module with two parameters and one buffer, and the same module before
    training, whose table renames [w]. *)
Definition trained_module : @Module_ nat :=
  mkModule [("w", 1); ("b", 2)] [("mean", 3)] ∅.

Definition fresh_module : @Module_ nat :=
  mkModule [("w", 0); ("b", 0)] [("mean", 0)] {["w" := "weight"]}.

End ArchiveVocabulary.

Section GridVocabulary.
Import torch PatchMatchModuleImpl.
Local Open Scope Q_scope.

(** The grid that entry [i] of the offset table contributes, in closed
    form: the pixel grid moved by the table offset [o] and by channels
    [2 * i] and [2 * i + 1] of the learned offsets. *)
Definition moved_grid (xy off : Tensor Q) (B P i : nat) (o : offset) : Tensor Q :=
  mkTensor [B; 2; 1; P]%nat
    (fun ix =>
       let b := default 0%nat (ix !! 0%nat) in
       let c := default 0%nat (ix !! 1%nat) in
       let p := default 0%nat (ix !! 3%nat) in
       at_ xy [b; c; p]
       + (match c with
          | 0%nat => inject_Z (snd o) + at_ off [b; (2 * i)%nat; p]
          | _ => inject_Z (fst o) + at_ off [b; (2 * i + 1)%nat; p]
          end)).

End GridVocabulary.

(** * Properties *)

(** ** Shapes and indices *)

Lemma broadcast_rev_ones (r1 r2 : list nat) :
  Forall2 (fun a b => b = a \/ b = 1) r1 r2 -> broadcast_rev r1 r2 = Some r1.
Proof.
  induction 1 as [|a b r1 r2 Hab _ IH]; [done|].
  simpl. rewrite IH. simpl.
  destruct Hab as [->| ->].
  - by rewrite Nat.eqb_refl.
  - destruct (a =? 1) eqn:E; [|done].
    apply Nat.eqb_eq in E. by subst.
Qed.

Lemma broadcast_shapes_ones (s1 s2 : list nat) :
  Forall2 (fun a b => b = a \/ b = 1) s1 s2 -> broadcast_shapes s1 s2 = Some s1.
Proof.
  intros H. unfold broadcast_shapes.
  rewrite broadcast_rev_ones.
  - simpl. by rewrite reverse_involutive.
  - by apply Forall2_reverse.
Qed.

Lemma bindex_in_range (s : list nat) (ix : index) :
  Forall2 lt ix s -> bindex s ix = ix.
Proof.
  intros H. unfold bindex.
  rewrite (Forall2_length _ _ _ H), Nat.sub_diag, drop_0.
  induction H as [|k n ix s Hk _ IH]; [done|].
  simpl. rewrite IH. f_equal.
  destruct (n =? 1) eqn:E; [|done].
  apply Nat.eqb_eq in E. lia.
Qed.

(** ** InitDepth: cold start *)

Section ColdStart.
Import torch.
Local Open Scope Q_scope.

Lemma cold_forward_eq self rand dmin dmax B H W :
  InitDepthImpl.forward self rand None dmin dmax B H W =
  Some (mkTensor [B; 48; H; W]%nat (fun ix =>
     1 / (((1 / dmin - 1 / dmax) / inject_Z 48) *
           (rand (bindex [B; 48; H; W]%nat ix) +
            inject_Z (0 + Z.of_nat (default 0%nat
               (unravel [48%nat] (ravel [1; 48; 1; 1]%nat
                  (bindex [1; 48; 1; 1]%nat ix)) !! 0%nat))))
          + 1 / dmax))).
Proof.
  unfold InitDepthImpl.forward, view.
  replace (numel (sizes (arange 0 (Z.of_nat 48))) =? numel [1; 48; 1; 1])%nat with true
    by (vm_compute; reflexivity).
  cbn [mbind option_bind].
  unfold add, map2. cbn [sizes].
  rewrite broadcast_shapes_ones.
  2:{ repeat (constructor; [auto|]). constructor. }
  reflexivity.
Qed.

Lemma Qinv_range (a c t : Q) :
  0 < a -> a <= t -> t < c -> / c < / t /\ / t <= / a.
Proof.
  intros Ha Hat Htc.
  assert (0 < t) by lra. assert (0 < c) by lra.
  split.
  - apply -> Qinv_lt_contravar; auto.
  - apply Qle_shift_inv_l; [lra|].
    rewrite Qmult_comm. change (a * / t) with (a / t).
    apply Qle_shift_div_r; lra.
Qed.

Lemma view_arange_index (b i h w : nat) :
  default 0%nat (unravel [48%nat] (ravel [1; 48; 1; 1]%nat
                   (bindex [1; 48; 1; 1]%nat [b; i; h; w])) !! 0%nat) = i.
Proof. cbn -[Nat.div Nat.modulo]. rewrite Nat.div_1_r. lia. Qed.

Lemma cold_sample_inv (dmin dmax : Q) (u : Q) (i : nat) :
  1 / (1 / ((1 / dmin - 1 / dmax) / inject_Z 48 * (u + inject_Z (0 + Z.of_nat i))
            + 1 / dmax))
  == / dmax + (inject_Z (Z.of_nat i) + u) * ((/ dmin - / dmax) / 48).
Proof.
  unfold Qdiv. rewrite !Qmult_1_l, Qinv_involutive.
  rewrite Z.add_0_l. change (inject_Z 48) with 48.
  generalize (/ dmin) (/ dmax) (/ 48) (inject_Z (Z.of_nat i)). intros. ring.
Qed.

Lemma cold_step_pos (dmin dmax : Q) :
  0 < dmin -> dmin < dmax ->
  0 < / dmax /\ 0 < (/ dmin - / dmax) / 48
  /\ / dmax + 48 * ((/ dmin - / dmax) / 48) == / dmin.
Proof.
  intros Hmin Hlt.
  assert (Ha : 0 < / dmax) by (apply Qinv_lt_0_compat; lra).
  assert (Hac : / dmax < / dmin) by (apply -> Qinv_lt_contravar; lra).
  split; [done|]. split.
  - apply Qlt_shift_div_l; lra.
  - generalize (/ dmin) (/ dmax). intros. field.
Qed.

Lemma cold_inv_depth_eq (dmin dmax : Q) (i : nat) :
  cold_inv_depth dmin dmax i
  == / dmax + (inject_Z (Z.of_nat i) + 0) * ((/ dmin - / dmax) / 48).
Proof. unfold cold_inv_depth, Qdiv. rewrite !Qmult_1_l, Qplus_0_r. reflexivity. Qed.

Lemma inject_nat_range (k n : nat) :
  (k < n)%nat -> 0 <= inject_Z (Z.of_nat k) <= inject_Z (Z.of_nat n) - 1.
Proof.
  intros Hk. split.
  - change 0 with (inject_Z 0). rewrite <- Zle_Qle. lia.
  - change 1 with (inject_Z 1). unfold Qminus. rewrite <- inject_Z_opp, <- inject_Z_plus.
    rewrite <- Zle_Qle. lia.
Qed.

(** C3, as amended: with no prior depth and before the noise is added, the
    forward pass returns a volume of exactly 48 hypotheses per pixel;
    hypothesis [i] has inverse depth
    [1/depth_max + i * (1/depth_min - 1/depth_max) / 48], so the hypotheses
    are linearly spaced in inverse depth, lie in the half-open interval
    (depth_min, depth_max], and are strictly ordered by index in inverse
    depth. *)
Theorem cold_start_hypotheses (self : InitDepthImpl.t) (depth_min depth_max : Q)
    (batch_size height width : nat) :
  0 < depth_min -> depth_min < depth_max ->
  exists depth,
    InitDepthImpl.forward self (fun _ => 0) None depth_min depth_max
      batch_size height width = Some depth
    /\ sizes depth = [batch_size; 48; height; width]%nat
    /\ forall b i h w, (i < 48)%nat ->
         1 / at_ depth [b; i; h; w] == cold_inv_depth depth_min depth_max i
         /\ depth_min < at_ depth [b; i; h; w] <= depth_max
         /\ forall j, (i < j < 48)%nat ->
              1 / at_ depth [b; i; h; w] < 1 / at_ depth [b; j; h; w].
Proof.
  intros Hmin Hlt. eexists. split; [apply cold_forward_eq|].
  split; [reflexivity|].
  intros b i h w Hi. cbn [at_].
  destruct (cold_step_pos depth_min depth_max Hmin Hlt) as (Ha & Hd & Hsum).
  pose proof (inject_nat_range i 48 Hi) as Hnat.
  change (inject_Z (Z.of_nat 48) - 1) with 47 in Hnat.
  split; [|split].
  - rewrite view_arange_index, cold_sample_inv, cold_inv_depth_eq. reflexivity.
  - rewrite view_arange_index.
    pose proof (cold_sample_inv depth_min depth_max 0 i) as Hs.
    set (t := (1 / depth_min - 1 / depth_max) / inject_Z 48
              * (0 + inject_Z (0 + Z.of_nat i)) + 1 / depth_max) in *.
    unfold Qdiv in Hs at 1 2. rewrite !Qmult_1_l, Qinv_involutive in Hs.
    destruct (Qinv_range (/ depth_max) (/ depth_min) t) as [H1 H2]; [lra| | |].
    + rewrite Hs. nra.
    + rewrite Hs. nra.
    + rewrite !Qinv_involutive in *. unfold Qdiv. rewrite !Qmult_1_l. lra.
  - intros j [Hij Hj]. rewrite !view_arange_index, !cold_sample_inv.
    assert (inject_Z (Z.of_nat i) < inject_Z (Z.of_nat j)) by (rewrite <- Zlt_Qlt; lia).
    nra.
Qed.

Lemma cold_start_hypotheses_witness :
  exists depth,
    InitDepthImpl.forward (InitDepthImpl.mk 8 (1 # 10)) (fun _ => 0) None 1 2
      1 1 1 = Some depth
    /\ sizes depth = [1; 48; 1; 1]%nat
    /\ forall b i h w, (i < 48)%nat ->
         1 / at_ depth [b; i; h; w] == cold_inv_depth 1 2 i
         /\ 1 < at_ depth [b; i; h; w] <= 2
         /\ forall j, (i < j < 48)%nat ->
              1 / at_ depth [b; i; h; w] < 1 / at_ depth [b; j; h; w].
Proof.
  apply (cold_start_hypotheses (InitDepthImpl.mk 8 (1 # 10)) 1 2 1 1 1);
    reflexivity.
Defined.

(** C3 as stated fails: before noise the first hypothesis is [depth_max]
    itself, so the hypotheses are not all strictly inside
    (depth_min, depth_max). *)
Lemma cold_start_first_hypothesis_is_depth_max :
  ~ (forall (self : InitDepthImpl.t) (depth_min depth_max : Q)
            (batch_size height width : nat) (depth : Tensor Q),
       0 < depth_min -> depth_min < depth_max ->
       InitDepthImpl.forward self (fun _ => 0) None depth_min depth_max
         batch_size height width = Some depth ->
       forall b i h w,
         (b < batch_size)%nat -> (i < 48)%nat -> (h < height)%nat -> (w < width)%nat ->
         depth_min < at_ depth [b; i; h; w] /\ at_ depth [b; i; h; w] < depth_max).
Proof.
  intros Hclaim.
  destruct (Hclaim (InitDepthImpl.mk 8 (1 # 10)) 1 2 1%nat 1%nat 1%nat _
              eq_refl eq_refl (cold_forward_eq _ _ _ _ _ _ _)
              0%nat 0%nat 0%nat 0%nat) as [_ Hlt]; try lia.
  vm_compute in Hlt. discriminate.
Qed.

End ColdStart.

(** ** Neighbor offset tables *)

Section Offsets.
Import PatchMatchModuleImpl.
Local Open Scope Z_scope.

Lemma push_doubled_eval_is_Some (todo : list nat) (prop eval : list offset) :
  is_Some (push_doubled_eval todo prop eval)
  <-> Forall (fun i => (i < length prop)%nat) todo.
Proof.
  revert eval. induction todo as [|i todo IH]; intros eval; simpl.
  - split; [constructor | eauto].
  - rewrite Forall_cons. destruct (prop !! i) as [o|] eqn:Ho; simpl.
    + apply lookup_lt_Some in Ho as Hi.
      destruct ((o.1 =? 0) && (o.2 =? 0)); rewrite IH; tauto.
    + apply lookup_ge_None in Ho.
      split; [intros [? ?]; discriminate | intros [? _]; exfalso; unfold offset in *; lia].
Qed.

Lemma push_doubled_prop_ring8 (dilation : Z) :
  exists l, push_doubled_prop (seq 0 8) (ring8 dilation) = Some l
            /\ length l = 16%nat.
Proof. eexists. split; reflexivity. Qed.

Lemma CalcOffsets_4_17 (dilation : Z) : CalcOffsets 4 17 dilation = None.
Proof.
  unfold CalcOffsets. cbn [Z.eqb Pos.eqb mbind option_bind].
  destruct (push_doubled_eval _ _ _) eqn:E; [|done].
  assert (Hs : is_Some (push_doubled_eval (seq 0 8)
                [(- dilation, 0); (0, - dilation); (0, dilation); (dilation, 0)]
                (square9 (dilation - 1)))) by (rewrite E; eauto).
  apply push_doubled_eval_is_Some in Hs.
  apply Forall_forall with (x := 4%nat) in Hs; [simpl in Hs; lia|].
  apply elem_of_seq. lia.
Qed.

Lemma CalcOffsets_ring8_17 (dilation : Z) (prop : list offset) :
  (8 <= length prop)%nat ->
  is_Some (eval ← push_doubled_eval (seq 0 8) prop (square9 (dilation - 1));
           Some (prop, eval)).
Proof.
  intros Hlen.
  destruct (proj2 (push_doubled_eval_is_Some (seq 0 8) prop (square9 (dilation - 1))))
    as [eval ->]; [|simpl; eauto].
  apply Forall_forall. intros i Hi%elem_of_seq. lia.
Qed.

(** C9: with 17 evaluation neighbors, [CalcOffsets] stays within the
    bounds of [prop_offset_orig] exactly when the number of propagation
    neighbors is 8 or 16; with 0 or 4 propagation neighbors (tables of 0
    and 4 entries) it reads the table out of bounds. *)
Theorem CalcOffsets_17_needs_8_or_16 (propagation_neighbors dilation : Z) :
  (is_Some (CalcOffsets propagation_neighbors 17 dilation)
   <-> propagation_neighbors = 8 \/ propagation_neighbors = 16)
  /\ CalcOffsets 0 17 dilation = None
  /\ CalcOffsets 4 17 dilation = None.
Proof.
  split; [|split; [reflexivity | apply CalcOffsets_4_17]].
  destruct (Z.eq_dec propagation_neighbors 0) as [->|N0].
  { split; [intros [? ?]; discriminate | lia]. }
  destruct (Z.eq_dec propagation_neighbors 4) as [->|N4].
  { rewrite CalcOffsets_4_17. split; [intros [? ?]; discriminate | lia]. }
  destruct (Z.eq_dec propagation_neighbors 8) as [->|N8].
  { split; [auto|intros _]. apply (CalcOffsets_ring8_17 dilation (ring8 dilation)).
    simpl. lia. }
  destruct (Z.eq_dec propagation_neighbors 16) as [->|N16].
  { split; [auto|intros _].
    destruct (push_doubled_prop_ring8 dilation) as (l & Hl & Hlen).
    unfold CalcOffsets. cbn [Z.eqb Pos.eqb]. rewrite Hl. cbn [mbind option_bind].
    apply CalcOffsets_ring8_17. lia. }
  unfold CalcOffsets.
  apply Z.eqb_neq in N0, N4, N8, N16. rewrite N0, N4, N8, N16.
  split; [intros [? ?]; discriminate | lia].
Qed.

End Offsets.

(** ** Loading parameters *)

Section Load.
Import Serialize.
Context {T Archive : Type}.
Variable try_read : Archive -> string -> bool -> option T.
Variable copy_ : T -> T -> T.

Lemma entry_loaded_mono archive pd b out out' p p' :
  out ⊆ out' -> entry_loaded try_read copy_ archive pd b out p p' -> entry_loaded try_read copy_ archive pd b out' p p'.
Proof.
  intros Hsub [Hk Hv]. split; [done|].
  destruct (pd !! p.1 ≫= _); [done|].
  destruct (try_read archive p.1 b); [done|].
  destruct Hv. split; [done|]. by apply Hsub.
Qed.

Lemma read_value_loaded archive pd b p :
  let r := read_value try_read copy_ archive pd b p in
  entry_loaded try_read copy_ archive pd b r.2 p r.1
  /\ Forall (is_warning_of try_read archive pd b [p]) r.2.
Proof.
  unfold read_value, entry_loaded, is_warning_of.
  destruct (pd !! p.1) as [alt|] eqn:Hpd; simpl.
  - destruct (try_read archive alt b) as [v|] eqn:Halt; simpl; [by repeat split|].
    destruct (try_read archive p.1 b) as [v|] eqn:Hkey; simpl; [by repeat split|].
    repeat split; [set_solver|].
    constructor; [|done]. exists p. rewrite Hpd. simpl. repeat split; [set_solver|done..].
  - destruct (try_read archive p.1 b) as [v|] eqn:Hkey; simpl; [by repeat split|].
    repeat split; [set_solver|].
    constructor; [|done]. exists p. rewrite Hpd. simpl. repeat split; [set_solver|done..].
Qed.

Lemma ReadValues_loaded archive dict pd b :
  let r := ReadValues try_read copy_ archive dict pd b in
  Forall2 (entry_loaded try_read copy_ archive pd b r.2) dict r.1
  /\ Forall (is_warning_of try_read archive pd b dict) r.2.
Proof.
  induction dict as [|p dict IH]; simpl; [by split; constructor|].
  pose proof (read_value_loaded archive pd b p) as [Hp Hw]. simpl in Hp, Hw.
  destruct (read_value try_read copy_ archive pd b p) as [p' out].
  destruct (ReadValues try_read copy_ archive dict pd b) as [rest out'].
  simpl in *. destruct IH as [IH1 IH2]. split.
  - constructor.
    + eapply entry_loaded_mono; [|exact Hp]. set_solver.
    + eapply Forall2_impl; [exact IH1|].
      intros; eapply entry_loaded_mono; [|eassumption]. set_solver.
  - apply Forall_app. split.
    + eapply Forall_impl; [exact Hw|].
      intros line (q & Hq & ?). exists q. split; [|done].
      apply list_elem_of_singleton in Hq as ->. apply list_elem_of_here.
    + eapply Forall_impl; [exact IH2|].
      intros line (q & Hq & ?). exists q. split; [|done].
      by apply list_elem_of_further.
Qed.

(** C7: [load] always returns. In the module it returns, every parameter
    and every buffer holds the value read under its alternate name when the
    table has that key and the read succeeds, otherwise the value read
    under its own name; when neither read succeeds it keeps its value and a
    warning is printed. Nothing else is printed. *)
Theorem load_resolves_names (self : Module_) (archive : Archive) :
  let r := load try_read copy_ self archive in
  Forall2 (entry_loaded try_read copy_ archive (param_dict self) false r.2)
    (named_parameters self) (named_parameters r.1)
  /\ Forall2 (entry_loaded try_read copy_ archive (param_dict self) true r.2)
       (named_buffers self) (named_buffers r.1)
  /\ Forall (fun line =>
               is_warning_of try_read archive (param_dict self) false (named_parameters self) line
               \/ is_warning_of try_read archive (param_dict self) true (named_buffers self) line)
       r.2.
Proof.
  unfold load.
  pose proof (ReadValues_loaded archive (named_parameters self) (param_dict self) false)
    as [Hp Hpw].
  pose proof (ReadValues_loaded archive (named_buffers self) (param_dict self) true)
    as [Hb Hbw].
  destruct (ReadValues try_read copy_ archive (named_parameters self) _ false) as [ps out1].
  destruct (ReadValues try_read copy_ archive (named_buffers self) _ true) as [bs out2].
  simpl in *. split; [|split].
  - eapply Forall2_impl; [exact Hp|].
    intros; eapply entry_loaded_mono; [|eassumption]. set_solver.
  - eapply Forall2_impl; [exact Hb|].
    intros; eapply entry_loaded_mono; [|eassumption]. set_solver.
  - apply Forall_app. split; (eapply Forall_impl; [eassumption|]); simpl; auto.
Qed.

End Load.

(** ** The probability volume *)

Section Softmax.
Import torch.
Local Open Scope R_scope.

Lemma Rsum_exp_pos (l : list R) :
  l <> [] -> 0 < real.Rsum (Rtrigo_def.exp <$> l).
Proof.
  destruct l as [|x l]; [done|intros _]. unfold real.Rsum.
  rewrite fmap_cons. cbn [foldr].
  assert (0 <= foldr Rplus 0 (Rtrigo_def.exp <$> l)).
  { induction l as [|y l IH]; [simpl; lra|].
    rewrite fmap_cons. cbn [foldr]. pose proof (exp_pos y). lra. }
  pose proof (exp_pos x). lra.
Qed.

Lemma Rsum_softmax (s : R) (l : list R) :
  0 < s ->
  real.Rsum ((fun x => Rtrigo_def.exp (x - ln s)) <$> l)
  = real.Rsum (Rtrigo_def.exp <$> l) / s.
Proof.
  intros Hs. unfold real.Rsum. induction l as [|x l IH].
  - simpl. lra.
  - rewrite !fmap_cons. cbn [foldr]. rewrite IH. unfold Rminus. rewrite exp_plus, exp_Ropp, exp_ln by done.
    field. lra.
Qed.

Lemma fiber_insert {A} (t : Tensor A) (d j : nat) (ix : index) :
  fiber t d (<[d:=j]> ix) = fiber t d ix.
Proof.
  unfold fiber. apply list_fmap_ext. intros _ k _. simpl.
  by rewrite list_insert_insert_eq.
Qed.

(** The softmax of a cost volume along dimension [d]: every entry is
    positive and the entries along [d] sum to one. *)
Lemma exp_log_softmax_distribution (cost ls : Tensor R) (d : nat) :
  real.log_softmax cost d = Some ls ->
  forall ix,
    0 < at_ (real.exp ls) ix
    /\ (fiber (real.exp ls) d ix <> [] -> real.Rsum (fiber (real.exp ls) d ix) = 1).
Proof.
  unfold real.log_softmax. destruct (d <? dim cost)%nat; [|done].
  intros [= <-] ix. split; [apply exp_pos|].
  set (s := real.Rsum (Rtrigo_def.exp <$> fiber cost d ix)).
  assert (Heq : fiber (real.exp (mkTensor (sizes cost) (fun ix0 =>
                   at_ cost ix0 - ln (real.Rsum (Rtrigo_def.exp <$> fiber cost d ix0))))) d ix
                = (fun x => Rtrigo_def.exp (x - ln s)) <$> fiber cost d ix).
  { unfold fiber at 1 3. cbn [real.exp map sizes at_].
    rewrite <- list_fmap_compose. apply list_fmap_ext. intros _ j _. simpl.
    by rewrite fiber_insert. }
  rewrite Heq. intros Hne.
  assert (Hfib : fiber cost d ix <> []).
  { intros E. apply Hne. by rewrite E. }
  pose proof (Rsum_exp_pos _ Hfib) as Hpos.
  rewrite Rsum_softmax by done. fold s. field. unfold s. lra.
Qed.

End Softmax.

(** ** Propagation *)

Lemma div_mod_add (q m r : nat) : r < m -> (q * m + r) / m = q /\ (q * m + r) mod m = r.
Proof.
  intros Hr. split.
  - rewrite Nat.div_add_l by lia. rewrite Nat.div_small by done. lia.
  - rewrite Nat.add_comm, Nat.Div0.mod_add. by apply Nat.mod_small.
Qed.

Lemma view_neighbors_index (B k H W b j h w : nat) :
  b < B -> j < k -> h < H -> w < W ->
  unravel [B; 1; k * H; W] (ravel [B; k; H; W] [b; j; h; w]) = [b; 0; j * H + h; w].
Proof.
  intros Hb Hj Hh Hw.
  assert (Hjh : j * H + h < k * H) by nia.
  unfold ravel. cbn [zip zip_with foldl fst snd unravel numel foldr].
  replace (1 * (k * H * (W * 1))) with (k * H * W) by lia.
  replace (k * H * (W * 1)) with (k * H * W) by lia.
  replace (W * 1) with W by lia.
  replace ((((0 * B + b) * k + j) * H + h) * W + w)
    with (b * (k * H * W) + ((j * H + h) * W + w)) by lia.
  assert (Hr : (j * H + h) * W + w < k * H * W) by nia.
  destruct (div_mod_add b (k * H * W) ((j * H + h) * W + w) Hr) as [-> ->].
  rewrite (Nat.div_small _ _ Hr), (Nat.mod_small _ _ Hr).
  destruct (div_mod_add (j * H + h) W w Hw) as [-> ->].
  by rewrite Nat.div_1_r.
Qed.

Lemma fmap_lookup_seq {A} (x : A) (l : list A) :
  (fun j => default x (l !! j)) <$> seq 0 (length l) = l.
Proof.
  apply list_eq. intros i. rewrite list_lookup_fmap.
  destruct (decide (i < length l)) as [Hi|Hi].
  - rewrite lookup_seq_lt by done. simpl.
    destruct (lookup_lt_is_Some_2 l i Hi) as [y ->]. done.
  - rewrite lookup_seq_ge by lia. simpl. symmetry. apply lookup_ge_None. lia.
Qed.

#[local] Instance Qle_total : Total Qle.
Proof. intros x y. destruct (Qlt_le_dec x y); [left; by apply Qlt_le_weak | by right]. Qed.

#[local] Instance Qle_trans' : Transitive Qle.
Proof. intros x y z. apply Qle_trans. Qed.

Section Propagation.
Import torch.
Local Open Scope Q_scope.

Lemma forward_sorts (depth grid : Tensor Q) (B d H W k : nat) (dmin dmax : Q) :
  sizes depth = [B; d; H; W] -> sizes grid = [B; (k * H)%nat; W; 2%nat] ->
  (0 < d)%nat -> (0 < H)%nat -> (0 < W)%nat ->
  exists all,
    PropagationImpl.forward depth grid dmin dmax = sort_values all 1
    /\ sizes all = [B; (d + k)%nat; H; W]
    /\ forall b h w i, (b < B)%nat -> (h < H)%nat -> (w < W)%nat ->
         fiber all 1 [b; i; h; w]
         = fiber depth 1 [b; i; h; w] ++ ((fun j => propagated depth grid b j h w) <$> seq 0 k).
Proof.
  destruct depth as [sd fd], grid as [sg fg]. cbn [sizes]. intros -> -> Hd HH HW.
  unfold PropagationImpl.forward, propagated.
  cbn [size sizes lookup list_lookup mbind option_bind default].
  rewrite (proj2 (Nat.eqb_neq H 0)) by lia.
  rewrite Nat.div_mul by lia.
  unfold select. cbn [sizes lookup list_lookup mbind option_bind].
  rewrite (proj2 (Nat.ltb_lt (d / 2) d)) by (apply Nat.div_lt; lia).
  cbn [mbind option_bind]. unfold unsqueeze.
  cbn [dim sizes length Nat.leb mbind option_bind delete list_delete insert_at take drop app].
  unfold grid_sample. cbn [sizes].
  rewrite Nat.eqb_refl, (proj2 (Nat.ltb_lt 0 H)), (proj2 (Nat.ltb_lt 0 W)) by lia.
  cbn [andb Nat.eqb mbind option_bind].
  unfold view. cbn [sizes].
  rewrite (proj2 (Nat.eqb_eq (numel [B; 1%nat; (k * H)%nat; W]) (numel [B; k; H; W])))
    by (cbn [numel foldr]; lia).
  cbn [mbind option_bind]. unfold cat.
  cbn [forallb sizes delete list_delete dim length Nat.ltb Nat.leb].
  rewrite !bool_decide_eq_true_2 by done.
  cbn [andb mbind option_bind fmap list_fmap lookup list_lookup default sum_list
       sum_list_with insert list_insert].
  unfold Datatypes.id. eexists. split; [reflexivity|]. cbn [sizes]. split.
  { by rewrite Nat.add_0_r. }
  intros b h w i Hb Hh Hw. unfold fiber.
  cbn [sizes lookup list_lookup default at_ insert list_insert].
  unfold Datatypes.id. rewrite Nat.add_0_r, seq_app, fmap_app. f_equal.
  - apply list_fmap_ext. intros i' j Hj%lookup_seq. destruct Hj as [-> Hj].
    cbn [cat_at sizes lookup list_lookup default Nat.add]. unfold Datatypes.id.
    by rewrite (proj2 (Nat.ltb_lt _ _) Hj).
  - replace (seq (0 + d) k) with (Nat.add d <$> seq 0 k)
      by (rewrite fmap_add_seq; f_equal; lia).
    rewrite <- list_fmap_compose.
    apply list_fmap_ext. intros i' j Hj%lookup_seq. destruct Hj as [-> Hj].
    cbn [compose cat_at sizes lookup list_lookup default Nat.add]. unfold Datatypes.id.
    rewrite (proj2 (Nat.ltb_ge _ _)) by lia.
    rewrite (proj2 (Nat.ltb_lt (d + i' - d) k)) by lia.
    cbn [at_ insert list_insert]. replace (d + i' - d)%nat with i' by lia.
    rewrite view_neighbors_index by done.
    reflexivity.
Qed.

Lemma StronglySorted_lookup_le (l : list Q) (i j : nat) (x y : Q) :
  StronglySorted Qle l -> (i <= j)%nat -> l !! i = Some x -> l !! j = Some y -> x <= y.
Proof.
  intros Hs. revert i j. induction Hs as [|z l Hs IH Hz]; intros i j Hij Hi Hj; [done|].
  destruct i as [|i], j as [|j]; simpl in *; try lia.
  - injection Hi as ->. injection Hj as ->. apply Qle_refl.
  - injection Hi as ->. rewrite Forall_forall in Hz. apply Hz.
    by eapply list_elem_of_lookup_2.
  - eapply IH; [|done..]. lia.
Qed.

Lemma sort_values_fiber (all : Tensor Q) (B n H W : nat) :
  sizes all = [B; n; H; W] ->
  exists out, sort_values all 1 = Some out
    /\ sizes out = [B; n; H; W]
    /\ forall b i h w,
         fiber out 1 [b; i; h; w] = merge_sort Qle (fiber all 1 [b; i; h; w]).
Proof.
  intros Hs. unfold sort_values, dim. rewrite Hs. cbn [length Nat.ltb Nat.leb].
  eexists. split; [reflexivity|]. split; [done|]. intros b i h w.
  unfold fiber at 1. cbn [sizes at_].
  cbn [lookup list_lookup default insert list_insert]. unfold Datatypes.id.
  erewrite list_fmap_ext with (g := fun j =>
    default 0 (merge_sort Qle (fiber all 1 [b; i; h; w]) !! j)).
  2:{ intros _ j _. simpl.
      change [b; j; h; w] with (<[1%nat:=j]> [b; i; h; w]) at 1.
      by rewrite fiber_insert. }
  assert (Hlen : length (merge_sort Qle (fiber all 1 [b; i; h; w])) = n).
  { rewrite (Permutation_length (merge_sort_Permutation Qle _)).
    unfold fiber. rewrite length_fmap, length_seq, Hs. done. }
  rewrite <- Hlen at 1. apply fmap_lookup_seq.
Qed.

(** C5: on a volume of [d] hypotheses per pixel and a grid encoding [k]
    neighbors, [forward] returns a volume of exactly [d + k] hypotheses per
    pixel; at every pixel they are the [d] given hypotheses together with
    the middle hypothesis (index [d / 2]) sampled with border padding at
    each of the [k] neighbor positions, in non-decreasing order. *)
Theorem propagation_adds_sorted_neighbors (depth grid : Tensor Q)
    (B d H W k : nat) (depth_min depth_max : Q) :
  sizes depth = [B; d; H; W] -> sizes grid = [B; (k * H)%nat; W; 2%nat] ->
  (0 < d)%nat -> (0 < H)%nat -> (0 < W)%nat ->
  exists out,
    PropagationImpl.forward depth grid depth_min depth_max = Some out
    /\ sizes out = [B; (d + k)%nat; H; W]
    /\ forall b h w, (b < B)%nat -> (h < H)%nat -> (w < W)%nat ->
         Sorted Qle (fiber out 1 [b; 0%nat; h; w])
         /\ fiber out 1 [b; 0%nat; h; w]
            ≡ₚ fiber depth 1 [b; 0%nat; h; w]
               ++ ((fun j => propagated depth grid b j h w) <$> seq 0 k).
Proof.
  intros Hsd Hsg Hd HH HW.
  destruct (forward_sorts depth grid B d H W k depth_min depth_max Hsd Hsg Hd HH HW)
    as (all & -> & Hsa & Hall).
  destruct (sort_values_fiber all B (d + k) H W Hsa) as (out & -> & Hso & Hout).
  exists out. split; [done|]. split; [done|].
  intros b h w Hb Hh Hw. rewrite Hout. split.
  - apply Sorted_merge_sort. apply _.
  - rewrite merge_sort_Permutation. by rewrite Hall.
Qed.

(** C6, as amended: the hypotheses [forward] returns are non-decreasing
    along the sample axis at every pixel. *)
Theorem propagation_output_non_decreasing (depth grid : Tensor Q)
    (B d H W k : nat) (depth_min depth_max : Q) :
  sizes depth = [B; d; H; W] -> sizes grid = [B; (k * H)%nat; W; 2%nat] ->
  (0 < d)%nat -> (0 < H)%nat -> (0 < W)%nat ->
  exists out,
    PropagationImpl.forward depth grid depth_min depth_max = Some out
    /\ forall b h w i j, (i <= j)%nat -> (j < d + k)%nat ->
         at_ out [b; i; h; w] <= at_ out [b; j; h; w].
Proof.
  intros Hsd Hsg Hd HH HW.
  destruct (forward_sorts depth grid B d H W k depth_min depth_max Hsd Hsg Hd HH HW)
    as (all & -> & Hsa & _).
  destruct (sort_values_fiber all B (d + k) H W Hsa) as (out & -> & Hso & Hout).
  exists out. split; [done|]. intros b h w i j Hij Hj.
  assert (Hat : forall n, (n < d + k)%nat ->
            fiber out 1 [b; 0%nat; h; w] !! n = Some (at_ out [b; n; h; w])).
  { intros n Hn. unfold fiber. rewrite Hso. cbn [lookup list_lookup default].
    unfold Datatypes.id. rewrite list_lookup_fmap, lookup_seq_lt by done. done. }
  eapply (StronglySorted_lookup_le (fiber out 1 [b; 0%nat; h; w]) i j);
    [|done|apply Hat; lia|by apply Hat].
  rewrite Hout. apply StronglySorted_merge_sort; apply _.
Qed.

Lemma propagation_adds_sorted_neighbors_witness :
  exists out,
    PropagationImpl.forward two_hypotheses one_neighbor 1 3 = Some out
    /\ sizes out = [1; 3; 1; 1]%nat
    /\ forall b h w, (b < 1)%nat -> (h < 1)%nat -> (w < 1)%nat ->
         Sorted Qle (fiber out 1 [b; 0%nat; h; w])
         /\ fiber out 1 [b; 0%nat; h; w]
            ≡ₚ fiber two_hypotheses 1 [b; 0%nat; h; w]
               ++ ((fun j => propagated two_hypotheses one_neighbor b j h w) <$> seq 0 1).
Proof.
  apply (propagation_adds_sorted_neighbors two_hypotheses one_neighbor 1 2 1 1 1 1 3);
    [reflexivity | reflexivity | lia | lia | lia].
Defined.

Lemma propagation_output_non_decreasing_witness :
  exists out,
    PropagationImpl.forward two_hypotheses one_neighbor 1 3 = Some out
    /\ forall b h w i j, (i <= j)%nat -> (j < 2 + 1)%nat ->
         at_ out [b; i; h; w] <= at_ out [b; j; h; w].
Proof.
  apply (propagation_output_non_decreasing two_hypotheses one_neighbor 1 2 1 1 1 1 3);
    [reflexivity | reflexivity | lia | lia | lia].
Defined.

(** C6 as stated fails: the propagated candidate of a pixel can equal one
    of its own hypotheses, and sorting keeps both. *)
Lemma propagation_output_repeats :
  ~ (forall (depth grid : Tensor Q) (depth_min depth_max : Q) (out : Tensor Q),
       PropagationImpl.forward depth grid depth_min depth_max = Some out ->
       forall b h w i j, (i < j)%nat -> (j < default 0%nat (sizes out !! 1%nat))%nat ->
         at_ out [b; i; h; w] < at_ out [b; j; h; w]).
Proof.
  intros Hclaim.
  destruct (PropagationImpl.forward two_hypotheses one_neighbor 1 3) as [out|] eqn:E;
    [|vm_compute in E; discriminate].
  specialize (Hclaim _ _ _ _ out E 0%nat 0%nat 0%nat 0%nat 1%nat).
  vm_compute in E. injection E as <-.
  vm_compute in Hclaim. 
  assert (Hc : Eq = Lt) by (apply Hclaim; lia). discriminate.
Qed.

End Propagation.

(** ** Evaluation and the pipeline *)

Section Results.
Import Pipeline.

Lemma bind_ok {A B} (m : Result A) (k : A -> Result B) (b : B) :
  bind m k = ok b -> exists a, m = ok a /\ k a = ok b.
Proof. destruct m as [e|a]; [done|]. simpl. eauto. Qed.

Lemma call_ok {A} (o : option A) (a : A) : call o = ok a -> o = Some a.
Proof. destruct o; [|done]. by intros [= ->]. Qed.

Lemma holder_safe_ok {A} (a : A) : holder_safe (ok a).
Proof. done. Qed.

Lemma holder_safe_call {A} (o : option A) : holder_safe (call o).
Proof. by destruct o. Qed.

Lemma holder_safe_defined {A} (o : option A) : holder_safe (defined o).
Proof. by destruct o. Qed.

Lemma holder_safe_nth {A} (v : list A) (i : nat) : holder_safe (nth_ v i).
Proof. unfold nth_. by destruct (v !! i). Qed.

Lemma holder_safe_bind {A B} (m : Result A) (k : A -> Result B) :
  holder_safe m -> (forall a, m = ok a -> holder_safe (k a)) -> holder_safe (bind m k).
Proof.
  intros Hm Hk. destruct m as [e|a]; simpl.
  - intros [= ->]. by apply Hm.
  - by apply Hk.
Qed.

End Results.

Ltac holder_leaf :=
  first [ apply holder_safe_ok | apply holder_safe_call | apply holder_safe_defined
        | apply holder_safe_nth ].

(** Steps over a bind whose first computation is a leaf. *)
Ltac holder_step :=
  first [ holder_leaf | apply holder_safe_bind; [solve [holder_leaf] | intros ? ?] ].

Ltac holder_auto :=
  repeat first [ holder_leaf | apply holder_safe_bind; [|intros ? ?] ].

Ltac bind_inv H :=
  let a := fresh "a" in
  let E := fresh "E" in
  apply bind_ok in H; destruct H as (a & E & H).

Section Evaluation.
Import Pipeline.
Context {T : Type} `{Ops T}.

Lemma views_loop_safe (self : EvaluationImpl) ref_feature ref_proj_mtx depth
    src_proj_mtx view_weights shape i src_features acc :
  is_Some view_weights \/ is_Some (pixelwise_net self) ->
  holder_safe (views_loop self ref_feature ref_proj_mtx depth src_proj_mtx
                 view_weights shape i src_features acc).
Proof.
  intros Hw. revert i acc.
  induction src_features as [|src rest IH]; intros i [[weights ss] ws]; simpl.
  - holder_step.
  - do 5 holder_step.
    apply holder_safe_bind.
    { destruct view_weights as [vw|].
      - repeat holder_step.
      - destruct Hw as [[? ?]|[net Hnet]]; [done|]. rewrite Hnet. holder_step. }
    intros ? ?. do 5 holder_step. apply IH.
Qed.

Lemma Evaluation_forward_safe (self : EvaluationImpl) ref_feature_in src_features
    ref_proj_mtx src_proj_mtx depth_init grid weight view_weights is_inverse :
  is_Some view_weights \/ is_Some (pixelwise_net self) ->
  holder_safe (Evaluation_forward self ref_feature_in src_features ref_proj_mtx
                 src_proj_mtx depth_init grid weight view_weights is_inverse).
Proof.
  intros Hw. unfold Evaluation_forward.
  do 6 holder_step.
  apply holder_safe_bind; [by apply views_loop_safe|].
  intros [[weights ss] ws] _.
  do 3 holder_step.
  apply holder_safe_bind.
  { destruct is_inverse; repeat holder_step. }
  intros ? ?. apply holder_safe_bind.
  { destruct view_weights; repeat holder_step. }
  intros ? ?. holder_step.
Qed.

(** With no view weights, no pixelwise net and at least one source view the
    loop never completes. *)
Lemma views_loop_null (self : EvaluationImpl) ref_feature ref_proj_mtx depth
    src_proj_mtx shape i src rest acc r :
  pixelwise_net self = None ->
  views_loop self ref_feature ref_proj_mtx depth src_proj_mtx None shape i
    (src :: rest) acc <> ok r.
Proof.
  intros Hnet Hok. destruct acc as [[weights ss] ws]. simpl in Hok.
  do 5 bind_inv Hok. rewrite Hnet in Hok. done.
Qed.

Lemma views_loop_null_throws (self : EvaluationImpl) ref_feature ref_proj_mtx depth
    src_proj_mtx shape i src rest acc src_proj warped warped_feature prod similarity :
  pixelwise_net self = None ->
  src_proj_mtx !! i = Some src_proj ->
  DifferentiableWarping src src_proj ref_proj_mtx depth = Some warped ->
  view warped shape = Some warped_feature ->
  mul warped_feature ref_feature = Some prod ->
  mean prod 2 = Some similarity ->
  views_loop self ref_feature ref_proj_mtx depth src_proj_mtx None shape i
    (src :: rest) acc = throw EmptyModuleHolder.
Proof.
  intros Hnet Hp Hw Hv Hm Hmean. destruct acc as [[weights ss] ws]. simpl.
  unfold nth_. rewrite Hp. simpl. rewrite Hw. simpl. rewrite Hv. simpl.
  rewrite Hm. simpl. rewrite Hmean. simpl. by rewrite Hnet.
Qed.

End Evaluation.

Section StageLoop.
Import Pipeline.
Context {T : Type} `{Ops T}.

Lemma iterations_loop_safe (self : PatchMatchModuleImpl) ref_feature src_features
    ref_proj_mtx src_proj_mtx depth_min depth_max batch_size height width
    propagation_grid evaluation_grid feature_weight iters st :
  is_Some st.2 \/ is_Some (pixelwise_net (evaluation self)) ->
  holder_safe (iterations_loop self ref_feature src_features ref_proj_mtx src_proj_mtx
                 depth_min depth_max batch_size height width
                 propagation_grid evaluation_grid feature_weight iters st).
Proof.
  revert st. induction iters as [|iter rest IH]; intros [[depth score] vw] Hw; simpl.
  - holder_step.
  - holder_step. apply holder_safe_bind.
    { destruct (_ && _); repeat holder_step. }
    intros ? ?. do 5 holder_step.
    apply holder_safe_bind; [by apply Evaluation_forward_safe|].
    intros [[d s] w] _. apply IH. left. simpl. eauto.
Qed.

Lemma iterations_loop_ok (self : PatchMatchModuleImpl) ref_feature src_features
    ref_proj_mtx src_proj_mtx depth_min depth_max batch_size height width
    propagation_grid evaluation_grid feature_weight iters st st' :
  iterations_loop self ref_feature src_features ref_proj_mtx src_proj_mtx
    depth_min depth_max batch_size height width
    propagation_grid evaluation_grid feature_weight iters st = ok st' ->
  st' = st \/ (is_Some st'.1.1 /\ is_Some st'.2).
Proof.
  revert st. induction iters as [|iter rest IH]; intros [[depth score] vw]; simpl.
  - intros [= <-]. by left.
  - intros Hok. do 8 bind_inv Hok. destruct a6 as [[d s] w].
    apply IH in Hok as [-> | ?]; right; simpl; eauto.
Qed.

Lemma PatchMatchModule_forward_safe (self : PatchMatchModuleImpl) ref_feature
    src_features ref_proj_mtx src_proj_mtx depth_min depth_max
    depth_init view_weights_init :
  is_Some view_weights_init \/ is_Some (pixelwise_net (evaluation self)) ->
  holder_safe (PatchMatchModule_forward self ref_feature src_features ref_proj_mtx
                 src_proj_mtx depth_min depth_max depth_init view_weights_init).
Proof.
  intros Hw. unfold PatchMatchModule_forward.
  do 3 holder_step. apply holder_safe_bind.
  { destruct (propagation_conv self); repeat holder_step. }
  intros ? ?. do 4 holder_step.
  apply holder_safe_bind; [by apply iterations_loop_safe|].
  intros [[d s] w] _. repeat holder_step.
Qed.

(** A stage that returns has defined view weights, unless it was entered
    with a defined depth and undefined view weights. *)
Lemma PatchMatchModule_forward_ok (self : PatchMatchModuleImpl) ref_feature
    src_features ref_proj_mtx src_proj_mtx depth_min depth_max
    depth_init view_weights_init depth score view_weights :
  PatchMatchModule_forward self ref_feature src_features ref_proj_mtx
    src_proj_mtx depth_min depth_max depth_init view_weights_init
  = ok (depth, score, view_weights) ->
  is_Some view_weights_init \/ depth_init = None ->
  is_Some view_weights.
Proof.
  unfold PatchMatchModule_forward. intros Hok Hinit.
  do 9 bind_inv Hok. destruct a7 as [[d s] w].
  do 2 bind_inv Hok. injection Hok as <- <- <-.
  apply iterations_loop_ok in E7 as [[= -> -> ->] | [_ Hw]]; [|done].
  destruct Hinit as [?| ->]; done.
Qed.

Lemma stages_loop_safe (self : PatchMatchNetModuleImpl) ref_features src_features
    proj_matrices depth_min depth_max stages st :
  is_Some st.2 ->
  holder_safe (stages_loop self ref_features src_features proj_matrices
                 depth_min depth_max stages st).
Proof.
  revert st. induction stages as [|stage rest IH]; intros [[depth score] vw] Hw; simpl.
  - holder_step.
  - do 8 holder_step.
    apply holder_safe_bind; [apply PatchMatchModule_forward_safe; by left|].
    intros [[d s] w] Hok.
    apply PatchMatchModule_forward_ok in Hok as [w' ->]; [|by left].
    destruct (1 <? stage)%nat.
    + apply holder_safe_bind; [repeat holder_step|].
      intros st Hst. do 3 bind_inv Hst. injection Hst as <-.
      apply IH. simpl. eauto.
    + simpl. apply IH. simpl. eauto.
Qed.

Lemma source_features_safe (self : PatchMatchNetModuleImpl) images im_idxs src_features :
  holder_safe (source_features self images im_idxs src_features).
Proof.
  revert src_features. induction im_idxs as [|i rest IH]; intros sf; simpl.
  - holder_step.
  - do 2 holder_step. apply holder_safe_bind; [|intros; apply IH].
    holder_auto.
Qed.

Lemma make_stages_lookup interval_scale propagation_range iterations num_samples
    propagation_neighbors evaluation_neighbors num_features group_correlations
    todo stages k i :
  make_stages interval_scale propagation_range iterations num_samples
    propagation_neighbors evaluation_neighbors num_features group_correlations todo
  = ok stages ->
  todo !! k = Some i ->
  exists m gc, stages !! k = Some m
               /\ stage m = (Z.of_nat i + 1)%Z
               /\ evaluation m = Evaluation gc (Z.of_nat i + 1)%Z.
Proof.
  revert stages k. induction todo as [|j todo IH]; intros stages k Hok Hk; [done|].
  simpl in Hok. do 10 bind_inv Hok. injection Hok as <-.
  destruct k as [|k]; simpl in *.
  - injection Hk as ->. exists a7, a4. split; [done|].
    unfold PatchMatchModule in E7. bind_inv E7. injection E7 as <-. done.
  - eapply IH; eauto.
Qed.

Lemma stages_loop_cons (self : PatchMatchNetModuleImpl) ref_features src_features
    proj_matrices depth_min depth_max stage rest depth score view_weights :
  stages_loop self ref_features src_features proj_matrices depth_min depth_max
    (stage :: rest) (depth, score, view_weights)
  = (do stage_proj <- call (select proj_matrices 1 stage) ;
     do ref_proj_mtx <- call (select stage_proj 1 0) ;
     do stage_proj <- call (select proj_matrices 1 stage) ;
     do src_proj <- call (slice stage_proj 1 1) ;
     do src_proj_mtx <- call (unbind src_proj 1) ;
     do module <- nth_ (patch_match self) (stage - 1) ;
     do ref_feature <- nth_ ref_features stage ;
     do src_feature <- nth_ src_features stage ;
     do result <- PatchMatchModule_forward module ref_feature src_feature
                    ref_proj_mtx src_proj_mtx depth_min depth_max depth view_weights ;
     let '(depth, score, view_weights) := result in
     do st <-
       (if (1 <? stage)%nat
        then (do depth <- call (interpolate depth) ;
              do view_weights <- defined view_weights ;
              do view_weights <- call (interpolate view_weights) ;
              ok (Some depth, score, Some view_weights))
        else ok (Some depth, score, view_weights)) ;
     stages_loop self ref_features src_features proj_matrices depth_min depth_max
       rest st).
Proof. reflexivity. Qed.

(** The pipeline never dereferences an empty module holder. *)
Lemma PatchMatchNetModule_forward_safe interval_scale propagation_range iterations
    num_samples propagation_neighbors evaluation_neighbors self
    images proj_matrices depth_min depth_max :
  PatchMatchNetModule interval_scale propagation_range iterations num_samples
    propagation_neighbors evaluation_neighbors = ok self ->
  holder_safe (PatchMatchNetModule_forward self images proj_matrices
                 depth_min depth_max).
Proof.
  intros Hnew. unfold PatchMatchNetModule in Hnew.
  do 2 bind_inv Hnew. injection Hnew as <-.
  destruct (make_stages_lookup _ _ _ _ _ _ _ _ _ _ 2%nat 2%nat E0 eq_refl)
    as (m & gc & Hm & Hstage & Heval).
  unfold PatchMatchNetModule_forward. cbn [feature refinement num_depth].
  do 3 holder_step.
  apply holder_safe_bind; [apply source_features_safe|]. intros sf _.
  apply holder_safe_bind; [|intros [[d s] w] _; repeat holder_step].
  rewrite stages_loop_cons. cbn [patch_match]. do 5 holder_step.
  apply holder_safe_bind; [holder_step|]. intros m' Hm'.
  unfold nth_ in Hm'. cbn [Nat.sub] in Hm'. rewrite Hm in Hm'. injection Hm' as <-.
  do 2 holder_step.
  apply holder_safe_bind.
  { apply PatchMatchModule_forward_safe. right. rewrite Heval. simpl. eauto. }
  intros [[d s] w] Hok.
  apply PatchMatchModule_forward_ok in Hok as [w' ->]; [|by right].
  apply holder_safe_bind; [repeat holder_step|].
  intros st Hst. cbn [Nat.ltb Nat.leb] in Hst. do 3 bind_inv Hst. injection Hst as <-.
  apply (stages_loop_safe _ _ _ _ _ _ [2; 1]%nat). simpl. eauto.
Qed.

End StageLoop.

Section ScoreVolume.
Import torch Pipeline.
Local Open Scope R_scope.

(** C2: the probability volume returned by [EvaluationImpl::forward] is
    non-negative at every entry and sums to exactly 1 along the
    depth-hypothesis axis (in exact real arithmetic), being the exponential
    of the log-softmax of the aggregated similarity cost. *)
Theorem forward_score_is_distribution (ops : Ops (Tensor R)) (self : EvaluationImpl)
    (ref_feature_in : Tensor R) (src_features : list (Tensor R))
    (ref_proj_mtx : Tensor R) (src_proj_mtx : list (Tensor R))
    (depth_init grid weight : Tensor R) (view_weights : option (Tensor R))
    (is_inverse : bool) (depth score weights : Tensor R) :
  @Pipeline.exp _ ops = real.exp ->
  @Pipeline.log_softmax _ ops = real.log_softmax ->
  Evaluation_forward self ref_feature_in src_features ref_proj_mtx src_proj_mtx
    depth_init grid weight view_weights is_inverse = ok (depth, score, weights) ->
  forall ix,
    0 <= at_ score ix
    /\ ((0 < default 0 (sizes score !! 1%nat))%nat -> real.Rsum (fiber score 1 ix) = 1).
Proof.
  intros Hexp Hlsm Hok ix. unfold Evaluation_forward in Hok.
  do 7 bind_inv Hok. destruct a5 as [[ws ss] wsum].
  do 5 bind_inv Hok. injection Hok as _ <- _.
  apply call_ok in E8. rewrite Hlsm in E8. rewrite Hexp.
  destruct (exp_log_softmax_distribution _ _ _ E8 ix) as [Hpos Hsum].
  split; [lra|]. intros Hn. apply Hsum. revert Hn.
  unfold fiber. cbn [real.exp map sizes].
  match goal with |- context [default 0%nat ?x] => generalize (default 0%nat x) end.
  intros [|n] Hn; [lia|done].
Qed.

Lemma forward_score_is_distribution_witness :
  exists score,
    Evaluation_forward (ops := uniform_ops)
      (Evaluation (ops := uniform_ops) 4 3) uniform_cost [] uniform_cost []
      uniform_cost uniform_cost uniform_cost None false
    = ok (uniform_cost, score, uniform_cost)
    /\ 0 <= at_ score [0; 1; 0; 0]%nat
    /\ real.Rsum (fiber score 1 [0; 1; 0; 0]%nat) = 1.
Proof.
  eexists. split; [reflexivity|].
  pose proof (forward_score_is_distribution uniform_ops
                (Evaluation (ops := uniform_ops) 4 3) uniform_cost [] uniform_cost []
                uniform_cost uniform_cost uniform_cost None false _ _ _
                eq_refl eq_refl eq_refl [0; 1; 0; 0]%nat) as [Hpos Hsum].
  split; [exact Hpos|]. apply Hsum. simpl. lia.
Defined.

End ScoreVolume.

Section ViewWeights.
Import Pipeline.

(** C10: an [Evaluation] module built for a stage other than 3 has no
    pixelwise net, so its [forward], called with undefined view weights and
    at least one source view, never returns: once the first view has been
    warped and correlated it dereferences the empty module holder. Built
    for stage 3, or called with defined view weights, [forward] never
    dereferences an empty holder; and neither does the whole pipeline, which
    reaches stages 2 and 1 only with the view weights returned by stage 3. *)
Theorem pixelwise_net_requires_stage_3 {T : Type} (ops : Ops T)
    (num_groups : nat) (stage : Z)
    (ref_feature_in : T) (src_feature : T) (src_features : list T)
    (ref_proj_mtx : T) (src_proj_mtx : list T) (depth grid weight : T)
    (is_inverse : bool) :
  stage <> 3%Z ->
  (forall r,
      Evaluation_forward (Evaluation num_groups stage) ref_feature_in
        (src_feature :: src_features) ref_proj_mtx src_proj_mtx depth grid weight
        None is_inverse <> ok r)
  /\ (forall B C H W D ref_feature src_proj warped warped_feature prod similarity,
        size ref_feature_in 0 = Some B -> size ref_feature_in 1 = Some C ->
        size ref_feature_in 2 = Some H -> size ref_feature_in 3 = Some W ->
        size depth 1 = Some D ->
        view ref_feature_in [B; num_groups; C / num_groups; 1; H; W] = Some ref_feature ->
        src_proj_mtx !! 0 = Some src_proj ->
        DifferentiableWarping src_feature src_proj ref_proj_mtx depth = Some warped ->
        view warped [B; num_groups; C / num_groups; D; H; W] = Some warped_feature ->
        mul warped_feature ref_feature = Some prod ->
        mean prod 2 = Some similarity ->
        Evaluation_forward (Evaluation num_groups stage) ref_feature_in
          (src_feature :: src_features) ref_proj_mtx src_proj_mtx depth grid weight
          None is_inverse = throw EmptyModuleHolder)
  /\ (forall view_weights,
        holder_safe (Evaluation_forward (Evaluation num_groups 3) ref_feature_in
                       (src_feature :: src_features) ref_proj_mtx src_proj_mtx
                       depth grid weight view_weights is_inverse))
  /\ (forall view_weights,
        holder_safe (Evaluation_forward (Evaluation num_groups stage) ref_feature_in
                       (src_feature :: src_features) ref_proj_mtx src_proj_mtx
                       depth grid weight (Some view_weights) is_inverse))
  /\ (forall interval_scale propagation_range iterations num_samples
             propagation_neighbors evaluation_neighbors self
             images proj_matrices depth_min depth_max,
        PatchMatchNetModule interval_scale propagation_range iterations num_samples
          propagation_neighbors evaluation_neighbors = ok self ->
        holder_safe (PatchMatchNetModule_forward self images proj_matrices
                       depth_min depth_max)).
Proof.
  intros Hstage.
  assert (Hnet : pixelwise_net (Evaluation num_groups stage) = None).
  { unfold Evaluation. simpl. by destruct (Z.eqb_spec stage 3). }
  split; [|split; [|split; [|split]]].
  - intros r Hok. unfold Evaluation_forward in Hok.
    do 7 bind_inv Hok. by apply views_loop_null in E5.
  - intros B C H W D ref_feature src_proj warped warped_feature prod similarity
      HB HC HH HW HD Hview Hproj Hwarp Hview' Hmul Hmean.
    unfold Evaluation_forward. rewrite HB, HC, HH, HW, HD. cbn [call bind ok].
    cbn [Pipeline.num_groups Evaluation]. rewrite Hview. cbn [call bind ok].
    erewrite views_loop_null_throws; eauto.
  - intros vw. apply Evaluation_forward_safe. right. simpl. eauto.
  - intros vw. apply Evaluation_forward_safe. left. eauto.
  - intros. by eapply PatchMatchNetModule_forward_safe.
Qed.

Lemma pixelwise_net_requires_stage_3_witness :
  Evaluation_forward (ops := unit_ops) (Evaluation (ops := unit_ops) 8 2)
    tt [tt] tt [tt] tt tt tt None false
  = throw EmptyModuleHolder.
Proof.
  refine (proj1 (proj2 (pixelwise_net_requires_stage_3 unit_ops 8 2
                          tt tt [] tt [tt] tt tt tt false _))
            1%nat 1%nat 1%nat 1%nat 1%nat tt tt tt tt tt tt
            eq_refl eq_refl eq_refl eq_refl eq_refl eq_refl eq_refl eq_refl
            eq_refl eq_refl eq_refl).
  discriminate.
Defined.

End ViewWeights.

(** ** Confidence *)

Section Confidence.
Import torch.
Local Open Scope Q_scope.

Lemma Qmin_spec (a b : Q) : (a <= b /\ Qmin a b = a) \/ (b < a /\ Qmin a b = b).
Proof.
  unfold Qmin. destruct (Qle_bool a b) eqn:E.
  - left. split; [by apply Qle_bool_iff|done].
  - right. split; [|done]. apply Qnot_le_lt. intros H%Qle_bool_iff. congruence.
Qed.

Lemma Qmax_spec (a b : Q) : (a <= b /\ Qmax a b = b) \/ (b < a /\ Qmax a b = a).
Proof.
  unfold Qmax. destruct (Qle_bool a b) eqn:E.
  - left. split; [by apply Qle_bool_iff|done].
  - right. split; [|done]. apply Qnot_le_lt. intros H%Qle_bool_iff. congruence.
Qed.

Lemma Qfloor_nat_range (x : Q) (n : nat) :
  0 <= x -> x < inject_Z (Z.of_nat n) ->
  (Z.to_nat (Qfloor x) < n)%nat
  /\ inject_Z (Z.of_nat (Z.to_nat (Qfloor x))) <= x
  /\ x < inject_Z (Z.of_nat (Z.to_nat (Qfloor x))) + 1.
Proof.
  intros H0 Hn.
  assert (Hf0 : (0 <= Qfloor x)%Z).
  { change 0%Z with (Qfloor 0). by apply Qfloor_resp_le. }
  pose proof (Qfloor_le x) as Hle. pose proof (Qlt_floor x) as Hlt.
  rewrite Z2Nat.id by done. split; [|split].
  - assert (inject_Z (Qfloor x) < inject_Z (Z.of_nat n)) by lra.
    rewrite <- Zlt_Qlt in H. lia.
  - done.
  - rewrite inject_Z_plus in Hlt. exact Hlt.
Qed.

(** Linear interpolation along a line of [n] values stays within the
    bounds of the values. *)
Lemma lerp_bounds (line : nat -> Q) (n o : nat) (lo hi : Q) :
  (o < Z.to_nat (Qfloor (inject_Z (Z.of_nat n) * 2)))%nat ->
  (forall i, (i < n)%nat -> lo <= line i <= hi) ->
  lo <= lerp line n (area_pixel_compute_source_index (1 / 2) o) <= hi.
Proof.
  intros Ho Hline.
  assert (Hfl : Qfloor (inject_Z (Z.of_nat n) * 2) = (2 * Z.of_nat n)%Z).
  { rewrite <- (Qfloor_Z (2 * Z.of_nat n)). apply Qfloor_comp.
    rewrite inject_Z_mult. ring. }
  rewrite Hfl in Ho.
  set (src := area_pixel_compute_source_index (1 / 2) o).
  assert (Hsrc : 0 <= src /\ src < inject_Z (Z.of_nat n)).
  { unfold src, area_pixel_compute_source_index.
    assert (inject_Z (Z.of_nat o) <= 2 * inject_Z (Z.of_nat n) - 1).
    { change 2 with (inject_Z 2). change 1 with (inject_Z 1).
      rewrite <- inject_Z_mult. unfold Qminus. rewrite <- inject_Z_opp, <- inject_Z_plus.
      rewrite <- Zle_Qle. lia. }
    assert (0 <= inject_Z (Z.of_nat o)).
    { change 0 with (inject_Z 0). rewrite <- Zle_Qle. lia. }
    destruct (Qmax_spec (1 / 2 * (inject_Z (Z.of_nat o) + 1 / 2) - 1 / 2) 0)
      as [[? ->]|[? ->]]; change (1 / 2) with (1 # 2) in *; split; lra. }
  destruct Hsrc as [Hs0 Hsn].
  destruct (Qfloor_nat_range src n Hs0 Hsn) as (Hi & Hlo & Hhi).
  unfold lerp. fold src.
  set (i1 := Z.to_nat (Qfloor src)) in *.
  assert (Hi1 : (i1 + (if (i1 <? n - 1)%nat then 1 else 0) < n)%nat).
  { destruct (Nat.ltb_spec i1 (n - 1)); lia. }
  pose proof (Hline i1 Hi) as Ha. pose proof (Hline _ Hi1) as Hb.
  set (a := line i1) in *.
  set (b := line (i1 + (if (i1 <? n - 1)%nat then 1 else 0))%nat) in *.
  set (l := src - inject_Z (Z.of_nat i1)).
  assert (0 <= l < 1) by (unfold l; lra).
  nra.
Qed.

Lemma Qsum_cons (x : Q) (l : list Q) : Qsum (x :: l) = x + Qsum l.
Proof. reflexivity. Qed.

Lemma Qsum_nonneg (m : list Q) : Forall (Qle 0) m -> 0 <= Qsum m.
Proof. induction 1 as [|x m Hx _ IH]; simpl; [lra|]. lra. Qed.

Lemma window_cons_S (x : Q) (m : list Q) (d n : nat) :
  window (x :: m) (S d) n = window m d n.
Proof. done. Qed.

Lemma window_bounds (m : list Q) (d n : nat) :
  Forall (Qle 0) m -> 0 <= window m d n <= Qsum m.
Proof.
  intros Hm. revert d n. induction Hm as [|x m Hx Hm IH]; intros d n.
  - unfold window.
    assert (Hz : forall s, Qsum ((fun i => default 0 (@nil Q !! (d + i)%nat)) <$> seq s n) == 0).
    { induction n as [|n IHn]; intros s; [reflexivity|].
      cbn [seq]. rewrite fmap_cons, Qsum_cons, IHn, lookup_nil. reflexivity. }
    rewrite Hz. simpl. lra.
  - destruct d as [|d].
    + destruct n as [|n].
      * unfold window. simpl. pose proof (Qsum_nonneg m Hm). lra.
      * assert (Hw : window (x :: m) 0 (S n) == x + window m 0 n).
        { unfold window. cbn [seq fmap list_fmap Qsum foldr lookup list_lookup default Nat.add].
          unfold Datatypes.id. rewrite <- (fmap_S_seq 0 n), <- list_fmap_compose. reflexivity. }
        rewrite Hw. simpl. specialize (IH 0%nat n). lra.
    + rewrite window_cons_S. specialize (IH d n). simpl. lra.
Qed.

(** The padded volume of line 722 at depth position [j] of pixel
    [(b, h, w)]: a zero in front, the scores, zeros behind. *)
Lemma padded_entry (fs : index -> Q) (B D H W b j h w : nat) :
  (b < B)%nat -> (h < H)%nat -> (w < W)%nat ->
  (if forallb (fun x : nat * nat * (nat * nat) =>
                 let '(i, n, p) := x in (p.1 <=? i)%nat && (i <? p.1 + n)%nat)
        (zip (zip [b; 0%nat; j; (h + 0)%nat; (w + 0)%nat] [B; 1%nat; D; H; W])
             [(0, 0); (0, 0); (1, 2); (0, 0); (0, 0)]%nat)
   then fs (delete 1%nat (zip_with (fun (i : nat) (p : nat * nat) => (i - p.1)%nat)
                            [b; 0%nat; j; (h + 0)%nat; (w + 0)%nat]
                            [(0, 0); (0, 0); (1, 2); (0, 0); (0, 0)]%nat))
   else 0)
  = default 0 ((0 :: fiber (mkTensor [B; D; H; W] fs) 1 [b; 0%nat; h; w]) !! j).
Proof.
  intros Hb Hh Hw. rewrite !Nat.add_0_r.
  cbn [zip zip_with forallb fst snd delete list_delete Nat.add Nat.sub].
  rewrite (proj2 (Nat.ltb_lt b B)), (proj2 (Nat.ltb_lt h H)), (proj2 (Nat.ltb_lt w W))
    by done.
  change (0 <=? ?x)%nat with true. change (0 <? 1)%nat with true.
  cbn [andb]. rewrite !andb_true_r, !Nat.sub_0_r.
  unfold fiber. cbn [sizes at_].
  change ([B; D; H; W] !! 1%nat) with (Some D). cbn [default from_option].
  unfold Datatypes.id.
  destruct j as [|j]; [done|].
  change ((0 :: ?l) !! S j) with (l !! j).
  rewrite list_lookup_fmap. change (1 <=? S j)%nat with true. cbn [andb].
  replace (S j - 1)%nat with j by lia.
  destruct (Nat.ltb_spec (S j) (S D)) as [Hj|Hj].
  - rewrite lookup_seq_lt by lia. done.
  - rewrite lookup_seq_ge by lia. done.
Qed.

Lemma CalcConfidence_prefix (fs : index -> Q) (B D H W n : nat) :
  (0 < D)%nat -> (0 < H)%nat -> (0 < W)%nat ->
  exists score_sum,
    sizes score_sum = [B; D; H; W]
    /\ (forall b d h w, (b < B)%nat -> (h < H)%nat -> (w < W)%nat ->
          at_ score_sum [b; d; h; w]
          == window (0 :: fiber (mkTensor [B; D; H; W] fs) 1 [b; 0%nat; h; w]) d 4)
    /\ PatchMatchNetModuleImpl.CalcConfidence n (mkTensor [B; D; H; W] fs)
       = (depth_index ← view (arange 0 (Z.of_nat n)) [1; n; 1; 1]%nat;
          weighted ← mul (mkTensor [B; D; H; W] fs) depth_index;
          expected ← sum weighted 1 true;
          gathered ← gather score_sum 1
                       (clampZ (to_kLong expected) 0 (Z.of_nat n - 1));
          up ← interpolate gathered PatchMatchNetModuleImpl.kInterpBilinear;
          squeeze up 1).
Proof.
  intros HD HH HW. unfold PatchMatchNetModuleImpl.CalcConfidence.
  unfold unsqueeze. cbn [dim sizes length Nat.leb mbind option_bind insert_at take drop app].
  unfold pad. cbn [dim sizes length Nat.leb Nat.sub mbind option_bind replicate
                   app zip_with fst snd Nat.add].
  unfold reverse. cbn [rev_append app zip_with fst snd Nat.add].
  unfold avg_pool3d. cbn [sizes].
  rewrite (proj2 (Nat.leb_le 4 (S (D + 2)))) by lia.
  rewrite (proj2 (Nat.leb_le 1 (H + 0))), (proj2 (Nat.leb_le 1 (W + 0))) by lia.
  change (0 <? 1)%nat with true. change (0 <? 4 * 1 * 1)%nat with true.
  cbn [andb mbind option_bind].
  unfold squeeze. cbn [map sizes].
  change ([?a; 1%nat; ?c; ?d; ?e] !! 1%nat) with (Some 1%nat).
  cbn [mbind option_bind Nat.eqb delete list_delete].
  replace (S (D + 2) - 4 + 1)%nat with D by lia.
  replace (H + 0 - 1 + 1)%nat with H by lia.
  replace (W + 0 - 1 + 1)%nat with W by lia.
  rewrite (Nat.add_0_r B).
  eexists (mkTensor [B; D; H; W] _). split; [reflexivity|]. split; [|reflexivity].
  intros b d h w Hb Hh Hw.
  cbn [at_ map insert_at take drop app seq mbind list_bind].
  change ([b; 0%nat; d; h; w] !! 0%nat) with (Some b).
  change ([b; 0%nat; d; h; w] !! 1%nat) with (Some 0%nat).
  change ([b; 0%nat; d; h; w] !! 2%nat) with (Some d).
  change ([b; 0%nat; d; h; w] !! 3%nat) with (Some h).
  change ([b; 0%nat; d; h; w] !! 4%nat) with (Some w).
  cbn [from_option]. unfold Datatypes.id.
  rewrite !padded_entry by done.
  unfold window. cbn [seq fmap list_fmap].
  change (inject_Z (Z.of_nat (4 * 1 * 1))) with 4. field.
Qed.

Lemma Qfloor_double (n : nat) :
  Z.to_nat (Qfloor (inject_Z (Z.of_nat n) * 2)) = (2 * n)%nat.
Proof.
  assert (Hfl : Qfloor (inject_Z (Z.of_nat n) * 2) = (2 * Z.of_nat n)%Z).
  { rewrite <- (Qfloor_Z (2 * Z.of_nat n)). apply Qfloor_comp.
    rewrite inject_Z_mult. ring. }
  rewrite Hfl. lia.
Qed.

(** Gathering along the depth axis and upsampling keep every entry within
    bounds that hold for the whole gathered volume. *)
Lemma gather_interpolate_bounds (score_sum : Tensor Q) (idx : Tensor Z)
    (B D H W : nat) (lo hi : Q) (conf : Tensor Q) :
  sizes score_sum = [B; D; H; W] -> sizes idx = [B; 1%nat; H; W] ->
  (forall b d h w, (b < B)%nat -> (h < H)%nat -> (w < W)%nat ->
     lo <= at_ score_sum [b; d; h; w] <= hi) ->
  (gathered ← gather score_sum 1 idx;
   up ← interpolate gathered PatchMatchNetModuleImpl.kInterpBilinear;
   squeeze up 1) = Some conf ->
  sizes conf = [B; (2 * H)%nat; (2 * W)%nat]
  /\ forall b y x, (b < B)%nat -> (y < 2 * H)%nat -> (x < 2 * W)%nat ->
       lo <= at_ conf [b; y; x] <= hi.
Proof.
  intros Hss Hsi Hbound. unfold gather. rewrite Hss, Hsi.
  change ([B; D; H; W] !! 1%nat) with (Some D). cbn [mbind option_bind].
  destruct (_ && _); [|done]. cbn [mbind option_bind].
  unfold interpolate. cbn [sizes]. rewrite !Qfloor_double.
  destruct (_ && _); [|done]. cbn [mbind option_bind].
  unfold squeeze. cbn [sizes].
  change ([?a; 1%nat; ?c; ?d] !! 1%nat) with (Some 1%nat).
  cbn [mbind option_bind Nat.eqb delete list_delete].
  intros [= <-]. split; [done|]. intros b y x Hb Hy Hx.
  cbn [at_ insert_at take drop app].
  change ([b; 0%nat; y; x] !! 0%nat) with (Some b).
  change ([b; 0%nat; y; x] !! 1%nat) with (Some 0%nat).
  change ([b; 0%nat; y; x] !! 2%nat) with (Some y).
  change ([b; 0%nat; y; x] !! 3%nat) with (Some x).
  cbn [from_option]. unfold Datatypes.id, PatchMatchNetModuleImpl.kInterpBilinear.
  apply lerp_bounds; [by rewrite Qfloor_double|]. intros y' Hy'.
  apply lerp_bounds; [by rewrite Qfloor_double|]. intros x' Hx'.
  cbn [insert list_insert]. by apply Hbound.
Qed.

Lemma broadcast_depth_axis (B D H W n : nat) (s : list nat) :
  broadcast_shapes [B; D; H; W] [1; n; 1; 1]%nat = Some s ->
  exists D', s = [B; D'; H; W].
Proof.
  unfold broadcast_shapes. cbn [reverse rev_append broadcast_rev].
  unfold reverse. cbn [rev_append broadcast_rev mbind option_bind].
  destruct (Nat.eqb_spec B 1) as [->|HB]; cbn [mbind option_bind Nat.eqb];
  destruct (Nat.eqb_spec D n) as [->|HD]; cbn [mbind option_bind];
  try destruct (Nat.eqb_spec D 1) as [->|HD1]; cbn [mbind option_bind];
  try destruct (Nat.eqb_spec n 1) as [->|Hn1]; cbn [mbind option_bind];
  try discriminate;
  destruct (Nat.eqb_spec H 1) as [->|HH]; cbn [mbind option_bind Nat.eqb];
  destruct (Nat.eqb_spec W 1) as [->|HW]; cbn [mbind option_bind Nat.eqb fmap option_fmap option_map];
  intros [= <-]; eauto.
Qed.

Lemma gather_interpolate_is_Some (score_sum : Tensor Q) (idx : Tensor Z)
    (B D H W : nat) :
  sizes score_sum = [B; D; H; W] -> sizes idx = [B; 1%nat; H; W] ->
  (0 < H)%nat -> (0 < W)%nat ->
  (forall ix, (0 <= at_ idx ix < Z.of_nat D)%Z) ->
  is_Some (gathered ← gather score_sum 1 idx;
           up ← interpolate gathered PatchMatchNetModuleImpl.kInterpBilinear;
           squeeze up 1).
Proof.
  intros Hss Hsi HH HW Hidx. unfold gather. unfold dim. rewrite Hss, Hsi.
  change ([B; D; H; W] !! 1%nat) with (Some D).
  cbn [mbind option_bind length Nat.eqb seq forallb lookup list_lookup from_option].
  unfold Datatypes.id. rewrite !Nat.leb_refl.
  cbn [bool_decide decide_rel orb andb].
  rewrite !orb_true_r. cbn [andb].
  replace (forallb _ (indices [B; 1%nat; H; W])) with true.
  2:{ symmetry. apply forallb_forall. intros ix _. apply andb_true_iff.
      specialize (Hidx ix). split; [apply Z.leb_le | apply Z.ltb_lt]; lia. }
  rewrite bool_decide_eq_true_2 by done.
  cbn [orb andb mbind option_bind].
  unfold interpolate, PatchMatchNetModuleImpl.kInterpBilinear.
  cbn [sizes]. rewrite !Qfloor_double.
  rewrite (proj2 (Nat.ltb_lt 0 H)), (proj2 (Nat.ltb_lt 0 W)),
    (proj2 (Nat.ltb_lt 0 (2 * H))), (proj2 (Nat.ltb_lt 0 (2 * W))) by lia.
  cbn [andb mbind option_bind]. unfold squeeze. cbn [sizes].
  change ([?a; 1%nat; ?c; ?d] !! 1%nat) with (Some 1%nat).
  cbn [mbind option_bind Nat.eqb]. eauto.
Qed.

Lemma score_sum_unit (fs : index -> Q) (B D H W b d h w : nat) :
  distribution (mkTensor [B; D; H; W] fs) ->
  (b < B)%nat -> (h < H)%nat -> (w < W)%nat ->
  0 <= window (0 :: fiber (mkTensor [B; D; H; W] fs) 1 [b; 0%nat; h; w]) d 4 <= 1.
Proof.
  intros Hdist Hb Hh Hw.
  destruct (Hdist b h w) as [Hpos Hsum].
  { cbn. repeat (constructor; [lia|]). constructor. }
  cbn [sizes] in Hpos. change ([B; D; H; W] !! 1%nat) with (Some D) in Hpos.
  cbn [from_option] in Hpos. unfold Datatypes.id in Hpos.
  set (l := fiber _ 1 _) in *.
  assert (Hl : Forall (Qle 0) (0 :: l)).
  { constructor; [lra|]. unfold l, fiber. apply Forall_fmap, Forall_forall.
    intros j Hj%elem_of_seq. simpl. apply Hpos. cbn in Hj. lia. }
  pose proof (window_bounds (0 :: l) d 4 Hl) as Hw4.
  rewrite Qsum_cons in Hw4. lra.
Qed.

(** C8: on a score volume that is a probability distribution over the
    depth hypotheses at every pixel, [CalcConfidence] returns a map (when
    the volume has the configured number of hypotheses and a non-empty
    image) and every pixel of a map it returns lies in [0, 1]. *)
Theorem confidence_in_unit_interval (score : Tensor Q) (B D H W : nat) :
  sizes score = [B; D; H; W] -> (0 < D)%nat -> (0 < H)%nat -> (0 < W)%nat ->
  distribution score ->
  (exists conf, PatchMatchNetModuleImpl.CalcConfidence D score = Some conf)
  /\ (forall num_depth conf,
        PatchMatchNetModuleImpl.CalcConfidence num_depth score = Some conf ->
        sizes conf = [B; (2 * H)%nat; (2 * W)%nat]
        /\ forall b y x, (b < B)%nat -> (y < 2 * H)%nat -> (x < 2 * W)%nat ->
             0 <= at_ conf [b; y; x] <= 1).
Proof.
  destruct score as [ss fs]. cbn [sizes]. intros -> HD HH HW Hdist.
  assert (Hunit : forall score_sum : Tensor Q,
    (forall b d h w, (b < B)%nat -> (h < H)%nat -> (w < W)%nat ->
       at_ score_sum [b; d; h; w]
       == window (0 :: fiber (mkTensor [B; D; H; W] fs) 1 [b; 0%nat; h; w]) d 4) ->
    forall b d h w, (b < B)%nat -> (h < H)%nat -> (w < W)%nat ->
      0 <= at_ score_sum [b; d; h; w] <= 1).
  { intros score_sum Hwin b d h w Hb Hh Hw. rewrite Hwin by done.
    by apply score_sum_unit. }
  split.
  - destruct (CalcConfidence_prefix fs B D H W D HD HH HW)
      as (score_sum & Hss & Hwin & ->).
    unfold view. cbn [sizes arange numel foldr].
    rewrite Z.sub_0_r, Nat2Z.id.
    rewrite (proj2 (Nat.eqb_eq (D * 1) (1 * (D * (1 * (1 * 1)))))) by lia.
    cbn [mbind option_bind]. unfold mul, map2. cbn [sizes].
    rewrite broadcast_shapes_ones by (repeat (constructor; [auto|]); constructor).
    cbn [mbind option_bind]. unfold sum. cbn [dim sizes length Nat.ltb Nat.leb].
    cbn [mbind option_bind insert list_insert].
    apply (gather_interpolate_is_Some score_sum _ B D H W);
      [exact Hss | reflexivity | exact HH | exact HW |].
    intros ix. cbn [clampZ to_kLong map at_]. lia.
  - intros n conf Hconf.
    destruct (CalcConfidence_prefix fs B D H W n HD HH HW)
      as (score_sum & Hss & Hwin & Heq).
    rewrite Heq in Hconf. clear Heq.
    destruct (view _ _) as [depth_index|] eqn:Hview; [|done].
    unfold view in Hview. destruct (_ =? _)%nat; [|done]. injection Hview as <-.
    cbn [mbind option_bind] in Hconf. unfold mul, map2 in Hconf. cbn [sizes] in Hconf.
    destruct (broadcast_shapes _ _) as [s|] eqn:Hs; [|done].
    apply broadcast_depth_axis in Hs as [D' ->].
    cbn [mbind option_bind] in Hconf. unfold sum in Hconf.
    cbn [dim sizes length Nat.ltb Nat.leb mbind option_bind insert list_insert] in Hconf.
    refine (gather_interpolate_bounds score_sum _ B D H W 0 1 conf Hss _ _ Hconf);
      [reflexivity|].
    by apply Hunit.
Qed.

Lemma two_peaks_distribution : distribution two_peaks.
Proof.
  intros b h w Hin. split.
  - intros d _. destruct d as [|[|[|d]]]; cbn; discriminate.
  - reflexivity.
Qed.

Lemma confidence_in_unit_interval_witness :
  (exists conf, PatchMatchNetModuleImpl.CalcConfidence 4 two_peaks = Some conf)
  /\ (forall num_depth conf,
        PatchMatchNetModuleImpl.CalcConfidence num_depth two_peaks = Some conf ->
        sizes conf = [1; 2 * 1; 2 * 1]%nat
        /\ forall b y x, (b < 1)%nat -> (y < 2 * 1)%nat -> (x < 2 * 1)%nat ->
             0 <= at_ conf [b; y; x] <= 1).
Proof.
  apply (confidence_in_unit_interval two_peaks 1 4 1 1);
    [reflexivity | lia | lia | lia | exact two_peaks_distribution].
Defined.

End Confidence.

(** ** Warping *)

Ltac bind_some H :=
  match type of H with
  | mbind _ ?o = Some _ =>
      let E := fresh "E" in
      destruct o eqn:E; cbn [mbind option_bind] in H; [|discriminate H]
  | (match ?o with Some _ => _ | None => None end) = Some _ =>
      let E := fresh "E" in
      destruct o eqn:E; [|discriminate H]
  end.

Tactic Notation "bind_in" hyp(H) "as" ident(x) ident(E) :=
  match type of H with
  | mbind _ ?o = Some _ =>
      destruct o as [x|] eqn:E; cbn [mbind option_bind] in H; [|discriminate H]
  end.

Section Warping.
Import torch EvaluationImpl.
Local Open Scope Q_scope.

Lemma broadcast_rev_cons (a b : nat) (r1 r2 s : list nat) :
  broadcast_rev (a :: r1) (b :: r2) = Some s ->
  exists r s', s = r :: s' /\ broadcast_dim a b r /\ broadcast_rev r1 r2 = Some s'.
Proof.
  cbn [broadcast_rev]. intros H. bind_some H.
  destruct (Nat.eqb_spec a b) as [->|]; [|destruct (Nat.eqb_spec a 1) as [->|];
    [|destruct (Nat.eqb_spec b 1) as [->|]; [|discriminate]]];
    injection H as <-; eexists _, _; (split; [reflexivity|]);
    unfold broadcast_dim; auto.
Qed.

Lemma broadcast_shapes_4 (a b c e a' b' c' e' : nat) (s : list nat) :
  broadcast_shapes [a; b; c; e] [a'; b'; c'; e'] = Some s ->
  exists ra rb rc re, s = [ra; rb; rc; re]
    /\ broadcast_dim a a' ra /\ broadcast_dim b b' rb
    /\ broadcast_dim c c' rc /\ broadcast_dim e e' re.
Proof.
  unfold broadcast_shapes. cbn [reverse rev_append].
  destruct (broadcast_rev _ _) as [r|] eqn:E; [|discriminate].
  intros [= <-].
  apply broadcast_rev_cons in E as (re & r1 & -> & He & E).
  apply broadcast_rev_cons in E as (rc & r2 & -> & Hc & E).
  apply broadcast_rev_cons in E as (rb & r3 & -> & Hb & E).
  apply broadcast_rev_cons in E as (ra & r4 & -> & Ha & E).
  cbn in E. injection E as <-. by exists ra, rb, rc, re.
Qed.

Lemma repeat_sizes_4 (t t' : Tensor Q) (r0 r1 r2 r3 : nat) :
  repeat t [r0; r1; r2; r3] = Some t' -> length (sizes t') = 4%nat.
Proof.
  unfold repeat, dim. destruct (Nat.leb_spec (length (sizes t)) (length [r0; r1; r2; r3]))
    as [Hle|]; [|discriminate].
  intros [= <-]. cbn [sizes length] in *.
  destruct (sizes t) as [|a [|b [|c [|e [|]]]]]; cbn in *; try lia; reflexivity.
Qed.

(** The camera-space points keep the batch size of the feature map and
    have three coordinates. *)
Lemma camera_points_sizes (feature proj ref_proj depth xyz : Tensor Q) (B : nat) :
  sizes feature !! 0%nat = Some B -> (2 <= B)%nat ->
  camera_points feature proj ref_proj depth = Some xyz ->
  exists D P, sizes xyz = [B; 3%nat; D; P].
Proof.
  intros HB Hge H. unfold camera_points, size in H. rewrite HB in H.
  cbn [mbind option_bind] in H.
  bind_in H as height Eh. bind_in H as width Ew. bind_in H as num_depth Ed.
  bind_in H as ref_inv Ei. bind_in H as pmtx Ep. bind_in H as top Et.
  bind_in H as rot Er. bind_in H as trans Etr. bind_in H as xy Exy.
  bind_in H as x Ex. bind_in H as y Ey. bind_in H as xyz0 E0.
  bind_in H as xyz1 E1. bind_in H as xyz2 E2. bind_in H as xyz3 E3.
  bind_in H as xyz4 E4. bind_in H as xyz5 E5. bind_in H as depth_v Edv.
  bind_in H as trans_v Etv. bind_in H as xyz6 E6.
  apply repeat_sizes_4 in E5.
  destruct (sizes xyz5) as [|a [|b [|c [|e [|]]]]] eqn:Hs; try discriminate E5.
  unfold view in Edv, Etv.
  destruct (_ =? _)%nat in Edv; [|discriminate]. injection Edv as <-.
  destruct (_ =? _)%nat in Etv; [|discriminate]. injection Etv as <-.
  unfold mul, add, map2 in *. cbn [sizes] in *. rewrite Hs in E6.
  bind_in E6 as s6 Es6. injection E6 as <-. cbn [sizes] in H.
  bind_in H as s7 Es7. injection H as <-. cbn [sizes].
  apply broadcast_shapes_4 in Es6 as (ra & rb & rc & re & -> & Ha & _ & _ & _).
  apply broadcast_shapes_4 in Es7 as (sa & sb & sc & se & -> & Ha' & Hb' & _ & _).
  exists sc, se. unfold broadcast_dim in *. f_equal; [|f_equal]; lia.
Qed.

Lemma broadcast_shapes_same (s : list nat) : broadcast_shapes s s = Some s.
Proof.
  unfold broadcast_shapes. rewrite <- (reverse_involutive s) at 3.
  generalize (reverse s). intros r.
  assert (broadcast_rev r r = Some r) as ->; [|done].
  induction r as [|a r IH]; [done|]. cbn [broadcast_rev]. rewrite IH.
  cbn. by rewrite Nat.eqb_refl.
Qed.

Lemma select_sizes {A} (t t' : Tensor A) (d i : nat) :
  select t d i = Some t' -> sizes t' = delete d (sizes t).
Proof.
  unfold select. intros H. bind_in H as n En.
  destruct (i <? n)%nat; [|discriminate]. by injection H as <-.
Qed.

Lemma narrow_sizes {A} (t t' : Tensor A) (d start len : nat) :
  narrow t d start len = Some t' -> sizes t' = <[d:=len]> (sizes t).
Proof.
  unfold narrow. intros H. bind_in H as n En.
  destruct (_ <=? _)%nat; [|discriminate]. by injection H as <-.
Qed.

Lemma stack_sizes {A} (t0 t' : Tensor A) (ts : list (Tensor A)) (d : nat) :
  stack (t0 :: ts) d = Some t' ->
  sizes t' = insert_at d (S (length ts)) (sizes t0).
Proof.
  unfold stack. destruct (_ && _); [|discriminate]. by intros [= <-].
Qed.

Lemma masked_fill_sizes (t t' : Tensor Q) (mask : Tensor bool) (v : Q) :
  sizes mask = sizes t -> masked_fill t mask v = Some t' -> sizes t' = sizes t.
Proof.
  unfold masked_fill, map2. intros ->. rewrite broadcast_shapes_same.
  by intros [= <-].
Qed.

(** For a batch of three or more, the division of line 428 cannot
    broadcast: the numerator has shape [B; 2; D; P], the denominator
    [B; D; P]. *)
Lemma warp_grid_batch_raises (feature proj ref_proj depth : Tensor Q) (B : nat) :
  sizes feature !! 0%nat = Some B -> (3 <= B)%nat ->
  warp_grid feature proj ref_proj depth = None.
Proof.
  intros HB Hge. destruct (warp_grid _ _ _ _) as [g|] eqn:H; [exfalso|done].
  unfold warp_grid, size in H.
  bind_in H as height Eh. bind_in H as width Ew. bind_in H as xyz Exyz.
  apply (camera_points_sizes _ _ _ _ _ B) in Exyz as (D & P & Hs); [|done|lia].
  bind_in H as z Ez. apply select_sizes in Ez. rewrite Hs in Ez. cbn in Ez.
  bind_in H as x0 Ex0. apply select_sizes in Ex0. rewrite Hs in Ex0. cbn in Ex0.
  bind_in H as fx Efx. apply masked_fill_sizes in Efx; [|by rewrite Ex0].
  bind_in H as fy Efy. bind_in H as fz Efz.
  bind_in H as xyz' Es. apply stack_sizes in Es. rewrite Efx, Ex0 in Es. cbn in Es.
  bind_in H as num En. apply narrow_sizes in En. rewrite Es in En. cbn in En.
  bind_in H as den Eden. apply select_sizes in Eden. rewrite Es in Eden. cbn in Eden.
  bind_in H as proj_xy Ediv. unfold div, map2 in Ediv. rewrite En, Eden in Ediv.
  unfold broadcast_shapes in Ediv. cbn in Ediv.
  rewrite !Nat.eqb_refl in Ediv. cbn in Ediv.
  destruct B as [|[|[|B]]]; try lia; discriminate.
Qed.

(** C4: a point behind the camera does not always come back as a
    zero-padded sample without an error: for every input whose batch holds
    three or more images, [DifferentiableWarping] raises, whatever the
    depths are.  The denominator [xyz.select(1, 2)] of line 428 has lost
    the coordinate dimension, so it is aligned with the numerator one
    position off and the coordinate count 2 meets the batch size. *)
Theorem DifferentiableWarping_batch_raises
    (feature proj ref_proj depth : Tensor Q) (B : nat) :
  sizes feature !! 0%nat = Some B -> (3 <= B)%nat ->
  DifferentiableWarping feature proj ref_proj depth = None.
Proof.
  intros HB Hge. unfold DifferentiableWarping.
  rewrite (warp_grid_batch_raises _ _ _ _ B HB Hge). unfold size.
  rewrite HB. cbn [mbind option_bind].
  destruct (sizes feature !! 1%nat); [cbn [mbind option_bind]|done].
  destruct (sizes feature !! 2%nat); [cbn [mbind option_bind]|done].
  destruct (sizes feature !! 3%nat); [cbn [mbind option_bind]|done].
  by destruct (sizes depth !! 1%nat).
Qed.

Lemma select_inv {A} (t t' : Tensor A) (d i : nat) :
  select t d i = Some t' ->
  t' = mkTensor (delete d (sizes t)) (fun ix => at_ t (insert_at d i ix)).
Proof.
  unfold select. intros H. bind_in H as n En.
  destruct (i <? n)%nat; [|discriminate]. by injection H as <-.
Qed.

Lemma narrow_inv {A} (t t' : Tensor A) (d start len : nat) :
  narrow t d start len = Some t' ->
  t' = mkTensor (<[d:=len]> (sizes t))
         (fun ix => at_ t (<[d:=(start + default 0 (ix !! d))%nat]> ix)).
Proof.
  unfold narrow. intros H. bind_in H as n En.
  destruct (_ <=? _)%nat; [|discriminate]. by injection H as <-.
Qed.

Lemma stack_inv {A} (t0 t' : Tensor A) (ts : list (Tensor A)) (d : nat) :
  stack (t0 :: ts) d = Some t' ->
  t' = mkTensor (insert_at d (S (length ts)) (sizes t0))
         (fun ix => at_ (default t0 ((t0 :: ts) !! default 0%nat (ix !! d)))
                      (delete d ix)).
Proof.
  unfold stack. destruct (_ && _); [|discriminate]. by intros [= <-].
Qed.

Lemma map2_inv {A B C} (f : A -> B -> C) (t1 : Tensor A) (t2 : Tensor B)
    (t : Tensor C) :
  map2 f t1 t2 = Some t ->
  exists s, broadcast_shapes (sizes t1) (sizes t2) = Some s
    /\ t = mkTensor s (fun ix => f (at_ t1 (bindex (sizes t1) ix))
                                   (at_ t2 (bindex (sizes t2) ix))).
Proof.
  unfold map2. intros H. bind_in H as s Es. injection H as <-. by exists s.
Qed.

Lemma bdim_lt (n k : nat) : (k < n)%nat -> (if (n =? 1)%nat then 0%nat else k) = k.
Proof. destruct (Nat.eqb_spec n 1); lia. Qed.

(** The sampling grid in closed form, for a batch of one: both
    coordinates are built from the first camera-space coordinate. *)
Lemma warp_grid_at (feature proj ref_proj depth xyz g : Tensor Q)
    (height width D P d p : nat) :
  sizes feature !! 2%nat = Some height ->
  sizes feature !! 3%nat = Some width ->
  camera_points feature proj ref_proj depth = Some xyz ->
  sizes xyz = [1; 3; D; P]%nat -> (d < D)%nat -> (p < P)%nat ->
  warp_grid feature proj ref_proj depth = Some g ->
  let m := Qle_bool (at_ xyz [0; 2; d; p]%nat) (1 / 1000) in
  let x' := at_ xyz [0; 0; d; p]%nat in
  at_ g [0; d; p; 0]%nat
    = (if m then inject_Z (Z.of_nat width) else x') / (if m then 1 else x')
      / ((inject_Z (Z.of_nat width) - 1) / 2) - 1
  /\ at_ g [0; d; p; 1]%nat
    = (if m then inject_Z (Z.of_nat height) else x') / (if m then 1 else x')
      / ((inject_Z (Z.of_nat height) - 1) / 2) - 1.
Proof.
  intros Eh Ew Exyz Hs Hd Hp H m x'. unfold warp_grid, size in H.
  rewrite Eh, Ew, Exyz in H. cbn [mbind option_bind] in H.
  bind_in H as z Ez. apply select_inv in Ez.
  bind_in H as x0 Ex0. apply select_inv in Ex0.
  rewrite Hs in Ez, Ex0. cbn [delete list_delete] in Ez, Ex0.
  bind_in H as fx Efx. apply map2_inv in Efx as (sx & Esx & Efx).
  bind_in H as fy Efy. apply map2_inv in Efy as (sy & Esy & Efy).
  bind_in H as fz Efz. apply map2_inv in Efz as (sz & Esz & Efz).
  subst z x0. unfold le_scalar, map in *. cbn [sizes] in *.
  rewrite broadcast_shapes_same in Esx, Esy, Esz.
  injection Esx as <-. injection Esy as <-. injection Esz as <-.
  bind_in H as xyz' Es. apply stack_inv in Es.
  bind_in H as num En. apply narrow_inv in En.
  bind_in H as den Eden. apply select_inv in Eden.
  bind_in H as proj_xy Ediv. apply map2_inv in Ediv as (s & Esd & Ediv).
  bind_in H as px Epx. apply select_inv in Epx.
  bind_in H as py Epy. apply select_inv in Epy.
  apply stack_inv in H.
  subst fx fy fz xyz' num den.
  cbn [sizes insert_at take drop app length insert list_insert delete list_delete]
    in Esd.
  unfold broadcast_shapes in Esd. cbn [reverse rev_append broadcast_rev] in Esd.
  rewrite !Nat.eqb_refl in Esd. cbn in Esd. injection Esd as <-.
  subst proj_xy px py g.
  cbn. rewrite !(bdim_lt D d Hd), !(bdim_lt P p Hp). by split.
Qed.

(** C1: the neighbor feature is not sampled at [(x'/z', y'/z')].  For a
    batch of one, at every pixel and depth hypothesis whose projected depth
    [z'] exceeds the threshold and whose first camera-space coordinate [x']
    is not zero, both coordinates of the sampling grid are the normalized
    form of [x'/x' = 1]: lines 423-425 select coordinate 0 three times, so
    [y'] and [z'] never reach the grid. *)
Theorem warp_grid_unmasked (feature proj ref_proj depth xyz g : Tensor Q)
    (height width D P d p : nat) :
  sizes feature !! 2%nat = Some height ->
  sizes feature !! 3%nat = Some width ->
  camera_points feature proj ref_proj depth = Some xyz ->
  sizes xyz = [1; 3; D; P]%nat -> (d < D)%nat -> (p < P)%nat ->
  warp_grid feature proj ref_proj depth = Some g ->
  1 / 1000 < at_ xyz [0; 2; d; p]%nat ->
  ~ at_ xyz [0; 0; d; p]%nat == 0 ->
  at_ g [0; d; p; 0]%nat == 1 / ((inject_Z (Z.of_nat width) - 1) / 2) - 1
  /\ at_ g [0; d; p; 1]%nat == 1 / ((inject_Z (Z.of_nat height) - 1) / 2) - 1.
Proof.
  intros Eh Ew Exyz Hs Hd Hp Hg Hz Hx.
  destruct (warp_grid_at _ _ _ _ _ _ _ _ _ _ _ _ Eh Ew Exyz Hs Hd Hp Hg) as [-> ->].
  assert (Qle_bool (at_ xyz [0; 2; d; p]%nat) (1 / 1000) = false) as ->.
  { apply not_true_is_false. rewrite Qle_bool_iff. by apply Qlt_not_le. }
  assert (at_ xyz [0; 0; d; p]%nat / at_ xyz [0; 0; d; p]%nat == 1) as ->
    by (by apply Qmult_inv_r).
  split; reflexivity.
Qed.

Lemma fill_out_of_range (n : nat) :
  (2 <= n)%nat ->
  1 < inject_Z (Z.of_nat n) / 1 / ((inject_Z (Z.of_nat n) - 1) / 2) - 1.
Proof.
  intros Hn. set (q := inject_Z (Z.of_nat n)).
  assert (Hq : 2 <= q).
  { change 2 with (inject_Z 2). unfold q. rewrite <- Zle_Qle. lia. }
  assert (Hc : 0 < (q - 1) / 2) by (apply Qlt_shift_div_l; lra).
  assert (H2 : 2 < q / 1 / ((q - 1) / 2)).
  { apply Qlt_shift_div_l; [exact Hc|].
    assert (q / 1 == q) as -> by field.
    assert (2 * ((q - 1) / 2) == q - 1) as -> by field. lra. }
  remember (q / 1 / ((q - 1) / 2)) as v. lra.
Qed.

(** For a batch of one and an image of at least 2 x 2 pixels, a point
    whose projected depth is at most the threshold gets grid coordinates
    strictly above 1, outside the normalized sampling range. *)
Theorem warp_grid_masked (feature proj ref_proj depth xyz g : Tensor Q)
    (height width D P d p : nat) :
  sizes feature !! 2%nat = Some height ->
  sizes feature !! 3%nat = Some width ->
  (2 <= height)%nat -> (2 <= width)%nat ->
  camera_points feature proj ref_proj depth = Some xyz ->
  sizes xyz = [1; 3; D; P]%nat -> (d < D)%nat -> (p < P)%nat ->
  warp_grid feature proj ref_proj depth = Some g ->
  at_ xyz [0; 2; d; p]%nat <= 1 / 1000 ->
  1 < at_ g [0; d; p; 0]%nat /\ 1 < at_ g [0; d; p; 1]%nat.
Proof.
  intros Eh Ew Hh Hw Exyz Hs Hd Hp Hg Hz.
  destruct (warp_grid_at _ _ _ _ _ _ _ _ _ _ _ _ Eh Ew Exyz Hs Hd Hp Hg) as [-> ->].
  apply Qle_bool_iff in Hz. rewrite Hz.
  split; by apply fill_out_of_range.
Qed.

(** A sample taken to the right of the image reads only zero padding. *)
Lemma bilinear_sample_right_of_image (plane : nat -> nat -> Q) (H W : nat)
    (gx gy : Q) :
  inject_Z (Z.of_nat W) <= grid_sampler_unnormalize gx W ->
  bilinear_sample kZeros plane H W gx gy = 0.
Proof.
  intros Hx. unfold bilinear_sample, compute_coordinates, corner.
  assert (Hf : (Z.of_nat W <= Qfloor (grid_sampler_unnormalize gx W))%Z).
  { rewrite <- (Qfloor_Z (Z.of_nat W)). by apply Qfloor_resp_le. }
  assert (Hout : forall iy ix, (Z.of_nat W <= ix)%Z -> within_bounds_2d iy ix H W = false).
  { intros iy ix Hix. unfold within_bounds_2d.
    replace (ix <? Z.of_nat W)%Z with false by (symmetry; apply Z.ltb_ge; lia).
    apply andb_false_r. }
  rewrite !Hout by lia. reflexivity.
Qed.

Lemma fill_right_of_image (n : nat) :
  (2 <= n)%nat ->
  inject_Z (Z.of_nat n)
  <= grid_sampler_unnormalize
       (inject_Z (Z.of_nat n) / 1 / ((inject_Z (Z.of_nat n) - 1) / 2) - 1) n.
Proof.
  intros Hn. unfold grid_sampler_unnormalize. set (q := inject_Z (Z.of_nat n)).
  assert (Hq : 2 <= q).
  { change 2 with (inject_Z 2). unfold q. rewrite <- Zle_Qle. lia. }
  assert (((q / 1 / ((q - 1) / 2) - 1 + 1) * q - 1) / 2
          == q + (q + 1) / (2 * (q - 1))) as -> by (field; lra).
  assert (0 <= (q + 1) / (2 * (q - 1))); [|lra].
  apply Qle_shift_div_l; lra.
Qed.

(** For a batch of one and an image of at least 2 x 2 pixels, the sample
    that [grid_sample] with zero padding takes for a point whose projected
    depth is at most the threshold is exactly zero, in every channel. *)
Theorem masked_sample_is_zero (feature proj ref_proj depth xyz g sampled : Tensor Q)
    (height width D P c d p : nat) :
  sizes feature !! 2%nat = Some height ->
  sizes feature !! 3%nat = Some width ->
  (2 <= height)%nat -> (2 <= width)%nat ->
  camera_points feature proj ref_proj depth = Some xyz ->
  sizes xyz = [1; 3; D; P]%nat -> (d < D)%nat -> (p < P)%nat ->
  warp_grid feature proj ref_proj depth = Some g ->
  grid_sample feature g kGridSampleZeros = Some sampled ->
  at_ xyz [0; 2; d; p]%nat <= 1 / 1000 ->
  at_ sampled [0; c; d; p]%nat = 0.
Proof.
  intros Eh Ew Hh Hw Exyz Hs Hd Hp Hg Hsam Hz.
  destruct (warp_grid_at _ _ _ _ _ _ _ _ _ _ _ _ Eh Ew Exyz Hs Hd Hp Hg) as [Hgx _].
  apply Qle_bool_iff in Hz. rewrite Hz in Hgx.
  unfold grid_sample in Hsam.
  destruct (sizes feature) as [|N [|C [|IH [|IW [|]]]]]; try discriminate.
  destruct (sizes g) as [|N' [|Ho [|Wo [|two [|]]]]]; try discriminate.
  destruct (_ && _); [|discriminate]. injection Hsam as <-.
  cbn in Eh, Ew. injection Eh as ->. injection Ew as ->.
  cbn [at_ lookup list_lookup default]. unfold Datatypes.id.
  apply bilinear_sample_right_of_image. rewrite Hgx. by apply fill_right_of_image.
Qed.

Lemma option_returns {A} (o : option A) (d : A) :
  match o with Some _ => true | None => false end = true ->
  o = Some (default d o).
Proof. by destruct o. Qed.

Ltac returns := apply option_returns; vm_compute; reflexivity.
Ltac evaluate := vm_compute; first [reflexivity | discriminate].

Lemma warp_grid_unmasked_witness :
  exists xyz g out,
    camera_points (ramp_feature 1) (identity_proj 1) (identity_proj 1)
      (flat_depth 1 1) = Some xyz
    /\ warp_grid (ramp_feature 1) (identity_proj 1) (identity_proj 1)
         (flat_depth 1 1) = Some g
    /\ DifferentiableWarping (ramp_feature 1) (identity_proj 1) (identity_proj 1)
         (flat_depth 1 1) = Some out
    /\ fst (projected_xy xyz 0 0 14) == 2 /\ snd (projected_xy xyz 0 0 14) == 3
    /\ at_ g [0; 0; 14; 0]%nat == - (1 # 3) /\ at_ g [0; 0; 14; 1]%nat == - (1 # 3)
    /\ at_ out [0; 0; 0; 3; 2]%nat == 55 # 6
    /\ at_ (ramp_feature 1) [0; 0; 3; 2]%nat == 32.
Proof.
  pose (f := ramp_feature 1). pose (I := identity_proj 1). pose (z := flat_depth 1 1).
  pose (xyz := default f (camera_points f I I z)).
  pose (g := default f (warp_grid f I I z)).
  assert (Exyz : camera_points f I I z = Some xyz) by returns.
  assert (Eg : warp_grid f I I z = Some g) by returns.
  exists xyz, g, (default f (DifferentiableWarping f I I z)).
  split; [exact Exyz|]. split; [exact Eg|]. split; [returns|].
  destruct (warp_grid_unmasked f I I z xyz g 4 4 1 16 0 14) as [Hx Hy];
    [reflexivity | reflexivity | exact Exyz | evaluate | lia | lia | exact Eg
    | evaluate | evaluate |].
  split; [evaluate|]. split; [evaluate|].
  split; [rewrite Hx; reflexivity|]. split; [rewrite Hy; reflexivity|].
  split; evaluate.
Defined.

Lemma DifferentiableWarping_batch_raises_witness :
  (exists xyz,
     camera_points (ramp_feature 3) (identity_proj 3) (identity_proj 3)
       (flat_depth 3 (-1)) = Some xyz
     /\ at_ xyz [1; 2; 0; 5]%nat == -1)
  /\ DifferentiableWarping (ramp_feature 3) (identity_proj 3) (identity_proj 3)
       (flat_depth 3 (-1)) = None.
Proof.
  split.
  - exists (default (ramp_feature 3)
              (camera_points (ramp_feature 3) (identity_proj 3) (identity_proj 3)
                 (flat_depth 3 (-1)))).
    split; [returns | evaluate].
  - apply (DifferentiableWarping_batch_raises _ _ _ _ 3); [reflexivity | lia].
Defined.

Lemma warp_grid_masked_witness :
  exists xyz g,
    camera_points (ramp_feature 1) (identity_proj 1) (identity_proj 1)
      (flat_depth 1 (-1)) = Some xyz
    /\ warp_grid (ramp_feature 1) (identity_proj 1) (identity_proj 1)
         (flat_depth 1 (-1)) = Some g
    /\ at_ xyz [0; 2; 0; 14]%nat == -1
    /\ 1 < at_ g [0; 0; 14; 0]%nat /\ 1 < at_ g [0; 0; 14; 1]%nat.
Proof.
  pose (f := ramp_feature 1). pose (I := identity_proj 1). pose (z := flat_depth 1 (-1)).
  pose (xyz := default f (camera_points f I I z)).
  pose (g := default f (warp_grid f I I z)).
  assert (Exyz : camera_points f I I z = Some xyz) by returns.
  assert (Eg : warp_grid f I I z = Some g) by returns.
  exists xyz, g. split; [exact Exyz|]. split; [exact Eg|]. split; [evaluate|].
  apply (warp_grid_masked f I I z xyz g 4 4 1 16 0 14);
    [reflexivity | reflexivity | lia | lia | exact Exyz | evaluate | lia | lia
    | exact Eg | evaluate].
Defined.

Lemma masked_sample_is_zero_witness :
  exists xyz g sampled out,
    camera_points (ramp_feature 1) (identity_proj 1) (identity_proj 1)
      (flat_depth 1 (-1)) = Some xyz
    /\ warp_grid (ramp_feature 1) (identity_proj 1) (identity_proj 1)
         (flat_depth 1 (-1)) = Some g
    /\ grid_sample (ramp_feature 1) g kGridSampleZeros = Some sampled
    /\ DifferentiableWarping (ramp_feature 1) (identity_proj 1) (identity_proj 1)
         (flat_depth 1 (-1)) = Some out
    /\ at_ xyz [0; 2; 0; 14]%nat == -1
    /\ at_ sampled [0; 0; 0; 14]%nat = 0
    /\ at_ out [0; 0; 0; 3; 2]%nat = 0.
Proof.
  pose (f := ramp_feature 1). pose (I := identity_proj 1). pose (z := flat_depth 1 (-1)).
  pose (xyz := default f (camera_points f I I z)).
  pose (g := default f (warp_grid f I I z)).
  pose (sampled := default f (grid_sample f g kGridSampleZeros)).
  assert (Exyz : camera_points f I I z = Some xyz) by returns.
  assert (Eg : warp_grid f I I z = Some g) by returns.
  assert (Es : grid_sample f g kGridSampleZeros = Some sampled) by returns.
  exists xyz, g, sampled, (default f (DifferentiableWarping f I I z)).
  split; [exact Exyz|]. split; [exact Eg|]. split; [exact Es|]. split; [returns|].
  split; [evaluate|]. split; [|evaluate].
  apply (masked_sample_is_zero f I I z xyz g sampled 4 4 1 16 0 0 14);
    [reflexivity | reflexivity | lia | lia | exact Exyz | evaluate | lia | lia
    | exact Eg | exact Es | evaluate].
Defined.

End Warping.

(** ** InitDepth: noise and perturbation *)

Section ColdStartNoise.
Import torch.
Local Open Scope Q_scope.




End ColdStartNoise.

Section Perturbation.
Import torch.
Local Open Scope Q_scope.

Lemma view_inv {A} (t t' : Tensor A) (s : list nat) :
  view t s = Some t' ->
  numel (sizes t) = numel s
  /\ t' = mkTensor s (fun ix => at_ t (unravel (sizes t) (ravel s ix))).
Proof.
  unfold view. destruct (Nat.eqb_spec (numel (sizes t)) (numel s)); [|discriminate].
  by intros [= <-].
Qed.

Lemma view_is_Some {A} (t : Tensor A) (s : list nat) :
  numel (sizes t) = numel s ->
  view t s = Some (mkTensor s (fun ix => at_ t (unravel (sizes t) (ravel s ix)))).
Proof. intros H. unfold view. by rewrite (proj2 (Nat.eqb_eq _ _) H). Qed.

Lemma Qclamp_range (v lo hi : Q) : lo <= hi -> lo <= Qmin (Qmax v lo) hi <= hi.
Proof.
  intros Hle.
  destruct (Qmax_spec v lo) as [[? ->]|[? ->]];
    destruct (Qmin_spec lo hi) as [[? ?]|[? ?]];
    try (destruct (Qmin_spec v hi) as [[? ->]|[? ->]]); try lra.
  all: destruct (Qmin_spec lo hi) as [[? ->]|[? ->]]; lra.
Qed.

Lemma Qclamp_id (v lo hi : Q) : lo <= v <= hi -> Qmin (Qmax v lo) hi == v.
Proof.
  intros [H1 H2].
  destruct (Qmax_spec v lo) as [[? ->]|[? ->]];
    [destruct (Qmin_spec lo hi) as [[? ->]|[? ->]]
    |destruct (Qmin_spec v hi) as [[? ->]|[? ->]]]; lra.
Qed.

Lemma Qclamp_mono (u v lo hi : Q) :
  u <= v -> Qmin (Qmax u lo) hi <= Qmin (Qmax v lo) hi.
Proof.
  intros Huv.
  destruct (Qmax_spec u lo) as [[? ->]|[? ->]], (Qmax_spec v lo) as [[? ->]|[? ->]];
    repeat match goal with
           | |- context [Qmin ?a ?b] =>
               let H := fresh in destruct (Qmin_spec a b) as [[? H]|[? H]]; rewrite H
           end; lra.
Qed.

Lemma perturb_steps (m : nat) (j : nat) :
  (j < 2 * m)%nat ->
  at_ (arange (- Z.of_nat (2 * m) ÷ 2) (Z.of_nat (2 * m) ÷ 2))
      (unravel [Z.to_nat (Z.of_nat (2 * m) ÷ 2 - - Z.of_nat (2 * m) ÷ 2)]
         (ravel [1; 2 * m; 1; 1]%nat [0; j; 0; 0]%nat))
  = inject_Z (Z.of_nat j - Z.of_nat m).
Proof.
  intros Hj.
  assert (Hq : (Z.of_nat (2 * m) ÷ 2 = Z.of_nat m)%Z).
  { rewrite Nat2Z.inj_mul, Z.mul_comm. apply Z.quot_mul. lia. }
  assert (Hq' : (- Z.of_nat (2 * m) ÷ 2 = - Z.of_nat m)%Z).
  { rewrite Z.quot_opp_l by lia. by rewrite Hq. }
  rewrite Hq, Hq'. unfold arange, ravel, unravel. cbn -[Nat.mul Nat.div Nat.modulo Z.of_nat].
  rewrite Nat.div_1_r. f_equal. lia.
Qed.

Lemma broadcast_unit_depth (B n H W : nat) :
  broadcast_shapes [B; 1; H; W]%nat [B; n; H; W]%nat = Some [B; n; H; W]%nat.
Proof.
  unfold broadcast_shapes. cbn [reverse rev_append broadcast_rev].
  rewrite !Nat.eqb_refl. cbn [mbind option_bind].
  destruct (Nat.eqb_spec 1 n) as [<-|]; cbn; by rewrite ?Nat.eqb_refl.
Qed.

(** The perturbation branch in closed form, for an even number of
    samples. *)
Lemma perturb_forward_at (self : InitDepthImpl.t) rand (depth_init : Tensor Q)
    dmin dmax (B H W m : nat) :
  InitDepthImpl.num_samples self = (2 * m)%nat ->
  sizes depth_init = [B; 1; H; W]%nat ->
  exists out,
    InitDepthImpl.forward self rand (Some depth_init) dmin dmax B H W = Some out
    /\ sizes out = [B; (2 * m)%nat; H; W]
    /\ forall b j h w, (b < B)%nat -> (j < 2 * m)%nat -> (h < H)%nat -> (w < W)%nat ->
         at_ out [b; j; h; w]
         = 1 / Qmin (Qmax (1 / at_ depth_init [b; 0%nat; h; w]
                           + (1 / dmin - 1 / dmax) * InitDepthImpl.interval_scale self
                             * inject_Z (Z.of_nat j - Z.of_nat m))
                          (1 / dmax)) (1 / dmin).
Proof.
  intros Hn Hs. destruct depth_init as [s f]. cbn [sizes] in Hs. subst s.
  unfold InitDepthImpl.forward. rewrite Hn.
  replace (2 * m =? 1)%nat with false by (symmetry; apply Nat.eqb_neq; lia).
  rewrite view_is_Some; cycle 1.
  { unfold arange. cbn [sizes numel foldr].
    rewrite Z.quot_opp_l by lia.
    replace (Z.of_nat (2 * m) ÷ 2)%Z with (Z.of_nat m)
      by (rewrite Nat2Z.inj_mul, Z.mul_comm; symmetry; apply Z.quot_mul; lia).
    lia. }
  cbn [mbind option_bind]. unfold repeat, dim. cbn [sizes length Nat.leb Nat.sub replicate app].
  cbn [mbind option_bind zip_with].
  unfold add, map2, map. cbn [sizes].
  rewrite !Nat.mul_1_r, (Nat.mul_1_l (2 * m)).
  rewrite broadcast_unit_depth. cbn [mbind option_bind].
  eexists. split; [reflexivity|]. split; [reflexivity|].
  intros b j h w Hb Hj Hh Hw. cbn [at_ clamp map sizes].
  rewrite (bindex_in_range [B; (2 * m)%nat; H; W] [b; j; h; w])
    by (repeat (constructor; [done|]); constructor).
  assert (Hb0 : bindex [B; 1; H; W]%nat [b; j; h; w] = [b; 0; h; w]%nat).
  { unfold bindex. cbn [length Nat.sub drop zip_with Nat.eqb].
    f_equal; [|f_equal; f_equal; [|f_equal]].
    - destruct (Nat.eqb_spec B 1); lia.
    - destruct (Nat.eqb_spec H 1); lia.
    - destruct (Nat.eqb_spec W 1); lia. }
  rewrite Hb0. cbn [drop zip_with].
  rewrite !Nat.mod_1_r, (Nat.mod_small j) by lia.
  rewrite perturb_steps by lia. reflexivity.
Qed.

Lemma Qinv_le_swap (a b : Q) : 0 < a -> a <= b -> 1 / b <= 1 / a.
Proof.
  intros Ha Hab. apply Qle_shift_div_l; [exact Ha|].
  assert (1 / b * a == a / b) as -> by (field; lra).
  apply Qle_shift_div_r; lra.
Qed.

Lemma Qinv_inv (a : Q) : ~ a == 0 -> 1 / (1 / a) == a.
Proof. intros Ha. field. exact Ha. Qed.

(** With a previous depth map, [forward] puts [num_samples] hypotheses
    around it at every pixel, evenly spaced in inverse depth and clamped
    to the inverse-depth range: they lie in [depth_min, depth_max], do not
    increase with the hypothesis index, and the one at index
    [num_samples / 2] is the previous depth itself when that lies in the
    range. *)
Theorem perturbed_hypotheses (self : InitDepthImpl.t) (rand : index -> Q)
    (depth_init : Tensor Q) (depth_min depth_max : Q) (B H W m : nat) :
  InitDepthImpl.num_samples self = (2 * m)%nat ->
  sizes depth_init = [B; 1; H; W]%nat ->
  0 < depth_min -> depth_min <= depth_max ->
  0 <= InitDepthImpl.interval_scale self ->
  exists out,
    InitDepthImpl.forward self rand (Some depth_init) depth_min depth_max B H W
      = Some out
    /\ sizes out = [B; (2 * m)%nat; H; W]
    /\ forall b j h w, (b < B)%nat -> (j < 2 * m)%nat -> (h < H)%nat -> (w < W)%nat ->
         depth_min <= at_ out [b; j; h; w] <= depth_max
         /\ (forall i, (i <= j)%nat -> at_ out [b; j; h; w] <= at_ out [b; i; h; w])
         /\ (j = m -> depth_min <= at_ depth_init [b; 0%nat; h; w] <= depth_max ->
              at_ out [b; j; h; w] == at_ depth_init [b; 0%nat; h; w]).
Proof.
  intros Hn Hs Hmin Hle Hscale.
  destruct (perturb_forward_at self rand depth_init depth_min depth_max B H W m Hn Hs)
    as (out & Hout & Hsz & Hat).
  exists out. split; [exact Hout|]. split; [exact Hsz|].
  intros b j h w Hb Hj Hh Hw.
  assert (Hmax : 0 < 1 / depth_max) by (apply Qlt_shift_div_l; lra).
  assert (Hinv : 1 / depth_max <= 1 / depth_min) by (apply Qinv_le_swap; lra).
  assert (Hdmin : 1 / (1 / depth_min) == depth_min) by (apply Qinv_inv; lra).
  assert (Hdmax : 1 / (1 / depth_max) == depth_max) by (apply Qinv_inv; lra).
  assert (Hstep : 0 <= (1 / depth_min - 1 / depth_max) * InitDepthImpl.interval_scale self)
    by nra.
  split; [|split].
  - rewrite Hat by done.
    match goal with |- context [Qmin (Qmax ?v ?lo) ?hi] =>
      pose proof (Qclamp_range v lo hi Hinv) as [Hlo Hhi];
      set (c := Qmin (Qmax v lo) hi) in *
    end.
    split.
    + rewrite <- Hdmin. apply Qinv_le_swap; lra.
    + rewrite <- Hdmax. apply Qinv_le_swap; lra.
  - intros i Hij. rewrite !Hat by (done || lia).
    apply Qinv_le_swap.
    + match goal with |- context [Qmin (Qmax ?v ?lo) ?hi] =>
        pose proof (Qclamp_range v lo hi Hinv) as [Hlo Hhi] end. lra.
    + apply Qclamp_mono.
      assert (inject_Z (Z.of_nat i - Z.of_nat m) <= inject_Z (Z.of_nat j - Z.of_nat m))
        by (rewrite <- Zle_Qle; lia).
      nra.
  - intros -> [Hd1 Hd2]. rewrite Hat by done.
    rewrite Z.sub_diag. change (inject_Z 0) with 0.
    assert (H1 : 1 / depth_max <= 1 / at_ depth_init [b; 0%nat; h; w])
      by (apply Qinv_le_swap; lra).
    assert (H2 : 1 / at_ depth_init [b; 0%nat; h; w] <= 1 / depth_min)
      by (apply Qinv_le_swap; lra).
    rewrite Qclamp_id by lra.
    field. lra.
Qed.

Lemma perturbed_hypotheses_witness :
  exists out,
    InitDepthImpl.forward (InitDepthImpl.mk 8 (1 # 10)) (fun _ => 0)
      (Some (full [1; 1; 2; 2]%nat (3 # 2))) 1 2 1 2 2 = Some out
    /\ sizes out = [1; (2 * 4)%nat; 2; 2]%nat
    /\ forall b j h w, (b < 1)%nat -> (j < 2 * 4)%nat -> (h < 2)%nat -> (w < 2)%nat ->
         1 <= at_ out [b; j; h; w] <= 2
         /\ (forall i, (i <= j)%nat -> at_ out [b; j; h; w] <= at_ out [b; i; h; w])
         /\ (j = 4%nat ->
              1 <= at_ (full [1; 1; 2; 2]%nat (3 # 2)) [b; 0%nat; h; w] <= 2 ->
              at_ out [b; j; h; w] == at_ (full [1; 1; 2; 2]%nat (3 # 2)) [b; 0%nat; h; w]).
Proof.
  apply (perturbed_hypotheses (InitDepthImpl.mk 8 (1 # 10)) (fun _ => 0)
           (full [1; 1; 2; 2]%nat (3 # 2)) 1 2 1 2 2 4);
    [reflexivity | reflexivity | reflexivity | discriminate | discriminate].
Defined.

(** [arange(-n / 2, n / 2)] has [n] entries only for an even [n]: with a
    previous depth map, one sample returns that map unchanged and any other
    odd number of samples makes the [view] raise. *)
Theorem forward_odd_samples (self : InitDepthImpl.t) (rand : index -> Q)
    (depth_init : Tensor Q) (depth_min depth_max : Q) (B H W : nat) :
  Nat.Odd (InitDepthImpl.num_samples self) ->
  InitDepthImpl.forward self rand (Some depth_init) depth_min depth_max B H W
  = if (InitDepthImpl.num_samples self =? 1)%nat then Some depth_init else None.
Proof.
  intros [m Hm]. unfold InitDepthImpl.forward.
  destruct (InitDepthImpl.num_samples self =? 1)%nat; [done|].
  rewrite Hm. unfold view.
  replace (numel (sizes (arange (- Z.of_nat (2 * m + 1) ÷ 2) (Z.of_nat (2 * m + 1) ÷ 2)))
           =? numel [1; 2 * m + 1; 1; 1])%nat with false; [done|].
  symmetry. apply Nat.eqb_neq. unfold arange. cbn [sizes numel foldr].
  rewrite Z.quot_opp_l by lia.
  assert (Z.of_nat (2 * m + 1) ÷ 2 = Z.of_nat m)%Z as ->.
  { rewrite Z.quot_div_nonneg by lia.
    symmetry. apply (Z.div_unique _ _ _ 1); lia. }
  lia.
Qed.

Lemma forward_odd_samples_witness :
  InitDepthImpl.forward (InitDepthImpl.mk 3 (1 # 10)) (fun _ => 0)
    (Some (full [1; 1; 2; 2]%nat (3 # 2))) 1 2 1 2 2 = None.
Proof.
  apply (forward_odd_samples (InitDepthImpl.mk 3 (1 # 10)) (fun _ => 0)
           (full [1; 1; 2; 2]%nat (3 # 2)) 1 2 1 2 2).
  exists 1%nat. reflexivity.
Defined.

(** A previous depth map without the sample dimension, of shape
    [B; H; W], is aligned one position off against the offsets of shape
    [B; n; H; W]: unless the batch size is 1 or equal to the number of
    samples, the addition raises. *)
Theorem forward_flat_depth_raises (self : InitDepthImpl.t) (rand : index -> Q)
    (depth_init : Tensor Q) (depth_min depth_max : Q) (B H W : nat) :
  sizes depth_init = [B; H; W] ->
  InitDepthImpl.num_samples self <> 1%nat ->
  B <> 1%nat -> B <> InitDepthImpl.num_samples self ->
  InitDepthImpl.forward self rand (Some depth_init) depth_min depth_max B H W = None.
Proof.
  intros Hs Hn1 HB1 HBn. unfold InitDepthImpl.forward.
  rewrite (proj2 (Nat.eqb_neq _ _) Hn1).
  destruct (view _ _) as [ar|] eqn:Ev; [cbn [mbind option_bind]|done].
  apply view_inv in Ev as [_ ->].
  unfold repeat, dim. cbn [sizes length Nat.leb Nat.sub replicate app mbind option_bind zip_with].
  unfold add, map2, map. cbn [sizes]. rewrite Hs.
  rewrite !Nat.mul_1_r, Nat.mul_1_l.
  unfold broadcast_shapes. cbn [reverse rev_append broadcast_rev].
  rewrite !Nat.eqb_refl. cbn [mbind option_bind].
  rewrite (proj2 (Nat.eqb_neq _ _) HB1), (proj2 (Nat.eqb_neq _ _) HBn), (proj2 (Nat.eqb_neq _ _) Hn1).
  reflexivity.
Qed.

Lemma forward_flat_depth_raises_witness :
  InitDepthImpl.forward (InitDepthImpl.mk 8 (1 # 10)) (fun _ => 0)
    (Some (full [2; 2; 2]%nat (3 # 2))) 1 2 2 2 2 = None.
Proof.
  apply (forward_flat_depth_raises (InitDepthImpl.mk 8 (1 # 10)) (fun _ => 0)
           (full [2; 2; 2]%nat (3 # 2)) 1 2 2 2 2);
    [reflexivity | discriminate | discriminate | discriminate].
Defined.

End Perturbation.

(** ** Offset tables *)

Section OffsetTables.
Import PatchMatchModuleImpl.
Local Open Scope Z_scope.

Lemma push_doubled_eval_ring8 (dilation : Z) (tail eval : list offset) :
  exists eval',
    push_doubled_eval (seq 0 8) (ring8 dilation ++ tail) eval = Some eval'
    /\ length eval' = (length eval + if (dilation =? 0)%Z then 0 else 8)%nat.
Proof.
  unfold ring8. cbn [seq push_doubled_eval lookup list_lookup app mbind option_bind fst snd].
  destruct (Z.eqb_spec dilation 0) as [->|Hd].
  - cbn. eexists. split; [reflexivity | lia].
  - replace (- dilation =? 0) with false by (symmetry; apply Z.eqb_neq; lia).
    replace (dilation =? 0) with false by (symmetry; apply Z.eqb_neq; lia).
    cbn [andb Z.eqb]. eexists. split; [reflexivity|].
    rewrite !length_app. cbn [length]. lia.
Qed.

Lemma push_doubled_prop_16 (dilation : Z) :
  push_doubled_prop (seq 0 8) (ring8 dilation)
  = Some (ring8 dilation ++ ((fun o : offset => (2 * o.1, 2 * o.2)) <$> ring8 dilation)).
Proof. reflexivity. Qed.

Lemma CalcOffsets_lengths (propagation_neighbors evaluation_neighbors dilation : Z)
    (prop eval : list offset) :
  CalcOffsets propagation_neighbors evaluation_neighbors dilation = Some (prop, eval) ->
  length prop
  = (if bool_decide (propagation_neighbors ∈ [0; 4; 8; 16])
     then Z.to_nat propagation_neighbors else 0%nat)
  /\ length eval
     = (if bool_decide (evaluation_neighbors = 9) then 9%nat
        else if bool_decide (evaluation_neighbors = 17)
             then (if dilation =? 0 then 9%nat else 17%nat)
             else 0%nat).
Proof.
  unfold CalcOffsets. intros H.
  match type of H with
  | mbind _ ?e = _ => destruct e as [p|] eqn:Hp; [|discriminate]
  end.
  assert (Hprop : exists tail,
    length p = (if bool_decide (propagation_neighbors ∈ [0; 4; 8; 16])
                then Z.to_nat propagation_neighbors else 0%nat)
    /\ (8 <= length p -> p = ring8 dilation ++ tail)%nat).
  { destruct (Z.eqb_spec propagation_neighbors 0) as [->|N0];
      [|destruct (Z.eqb_spec propagation_neighbors 4) as [->|N4];
        [|destruct (Z.eqb_spec propagation_neighbors 8) as [->|N8];
          [|destruct (Z.eqb_spec propagation_neighbors 16) as [->|N16]]]].
    all: try rewrite push_doubled_prop_16 in Hp.
    all: injection Hp as <-.
    - exists []. split; [done|]. cbn. lia.
    - exists []. split; [done|]. cbn. lia.
    - exists []. split; [done|]. intros _. by rewrite app_nil_r.
    - eexists. split; [done|]. intros _. reflexivity.
    - exists []. split; [|cbn; lia].
      rewrite bool_decide_eq_false_2; [done|].
      rewrite !elem_of_cons, elem_of_nil. lia. }
  destruct Hprop as (tail & Hlen & Hring). clear Hp.
  cbn [mbind option_bind] in H. cbv zeta in H.
  destruct (Z.eqb_spec evaluation_neighbors 9) as [->|E9];
    [|destruct (Z.eqb_spec evaluation_neighbors 17) as [->|E17]].
  - injection H as <- <-. split; [exact Hlen | reflexivity].
  - destruct (push_doubled_eval _ _ _) as [e|] eqn:He; [|discriminate].
    injection H as <- <-. split; [exact Hlen|].
    assert (Hsome : is_Some (push_doubled_eval (seq 0 8) p (square9 (dilation - 1))))
      by (rewrite He; eauto).
    apply push_doubled_eval_is_Some in Hsome.
    assert (H8 : (8 <= length p)%nat).
    { apply Forall_forall with (x := 7%nat) in Hsome; [unfold offset in *; lia|].
      apply elem_of_seq. lia. }
    rewrite (Hring H8) in He.
    destruct (push_doubled_eval_ring8 dilation tail (square9 (dilation - 1)))
      as (e' & He' & Hlen').
    rewrite He' in He. injection He as ->. rewrite Hlen'.
    rewrite bool_decide_eq_false_2 by lia. rewrite bool_decide_eq_true_2 by done.
    cbn [length square9]. by destruct (dilation =? 0).
  - injection H as <- <-. split; [exact Hlen|].
    rewrite !bool_decide_eq_false_2 by done. reflexivity.
Qed.

(** The tables [CalcOffsets] leaves. The propagation table has exactly
    [propagation_neighbors] entries for the supported counts 0, 4, 8 and
    16, and is empty for any other count. The evaluation table has 9
    entries for 9 neighbors; for 17 neighbors it has 17 entries unless the
    dilation is 0, when every doubled offset is zero and skipped and only
    9 remain; for any other count it is empty. *)
Theorem CalcOffsets_table_sizes (propagation_neighbors evaluation_neighbors dilation : Z)
    (prop eval : list offset) :
  CalcOffsets propagation_neighbors evaluation_neighbors dilation = Some (prop, eval) ->
  length prop
  = (if bool_decide (propagation_neighbors ∈ [0; 4; 8; 16])
     then Z.to_nat propagation_neighbors else 0%nat)
  /\ length eval
     = (if bool_decide (evaluation_neighbors = 9) then 9%nat
        else if bool_decide (evaluation_neighbors = 17)
             then (if dilation =? 0 then 9%nat else 17%nat)
             else 0%nat).
Proof. apply CalcOffsets_lengths. Qed.

Lemma CalcOffsets_table_sizes_witness :
  exists prop eval,
    CalcOffsets 16 17 2 = Some (prop, eval)
    /\ length prop = 16%nat /\ length eval = 17%nat.
Proof.
  eexists _, _. split; [reflexivity|].
  apply (CalcOffsets_table_sizes 16 17 2). reflexivity.
Defined.

End OffsetTables.

(** ** Border sampling and the range of propagated depths *)

Section BorderSampling.
Import torch.
Local Open Scope Q_scope.

Lemma clip_coordinates_range (coord : Q) (n : nat) :
  (0 < n)%nat ->
  0 <= clip_coordinates coord n <= inject_Z (Z.of_nat n) - 1.
Proof.
  intros Hn. unfold clip_coordinates.
  assert (Hn1 : inject_Z (Z.of_nat n - 1) == inject_Z (Z.of_nat n) - 1).
  { unfold Z.sub. rewrite inject_Z_plus. reflexivity. }
  assert (H0 : 0 <= inject_Z (Z.of_nat n - 1)).
  { change 0 with (inject_Z 0). rewrite <- Zle_Qle. lia. }
  destruct (Qmax_spec coord 0) as [[? ->]|[? ->]];
    match goal with |- context [Qmin ?a ?b] =>
      destruct (Qmin_spec a b) as [[? ->]|[? ->]] end; lra.
Qed.

Lemma corner_bounds (plane : nat -> nat -> Q) (H W : nat) (iy ix : Z) (wt lo hi : Q) :
  (forall y x, (y < H)%nat -> (x < W)%nat -> lo <= plane y x <= hi) ->
  0 <= wt ->
  within_bounds_2d iy ix H W = true \/ wt == 0 ->
  lo * wt <= corner plane H W iy ix wt <= hi * wt.
Proof.
  intros Hp Hw Hin. unfold corner.
  destruct (within_bounds_2d iy ix H W) eqn:E.
  - unfold within_bounds_2d in E.
    apply andb_prop in E as [E E4]. apply andb_prop in E as [E E3].
    apply andb_prop in E as [E1 E2].
    apply Z.leb_le in E1, E3. apply Z.ltb_lt in E2, E4.
    destruct (Hp (Z.to_nat iy) (Z.to_nat ix)) as [H1 H2]; [lia|lia|].
    split; nra.
  - destruct Hin as [?|Hz]; [done|]. rewrite Hz. lra.
Qed.

Lemma floor_frac (v : Q) : 0 <= v - inject_Z (Qfloor v) /\ v - inject_Z (Qfloor v) < 1.
Proof.
  pose proof (Qfloor_le v). pose proof (Qlt_floor v) as Hlt.
  rewrite inject_Z_plus in Hlt. change (inject_Z 1) with 1 in Hlt. lra.
Qed.

Lemma floor_clipped (v : Q) (n : nat) :
  0 <= v <= inject_Z (Z.of_nat n) - 1 ->
  (0 <= Qfloor v < Z.of_nat n)%Z
  /\ ((Qfloor v + 1 < Z.of_nat n)%Z \/ v - inject_Z (Qfloor v) == 0).
Proof.
  intros [H0 H1].
  assert (Hf0 : (0 <= Qfloor v)%Z).
  { change 0%Z with (Qfloor 0). by apply Qfloor_resp_le. }
  assert (Hf1 : (Qfloor v <= Z.of_nat n - 1)%Z).
  { rewrite <- (Qfloor_Z (Z.of_nat n - 1)). apply Qfloor_resp_le.
    unfold Z.sub. rewrite inject_Z_plus. exact H1. }
  split; [lia|].
  destruct (Z.eq_dec (Qfloor v) (Z.of_nat n - 1)) as [He|Hne]; [right|left; lia].
  pose proof (Qfloor_le v) as Hle.
  assert (Hq : inject_Z (Qfloor v) == inject_Z (Z.of_nat n) - 1).
  { rewrite He. unfold Z.sub. rewrite inject_Z_plus. reflexivity. }
  lra.
Qed.

(** A bilinear sample with border padding is a convex combination of
    pixels of the image. *)
Lemma bilinear_border_bounds (plane : nat -> nat -> Q) (H W : nat) (gx gy lo hi : Q) :
  (0 < H)%nat -> (0 < W)%nat ->
  (forall y x, (y < H)%nat -> (x < W)%nat -> lo <= plane y x <= hi) ->
  lo <= bilinear_sample kBorder plane H W gx gy <= hi.
Proof.
  intros HH HW Hp. unfold bilinear_sample, compute_coordinates.
  set (ix := clip_coordinates (grid_sampler_unnormalize gx W) W).
  set (iy := clip_coordinates (grid_sampler_unnormalize gy H) H).
  destruct (floor_clipped ix W (clip_coordinates_range _ W HW)) as [Hfx Hex].
  destruct (floor_clipped iy H (clip_coordinates_range _ H HH)) as [Hfy Hey].
  destruct (floor_frac ix) as [Hax0 Hax1]. destruct (floor_frac iy) as [Hay0 Hay1].
  set (fx := Qfloor ix) in *. set (fy := Qfloor iy) in *.
  rewrite !inject_Z_plus. change (inject_Z 1) with 1.
  set (a := ix - inject_Z fx) in *. set (b := iy - inject_Z fy) in *.
  assert (Ea : inject_Z fx + 1 - ix == 1 - a) by (unfold a; ring).
  assert (Eb : inject_Z fy + 1 - iy == 1 - b) by (unfold b; ring).
  assert (Hin : forall y x, (0 <= y < Z.of_nat H)%Z -> (0 <= x < Z.of_nat W)%Z ->
            within_bounds_2d y x H W = true).
  { intros y x [? ?] [? ?]. unfold within_bounds_2d.
    rewrite !andb_true_iff, !Z.leb_le, !Z.ltb_lt. lia. }
  pose proof (corner_bounds plane H W fy fx
                ((inject_Z fx + 1 - ix) * (inject_Z fy + 1 - iy)) lo hi Hp) as C1.
  pose proof (corner_bounds plane H W fy (fx + 1)
                (a * (inject_Z fy + 1 - iy)) lo hi Hp) as C2.
  pose proof (corner_bounds plane H W (fy + 1) fx
                ((inject_Z fx + 1 - ix) * b) lo hi Hp) as C3.
  pose proof (corner_bounds plane H W (fy + 1) (fx + 1) (a * b) lo hi Hp) as C4.
  destruct C1 as [C1 C1']; [rewrite Ea, Eb; nra | left; apply Hin; lia |].
  destruct C2 as [C2 C2']; [rewrite Eb; nra | |].
  { destruct Hex as [?|Hz]; [left; apply Hin; lia | right; rewrite Hz; ring]. }
  destruct C3 as [C3 C3']; [rewrite Ea; nra | |].
  { destruct Hey as [?|Hz]; [left; apply Hin; lia | right; rewrite Hz; ring]. }
  destruct C4 as [C4 C4']; [nra | |].
  { destruct Hex as [?|Hz]; [|right; rewrite Hz; ring].
    destruct Hey as [?|Hz]; [left; apply Hin; lia | right; rewrite Hz; ring]. }
  set (c1 := corner _ _ _ fy fx _) in *. set (c2 := corner _ _ _ fy (fx + 1)%Z _) in *.
  set (c3 := corner _ _ _ (fy + 1)%Z fx _) in *.
  set (c4 := corner _ _ _ (fy + 1)%Z (fx + 1)%Z _) in *.
  rewrite Ea, Eb in *. split; nra.
Qed.

(** Propagation invents no depth: when every hypothesis of the input
    volume lies in [lo, hi], so does every hypothesis of the output, the
    propagated candidates being convex combinations of the middle
    hypothesis plane. *)
Theorem propagation_keeps_range (depth grid : Tensor Q) (B d H W k : nat)
    (depth_min depth_max lo hi : Q) :
  sizes depth = [B; d; H; W] -> sizes grid = [B; (k * H)%nat; W; 2%nat] ->
  (0 < d)%nat -> (0 < H)%nat -> (0 < W)%nat ->
  (forall b c h w, (b < B)%nat -> (c < d)%nat -> (h < H)%nat -> (w < W)%nat ->
     lo <= at_ depth [b; c; h; w] <= hi) ->
  exists out,
    PropagationImpl.forward depth grid depth_min depth_max = Some out
    /\ forall b i h w, (b < B)%nat -> (i < d + k)%nat -> (h < H)%nat -> (w < W)%nat ->
         lo <= at_ out [b; i; h; w] <= hi.
Proof.
  intros Hsd Hsg Hd HH HW Hrange.
  destruct (forward_sorts depth grid B d H W k depth_min depth_max Hsd Hsg Hd HH HW)
    as (all & -> & Hsa & Hall).
  destruct (sort_values_fiber all B (d + k) H W Hsa) as (out & -> & Hso & Hout).
  exists out. split; [done|]. intros b i h w Hb Hi Hh Hw.
  assert (Hin : at_ out [b; i; h; w] ∈ fiber out 1 [b; 0%nat; h; w]).
  { unfold fiber. rewrite Hso. cbn [lookup list_lookup default]. unfold Datatypes.id.
    apply list_elem_of_fmap. exists i. split; [done|]. apply elem_of_seq. lia. }
  rewrite Hout, merge_sort_Permutation, Hall in Hin by done.
  apply elem_of_app in Hin as [Hin|Hin].
  - unfold fiber in Hin. rewrite Hsd in Hin. cbn [lookup list_lookup default] in Hin.
    unfold Datatypes.id in Hin.
    apply list_elem_of_fmap in Hin as (c & -> & Hc%elem_of_seq).
    apply Hrange; (done || lia).
  - apply list_elem_of_fmap in Hin as (j & -> & Hj%elem_of_seq).
    unfold propagated. rewrite Hsd. cbn [lookup list_lookup default]. unfold Datatypes.id.
    apply bilinear_border_bounds; [done|done|].
    intros y x Hy Hx. apply Hrange; try done.
    apply Nat.div_lt; lia.
Qed.

Lemma propagation_keeps_range_witness :
  exists out,
    PropagationImpl.forward two_hypotheses one_neighbor 1 3 = Some out
    /\ forall b i h w, (b < 1)%nat -> (i < 2 + 1)%nat -> (h < 1)%nat -> (w < 1)%nat ->
         1 <= at_ out [b; i; h; w] <= 3.
Proof.
  apply (propagation_keeps_range two_hypotheses one_neighbor 1 2 1 1 1 1 3 1 3);
    [reflexivity | reflexivity | lia | lia | lia |].
  intros b c h w _ Hc _ _. destruct c as [|[|c]]; [| |lia]; split; discriminate.
Defined.

End BorderSampling.

(** ** Undefined tensors and the configuration vectors *)

Tactic Notation "bind_as" hyp(H) ident(a) ident(E) :=
  apply bind_ok in H; destruct H as (a & E & H).

Section UndefinedTensors.
Import Pipeline.
Context {T : Type} {ops : Ops T}.

Lemma tensor_safe_ok {A} (a : A) : tensor_safe (ok a).
Proof. done. Qed.

Lemma tensor_safe_call {A} (o : option A) : tensor_safe (call o).
Proof. by destruct o. Qed.

Lemma tensor_safe_nth {A} (v : list A) (i : nat) : tensor_safe (nth_ v i).
Proof. unfold nth_. by destruct (v !! i). Qed.

Lemma tensor_safe_bind {A B} (m : Result A) (k : A -> Result B) :
  tensor_safe m -> (forall a, m = ok a -> tensor_safe (k a)) -> tensor_safe (bind m k).
Proof.
  intros Hm Hk. destruct m as [e|a]; simpl.
  - intros [= ->]. by apply Hm.
  - by apply Hk.
Qed.

Ltac tensor_leaf :=
  first [ apply tensor_safe_ok | apply tensor_safe_call | apply tensor_safe_nth ].
Ltac tensor_step :=
  first [ tensor_leaf | apply tensor_safe_bind; [solve [tensor_leaf] | intros ? ?] ].

Lemma views_loop_tensor_safe (self : EvaluationImpl) ref_feature ref_proj_mtx depth
    src_proj_mtx view_weights shape i src_features acc :
  tensor_safe (views_loop self ref_feature ref_proj_mtx depth src_proj_mtx
                 view_weights shape i src_features acc).
Proof.
  revert i acc.
  induction src_features as [|src rest IH]; intros i [[weights ss] ws]; simpl.
  - tensor_step.
  - do 5 tensor_step.
    apply tensor_safe_bind.
    { destruct view_weights as [vw|]; [repeat tensor_step|].
      destruct (pixelwise_net self); [tensor_step | done]. }
    intros ? ?. do 5 tensor_step. apply IH.
Qed.

Lemma Evaluation_forward_tensor_safe (self : EvaluationImpl) ref_feature_in src_features
    ref_proj_mtx src_proj_mtx depth_init grid weight view_weights is_inverse :
  tensor_safe (Evaluation_forward self ref_feature_in src_features ref_proj_mtx
                 src_proj_mtx depth_init grid weight view_weights is_inverse).
Proof.
  unfold Evaluation_forward.
  do 6 tensor_step.
  apply tensor_safe_bind; [by apply views_loop_tensor_safe|].
  intros [[weights ss] ws] _.
  do 3 tensor_step.
  apply tensor_safe_bind.
  { destruct is_inverse; repeat tensor_step. }
  intros ? ?. apply tensor_safe_bind.
  { destruct view_weights; repeat tensor_step. }
  intros ? ?. tensor_step.
Qed.

(** The loop propagates only in iterations for which the constructor's
    condition registered the convolution that produces the grid. *)
Lemma iterations_loop_tensor_safe (self : PatchMatchModuleImpl) ref_feature src_features
    ref_proj_mtx src_proj_mtx depth_min depth_max batch_size height width
    propagation_grid evaluation_grid feature_weight iters st :
  Forall (fun iter =>
            (0 <? propagation_neighbors self)%Z
            && negb ((stage self =? 1)%Z && (Z.of_nat iter =? iterations self - 1)%Z)
            = true -> is_Some propagation_grid) iters ->
  tensor_safe (iterations_loop self ref_feature src_features ref_proj_mtx src_proj_mtx
                 depth_min depth_max batch_size height width
                 propagation_grid evaluation_grid feature_weight iters st).
Proof.
  intros Hall. revert st.
  induction Hall as [|iter rest Hiter _ IH]; intros [[depth score] vw]; simpl.
  - tensor_step.
  - tensor_step. apply tensor_safe_bind.
    { destruct (_ && _) eqn:E; [|tensor_step].
      destruct (Hiter eq_refl) as [g ->]. simpl. tensor_step. }
    intros ? ?. do 5 tensor_step.
    apply tensor_safe_bind; [by apply Evaluation_forward_tensor_safe|].
    intros [[d s] w] _. apply IH.
Qed.

Lemma iterations_loop_ran (self : PatchMatchModuleImpl) ref_feature src_features
    ref_proj_mtx src_proj_mtx depth_min depth_max batch_size height width
    propagation_grid evaluation_grid feature_weight iter rest st st' :
  iterations_loop self ref_feature src_features ref_proj_mtx src_proj_mtx
    depth_min depth_max batch_size height width
    propagation_grid evaluation_grid feature_weight (iter :: rest) st = ok st' ->
  is_Some st'.1.1 /\ is_Some st'.1.2 /\ is_Some st'.2.
Proof.
  destruct st as [[depth score] vw]. simpl. intros Hok.
  do 8 bind_inv Hok. destruct a6 as [[d s] w].
  apply iterations_loop_ok in Hok as Hst.
  destruct Hst as [-> | [? ?]]; [simpl; eauto|].
  split; [done|]. split; [|done].
  clear -Hok. revert d s w Hok.
  induction rest as [|i rest IH]; intros d s w Hok; simpl in Hok.
  - injection Hok as <-. simpl. eauto.
  - do 8 bind_inv Hok. destruct a6 as [[d' s'] w']. by eapply IH.
Qed.

(** A module built by its constructor never hands an undefined
    propagation grid to [Propagation]; the only undefined tensor [forward]
    can meet is the depth it returns, when no iteration ran and no initial
    depth was given. *)
Theorem PatchMatchModule_forward_grid_defined
    (propagation_range iterations num_samples : Z) (interval_scale : Q)
    (num_features group_correlations : nat)
    (propagation_neighbors evaluation_neighbors stage : Z)
    (self : PatchMatchModuleImpl) ref_feature src_features ref_proj_mtx src_proj_mtx
    depth_min depth_max depth_init view_weights_init :
  PatchMatchModule propagation_range iterations num_samples interval_scale
    num_features group_correlations propagation_neighbors evaluation_neighbors stage
  = ok self ->
  (0 < iterations)%Z \/ is_Some depth_init ->
  PatchMatchModule_forward self ref_feature src_features ref_proj_mtx
    src_proj_mtx depth_min depth_max depth_init view_weights_init
  <> throw UndefinedTensor.
Proof.
  intros Hnew Hiter. unfold PatchMatchModule in Hnew. bind_inv Hnew.
  injection Hnew as <-. change (tensor_safe (PatchMatchModule_forward
    {| Pipeline.propagation_neighbors := propagation_neighbors;
       Pipeline.evaluation_neighbors := evaluation_neighbors;
       Pipeline.iterations := iterations;
       Pipeline.stage := stage;
       Pipeline.interval_scale := interval_scale;
       prop_offset_orig := a.1;
       eval_offset_orig := a.2;
       propagation_conv :=
         if (0 <? propagation_neighbors)%Z && negb ((stage =? 1)%Z && (iterations =? 1)%Z)
         then Some (Conv2d num_features (2 * propagation_neighbors) propagation_range)
         else None;
       evaluation_conv := Conv2d num_features (2 * evaluation_neighbors) propagation_range;
       init_depth := InitDepthImpl.mk (Z.to_nat num_samples) interval_scale;
       evaluation := Evaluation group_correlations stage;
       feature_weight_net := FeatureWeightNet evaluation_neighbors group_correlations |}
    ref_feature src_features ref_proj_mtx src_proj_mtx depth_min depth_max
    depth_init view_weights_init)).
  unfold PatchMatchModule_forward.
  cbn [Pipeline.propagation_neighbors Pipeline.evaluation_neighbors Pipeline.iterations
       Pipeline.stage propagation_conv evaluation_conv feature_weight_net
       prop_offset_orig eval_offset_orig].
  do 3 tensor_step. apply tensor_safe_bind.
  { destruct (_ && _); repeat tensor_step. }
  intros grid Hgrid. do 4 tensor_step.
  apply tensor_safe_bind.
  { apply iterations_loop_tensor_safe.
    cbn [Pipeline.propagation_neighbors Pipeline.iterations Pipeline.stage].
    apply Forall_forall. intros iter Hin%elem_of_seq Hcond.
    destruct ((0 <? propagation_neighbors)%Z
              && negb ((stage =? 1)%Z && (iterations =? 1)%Z)) eqn:Econv.
    - do 3 bind_inv Hgrid. injection Hgrid as <-. eauto.
    - exfalso. apply andb_prop in Hcond as [Hpn Hlast]. rewrite Hpn in Econv.
      cbn [andb] in Econv. apply negb_false_iff, andb_prop in Econv as [Hs Hi].
      rewrite Hs in Hlast. cbn [andb] in Hlast. apply negb_true_iff in Hlast.
      apply Z.eqb_eq in Hi. apply Z.eqb_neq in Hlast. lia. }
  intros [[d s] w] Hloop.
  destruct Hiter as [Hpos|[d0 ->]].
  - cbn [Pipeline.iterations] in Hloop.
    destruct (Z.to_nat iterations) as [|n] eqn:En; [lia|].
    cbn [seq] in Hloop. apply iterations_loop_ran in Hloop as [[d' Hd] _].
    simpl in Hd. subst d. simpl. repeat tensor_step.
  - apply iterations_loop_ok in Hloop as [[= -> -> ->] | [[d' Hd] _]].
    + simpl. repeat tensor_step.
    + simpl in Hd. subst d. simpl. repeat tensor_step.
Qed.

Lemma PatchMatchModule_forward_defined (self : PatchMatchModuleImpl)
    ref_feature src_features ref_proj_mtx src_proj_mtx depth_min depth_max
    depth_init view_weights_init depth score view_weights :
  PatchMatchModule_forward self ref_feature src_features ref_proj_mtx
    src_proj_mtx depth_min depth_max depth_init view_weights_init
  = ok (depth, score, view_weights) ->
  ((0 < iterations self)%Z -> is_Some score /\ is_Some view_weights)
  /\ ((iterations self <= 0)%Z ->
      is_Some depth_init /\ score = None /\ view_weights = view_weights_init).
Proof.
  unfold PatchMatchModule_forward. intros Hok.
  do 9 bind_inv Hok. destruct a7 as [[d s] w].
  do 2 bind_inv Hok. injection Hok as <- <- <-.
  split.
  - intros Hpos. destruct (Z.to_nat (iterations self)) as [|n] eqn:En; [lia|].
    cbn [seq] in E7. apply iterations_loop_ran in E7 as (_ & Hs & Hw). done.
  - intros Hle. replace (Z.to_nat (iterations self)) with 0%nat in E7 by lia.
    simpl in E7. injection E7 as <- <- <-.
    destruct depth_init; [eauto | discriminate].
Qed.

(** What a stage returns is defined according to whether it iterated:
    after at least one iteration the score and the view weights are
    defined; with no iteration the stage needs an initial depth, returns
    no score and hands the initial view weights back. *)
Theorem PatchMatchModule_forward_results (self : PatchMatchModuleImpl)
    ref_feature src_features ref_proj_mtx src_proj_mtx depth_min depth_max
    depth_init view_weights_init depth score view_weights :
  PatchMatchModule_forward self ref_feature src_features ref_proj_mtx
    src_proj_mtx depth_min depth_max depth_init view_weights_init
  = ok (depth, score, view_weights) ->
  ((0 < iterations self)%Z -> is_Some score /\ is_Some view_weights)
  /\ ((iterations self <= 0)%Z ->
      is_Some depth_init /\ score = None /\ view_weights = view_weights_init).
Proof. apply PatchMatchModule_forward_defined. Qed.

Lemma make_stages_fields interval_scale propagation_range iterations num_samples
    propagation_neighbors evaluation_neighbors num_features group_correlations
    todo stages :
  make_stages interval_scale propagation_range iterations num_samples
    propagation_neighbors evaluation_neighbors num_features group_correlations todo
  = ok stages ->
  Forall2 (fun i m =>
             stage m = (Z.of_nat i + 1)%Z
             /\ interval_scale !! i = Some (Pipeline.interval_scale m)
             /\ is_Some (propagation_range !! i)
             /\ iterations !! i = Some (Pipeline.iterations m)
             /\ is_Some (num_samples !! i)
             /\ propagation_neighbors !! i = Some (Pipeline.propagation_neighbors m)
             /\ evaluation_neighbors !! i = Some (Pipeline.evaluation_neighbors m))
          todo stages.
Proof.
  revert stages. induction todo as [|i todo IH]; intros stages Hok; simpl in Hok.
  - injection Hok as <-. constructor.
  - do 10 bind_inv Hok. injection Hok as <-.
    constructor; [|by apply IH].
    unfold PatchMatchModule in E7. bind_inv E7. injection E7 as <-. simpl.
    unfold nth_ in *.
    repeat match goal with
           | H : match ?l !! ?k with _ => _ end = ok _ |- _ =>
               destruct (l !! k) eqn:?; [injection H as ->|discriminate H]
           end.
    repeat split; eauto.
Qed.





(** One round of the coarse-to-fine loop: the stage's module runs on the
    current depth and view weights, and its score is passed on as it
    is. *)
Lemma stages_loop_step (self : PatchMatchNetModuleImpl) ref_features src_features
    proj_matrices depth_min depth_max stage rest depth score view_weights st' :
  stages_loop self ref_features src_features proj_matrices depth_min depth_max
    (stage :: rest) (depth, score, view_weights) = ok st' ->
  exists m ref_feature src_feature ref_proj src_proj d s w d' w',
    patch_match self !! (stage - 1)%nat = Some m
    /\ PatchMatchModule_forward m ref_feature src_feature ref_proj src_proj
         depth_min depth_max depth view_weights = ok (d, s, w)
    /\ stages_loop self ref_features src_features proj_matrices depth_min depth_max
         rest (Some d', s, w') = ok st'.
Proof.
  rewrite stages_loop_cons. intros H.
  bind_as H sp Esp. bind_as H rp Erp. bind_as H sp' Esp'. bind_as H sl Esl.
  bind_as H spm Espm. bind_as H m Em. bind_as H rf Erf. bind_as H sf Esf.
  bind_as H res Eres. destruct res as [[d s] w]. bind_as H st Est.
  unfold nth_ in Em. destruct (patch_match self !! (stage - 1)%nat) as [m'|] eqn:Hm;
    [injection Em as ->|discriminate].
  exists m, rf, sf, rp, spm, d, s, w.
  destruct (1 <? stage)%nat.
  - bind_as Est d' Ed'. bind_as Est w0 Ew0. bind_as Est w' Ew'. injection Est as <-.
    by exists d', (Some w').
  - injection Est as <-. by exists d, w.
Qed.

(** The whole pipeline can return only if the coarsest stage (entry 2 of
    [iterations]) and the finest stage (entry 0) each iterate at least
    once: the coarsest stage starts from no depth at all, and the
    confidence is computed from the score of the finest stage. *)
Theorem PatchMatchNetModule_forward_needs_iterations (interval_scale : list Q)
    (propagation_range iterations num_samples
     propagation_neighbors evaluation_neighbors : list Z)
    (self : PatchMatchNetModuleImpl) (images proj_matrices : T)
    (depth_min depth_max : Q) (r : T * T) :
  PatchMatchNetModule interval_scale propagation_range iterations num_samples
    propagation_neighbors evaluation_neighbors = ok self ->
  PatchMatchNetModule_forward self images proj_matrices depth_min depth_max = ok r ->
  exists it0 it2,
    iterations !! 0%nat = Some it0 /\ iterations !! 2%nat = Some it2
    /\ (0 < it0)%Z /\ (0 < it2)%Z.
Proof.
  intros Hnew Hok. unfold PatchMatchNetModule in Hnew.
  do 2 bind_inv Hnew. injection Hnew as <-.
  apply make_stages_fields in E0 as Hf. cbn [kNumStages Nat.sub seq] in Hf.
  apply Forall2_cons_inv_l in Hf as (m0 & r0 & H0 & Hf & ->).
  apply Forall2_cons_inv_l in Hf as (m1 & r1 & H1 & Hf & ->).
  apply Forall2_cons_inv_l in Hf as (m2 & r2 & H2 & Hf & ->).
  apply Forall2_nil_inv_l in Hf as ->.
  destruct H2 as (_ & _ & _ & Ht2 & _). destruct H0 as (_ & _ & _ & Ht0 & _).
  exists (Pipeline.iterations m0), (Pipeline.iterations m2).
  split; [done|]. split; [done|].
  unfold PatchMatchNetModule_forward in Hok. cbn [feature refinement num_depth] in Hok.
  bind_as Hok ref_image Eri. bind_as Hok ref_features Erf. bind_as Hok num_images Eni.
  bind_as Hok src_features Esf. bind_as Hok st Est. destruct st as [[d s] w].
  bind_as Hok ref_image' Eri'. bind_as Hok depth Ed. bind_as Hok refined Er.
  bind_as Hok score Es. clear Hok.
  apply stages_loop_step in Est
    as (m & rf & sf & rp & sp & d3 & s3 & w3 & d3' & w3' & Hm & Hfw3 & Est).
  cbn in Hm. injection Hm as <-.
  apply PatchMatchModule_forward_defined in Hfw3 as [_ H3].
  assert (Hit2 : (0 < Pipeline.iterations m2)%Z).
  { destruct (Z.lt_ge_cases 0 (Pipeline.iterations m2)) as [?|Hle]; [done|].
    destruct (H3 Hle) as [[? ?] _]. discriminate. }
  split; [|exact Hit2].
  apply stages_loop_step in Est
    as (m' & rf2 & sf2 & rp2 & sp2 & d2 & s2 & w2 & d2' & w2' & _ & _ & Est).
  apply stages_loop_step in Est
    as (m'' & rf1 & sf1 & rp1 & sp1 & d1 & s1 & w1 & d1' & w1' & Hm & Hfw1 & Est).
  cbn in Hm. injection Hm as <-. simpl in Est. injection Est as <- <- <-.
  apply PatchMatchModule_forward_defined in Hfw1 as [_ H1'].
  destruct (Z.lt_ge_cases 0 (Pipeline.iterations m0)) as [?|Hle]; [done|].
  destruct (H1' Hle) as (_ & -> & _). discriminate.
Qed.

End UndefinedTensors.

Section UndefinedTensorsWitnesses.
Import Pipeline.

Lemma PatchMatchModule_forward_grid_defined_witness :
  exists self,
    PatchMatchModule (ops := unit_ops) 2 1 8 (1 # 10) 16 4 16 9 1 = ok self
    /\ PatchMatchModule_forward (ops := unit_ops) self tt [tt] tt [tt] 1 2 None None
       <> throw UndefinedTensor.
Proof.
  eexists. split; [reflexivity|].
  eapply (PatchMatchModule_forward_grid_defined (ops := unit_ops)
            2 1 8 (1 # 10) 16 4 16 9 1 _ tt [tt] tt [tt] 1 2 None None);
    [reflexivity | left; reflexivity].
Defined.

Lemma PatchMatchModule_forward_results_witness :
  exists self,
    PatchMatchModule (ops := unit_ops) 2 0 8 (1 # 10) 16 4 16 9 2 = ok self
    /\ PatchMatchModule_forward (ops := unit_ops) self tt [tt] tt [tt] 1 2
         (Some tt) (Some tt) = ok (tt, None, Some tt)
    /\ ((0 < iterations self)%Z -> is_Some (@None unit) /\ is_Some (Some tt))
    /\ ((iterations self <= 0)%Z ->
        is_Some (Some tt) /\ @None unit = None /\ Some tt = Some tt).
Proof.
  eexists. split; [reflexivity|]. split; [reflexivity|].
  apply (PatchMatchModule_forward_results (ops := unit_ops) _ tt [tt] tt [tt] 1 2
           (Some tt) (Some tt) tt None (Some tt)).
  reflexivity.
Defined.

Lemma PatchMatchNetModule_forward_needs_iterations_witness :
  exists self r,
    PatchMatchNetModule (ops := unit_ops) [1 # 10; 1 # 10; 1 # 10]%Q [2; 2; 2]%Z
      [1; 1; 1]%Z [8; 8; 16]%Z [16; 8; 0]%Z [9; 9; 9]%Z = ok self
    /\ PatchMatchNetModule_forward (ops := unit_ops) self tt tt 1 2 = ok r
    /\ exists it0 it2,
         [1; 1; 1]%Z !! 0%nat = Some it0 /\ [1; 1; 1]%Z !! 2%nat = Some it2
         /\ (0 < it0)%Z /\ (0 < it2)%Z.
Proof.
  eexists _, (tt, tt). split; [reflexivity|]. split; [reflexivity|].
  eapply (PatchMatchNetModule_forward_needs_iterations (ops := unit_ops)
            [1 # 10; 1 # 10; 1 # 10]%Q [2; 2; 2]%Z [1; 1; 1]%Z [8; 8; 16]%Z
            [16; 8; 0]%Z [9; 9; 9]%Z _ tt tt 1 2 (tt, tt));
    reflexivity.
Defined.

End UndefinedTensorsWitnesses.

(** ** Inverse depth regression *)

Section Regression.
Import torch EvaluationImpl.
Local Open Scope Q_scope.

Lemma broadcast_index_depth (B D H W : nat) :
  broadcast_shapes [1; D; 1; 1]%nat [B; D; H; W] = Some [B; D; H; W].
Proof.
  unfold broadcast_shapes. cbn [reverse rev_append broadcast_rev].
  rewrite !Nat.eqb_refl.
  destruct (Nat.eqb_spec 1 W), (Nat.eqb_spec 1 H), (Nat.eqb_spec 1 B); subst;
    cbn; by rewrite ?Nat.eqb_refl.
Qed.

Lemma select_is_Some {A} (t : Tensor A) (d i n : nat) :
  sizes t !! d = Some n -> (i < n)%nat ->
  select t d i = Some (mkTensor (delete d (sizes t)) (fun ix => at_ t (insert_at d i ix))).
Proof.
  intros Hn Hi. unfold select. rewrite Hn. cbn [mbind option_bind].
  by rewrite (proj2 (Nat.ltb_lt _ _) Hi).
Qed.

Lemma Qsum_weighted_bounds (f : nat -> Q) (c : nat -> Q) (M : Q) (l : list nat) :
  (forall i, i ∈ l -> 0 <= f i) -> (forall i, i ∈ l -> 0 <= c i <= M) ->
  0 <= Qsum ((fun i => c i * f i) <$> l) <= M * Qsum (f <$> l).
Proof.
  induction l as [|i l IH]; intros Hf Hc.
  - cbn. lra.
  - rewrite !fmap_cons. cbn [Qsum foldr]. fold (Qsum ((fun i => c i * f i) <$> l)).
    fold (Qsum (f <$> l)).
    destruct IH as [IH1 IH2].
    { intros j Hj. apply Hf. by right. } { intros j Hj. apply Hc. by right. }
    pose proof (Hf i (list_elem_of_here _ _)). pose proof (Hc i (list_elem_of_here _ _)).
    split; nra.
Qed.

(** The regressed depth in closed form. *)
Lemma InverseDepthRegression_at (depth score : Tensor Q) (B D H W : nat) :
  sizes depth = [B; D; H; W] -> sizes score = [B; D; H; W] -> (0 < D)%nat ->
  exists out,
    InverseDepthRegression depth score = Some out
    /\ sizes out = [B; H; W]
    /\ forall b h w, (b < B)%nat -> (h < H)%nat -> (w < W)%nat ->
         at_ out [b; h; w]
         = 1 / (1 / at_ depth [b; 0; h; w]%nat
                + (1 / at_ depth [b; (D - 1)%nat; h; w] - 1 / at_ depth [b; 0; h; w]%nat)
                  * Qsum ((fun i => inject_Z (Z.of_nat i) * at_ score [b; i; h; w])
                          <$> seq 0 D)
                  / (inject_Z (Z.of_nat D) - 1)).
Proof.
  intros Hsd Hss HD. unfold InverseDepthRegression, size. rewrite Hsd.
  cbn [lookup list_lookup mbind option_bind].
  rewrite view_is_Some by (cbn; lia). cbn [mbind option_bind].
  unfold mul, sub, add, map2, map, sum, dim. cbn [sizes]. rewrite Hss, broadcast_index_depth.
  cbn [mbind option_bind sizes length Nat.ltb Nat.leb].
  rewrite (select_is_Some depth 1 (D - 1) D) by (rewrite ?Hsd; (done || lia)).
  rewrite (select_is_Some depth 1 0 D) by (rewrite ?Hsd; (done || lia)).
  repeat progress (cbn [mbind option_bind sizes delete list_delete];
                   rewrite ?Hsd, ?broadcast_shapes_same).
  eexists. split; [reflexivity|]. split; [reflexivity|].
  intros b h w Hb Hh Hw. cbn [at_].
  rewrite !(bindex_in_range [B; H; W] [b; h; w])
    by (repeat (constructor; [done|]); constructor).
  cbn [insert_at take drop app].
  match goal with
  | |- context [Qsum (fiber ?t 1 ?ix)] =>
      assert (Hfib : fiber t 1 ix
                     = (fun i => inject_Z (Z.of_nat i) * at_ score [b; i; h; w]) <$> seq 0 D)
  end; [|by rewrite Hfib].
  unfold fiber. cbn [sizes lookup list_lookup default]. unfold Datatypes.id.
  apply list_fmap_ext. intros k i Hi%lookup_seq. destruct Hi as [-> Hi].
  cbn [at_ insert list_insert Nat.add].
  rewrite (bindex_in_range [B; D; H; W] [b; k; h; w])
    by (repeat (constructor; [done|]); constructor).
  f_equal.
  unfold bindex, arange, ravel, unravel.
  cbn -[Nat.div Nat.modulo Nat.mul Z.of_nat].
  replace (if (D =? 1)%nat then 0%nat else k) with k
    by (destruct (Nat.eqb_spec D 1); lia).
  rewrite Nat.div_1_r, Z.add_0_l. do 2 f_equal. lia.
Qed.
(** On a score volume that is a probability distribution over at least
    two hypotheses with positive first and last depth, the regressed
    inverse depth is a convex combination of the inverse depths of the
    first and the last hypothesis, weighted by the expected hypothesis
    index; so the regressed depth lies between those two depths. *)
Theorem regression_between_ends (depth score : Tensor Q) (B D H W : nat) :
  sizes depth = [B; D; H; W] -> sizes score = [B; D; H; W] -> (2 <= D)%nat ->
  distribution score ->
  (forall b h w, (b < B)%nat -> (h < H)%nat -> (w < W)%nat ->
     0 < at_ depth [b; 0; h; w]%nat /\ 0 < at_ depth [b; (D - 1)%nat; h; w]) ->
  exists out,
    InverseDepthRegression depth score = Some out
    /\ sizes out = [B; H; W]
    /\ forall b h w, (b < B)%nat -> (h < H)%nat -> (w < W)%nat ->
         (exists t, 0 <= t <= 1
            /\ 1 / at_ out [b; h; w]
               == (1 - t) * (1 / at_ depth [b; 0; h; w]%nat)
                  + t * (1 / at_ depth [b; (D - 1)%nat; h; w]))
         /\ Qmin (at_ depth [b; 0; h; w]%nat) (at_ depth [b; (D - 1)%nat; h; w])
            <= at_ out [b; h; w]
            <= Qmax (at_ depth [b; 0; h; w]%nat) (at_ depth [b; (D - 1)%nat; h; w]).
Proof.
  intros Hsd Hss HD Hdist Hpos.
  destruct (InverseDepthRegression_at depth score B D H W Hsd Hss) as (out & Hout & Hsz & Hat);
    [lia|].
  exists out. split; [exact Hout|]. split; [exact Hsz|].
  intros b h w Hb Hh Hw. rewrite (Hat b h w Hb Hh Hw).
  destruct (Hpos b h w Hb Hh Hw) as [Hd0 HdL].
  destruct (Hdist b h w) as [Hnn Hsum].
  { rewrite Hss. cbn. repeat (constructor; [done || lia|]). constructor. }
  rewrite Hss in Hnn. cbn [lookup list_lookup default] in Hnn. unfold Datatypes.id in Hnn.
  assert (Hfib : fiber score 1 [b; 0%nat; h; w]
                 = (fun i => at_ score [b; i; h; w]) <$> seq 0 D).
  { unfold fiber. rewrite Hss. reflexivity. }
  rewrite Hfib in Hsum.
  set (idx := Qsum ((fun i => inject_Z (Z.of_nat i) * at_ score [b; i; h; w]) <$> seq 0 D)).
  set (n1 := inject_Z (Z.of_nat D) - 1).
  assert (Hn1 : 1 <= n1).
  { destruct (inject_nat_range 1 D) as [_ H1]; [lia|]. exact H1. }
  assert (Hidx : 0 <= idx <= n1).
  { pose proof (Qsum_weighted_bounds (fun i => at_ score [b; i; h; w])
                  (fun i => inject_Z (Z.of_nat i)) n1 (seq 0 D)) as Hb'.
    cbv beta in Hb'. rewrite Hsum, Qmult_1_r in Hb'. apply Hb'.
    - intros i Hi%elem_of_seq. apply Hnn. lia.
    - intros i Hi%elem_of_seq. apply inject_nat_range. lia. }
  set (a := 1 / at_ depth [b; 0; h; w]%nat) in *.
  set (c := 1 / at_ depth [b; (D - 1)%nat; h; w]) in *.
  assert (Ha : 0 < a) by (apply Qlt_shift_div_l; lra).
  assert (Hc : 0 < c) by (apply Qlt_shift_div_l; lra).
  set (t := idx / n1).
  assert (Ht : 0 <= t <= 1).
  { unfold t. split; [apply Qle_shift_div_l; lra | apply Qle_shift_div_r; lra]. }
  assert (Hinv : a + (c - a) * idx / n1 == (1 - t) * a + t * c).
  { unfold t. field. lra. }
  assert (Hipos : 0 < (1 - t) * a + t * c) by nra.
  split.
  - exists t. split; [exact Ht|]. rewrite Hinv. field. lra.
  - rewrite Hinv.
    assert (Hd0' : at_ depth [b; 0; h; w]%nat == 1 / a) by (unfold a; field; lra).
    assert (HdL' : at_ depth [b; (D - 1)%nat; h; w] == 1 / c) by (unfold c; field; lra).
    destruct (Qmin_spec (at_ depth [b; 0; h; w]%nat) (at_ depth [b; (D - 1)%nat; h; w]))
      as [[Hle ->]|[Hlt ->]];
      destruct (Qmax_spec (at_ depth [b; 0; h; w]%nat) (at_ depth [b; (D - 1)%nat; h; w]))
      as [[Hle' ->]|[Hlt' ->]]; try lra.
    + assert (c <= a).
      { rewrite Hd0', HdL' in Hle. apply Qinv_le_swap in Hle; [|apply Qlt_shift_div_l; lra].
        revert Hle. assert (1 / (1 / a) == a) as -> by (field; lra).
        assert (1 / (1 / c) == c) as -> by (field; lra). done. }
      split.
      * rewrite Hd0'. apply Qinv_le_swap; [exact Hipos | nra].
      * rewrite HdL'. apply Qinv_le_swap; [exact Hc | nra].
    + assert (a <= c).
      { apply Qlt_le_weak in Hlt. rewrite Hd0', HdL' in Hlt.
        apply Qinv_le_swap in Hlt; [|apply Qlt_shift_div_l; lra].
        revert Hlt. assert (1 / (1 / a) == a) as -> by (field; lra).
        assert (1 / (1 / c) == c) as -> by (field; lra). done. }
      split.
      * rewrite HdL'. apply Qinv_le_swap; [exact Hipos | nra].
      * rewrite Hd0'. apply Qinv_le_swap; [exact Ha | nra].
Qed.

Lemma regression_between_ends_witness :
  exists out,
    InverseDepthRegression rising_depth two_peaks = Some out
    /\ sizes out = [1; 1; 1]%nat
    /\ forall b h w, (b < 1)%nat -> (h < 1)%nat -> (w < 1)%nat ->
         (exists t, 0 <= t <= 1
            /\ 1 / at_ out [b; h; w]
               == (1 - t) * (1 / at_ rising_depth [b; 0; h; w]%nat)
                  + t * (1 / at_ rising_depth [b; (4 - 1)%nat; h; w]))
         /\ Qmin (at_ rising_depth [b; 0; h; w]%nat) (at_ rising_depth [b; (4 - 1)%nat; h; w])
            <= at_ out [b; h; w]
            <= Qmax (at_ rising_depth [b; 0; h; w]%nat)
                    (at_ rising_depth [b; (4 - 1)%nat; h; w]).
Proof.
  apply (regression_between_ends rising_depth two_peaks 1 4 1 1);
    [reflexivity | reflexivity | lia | exact two_peaks_distribution |].
  intros b h w _ _ _. split; reflexivity.
Defined.

End Regression.

(** ** Refinement *)

Section Refinement.
Import torch RefinementImpl.
Local Open Scope Q_scope.

(** [forward] returns the bilinear upsampling of the depth it is given
    plus the output of the residual layers scaled by the depth range: the
    normalization to [0, 1] before the layers and its inverse after them
    cancel on the upsampled depth. *)
Theorem refinement_adds_scaled_residual (self : RefinementImpl.t)
    (image depth_init image_conv deconved concat res : Tensor Q)
    (depth_min depth_max : Q) (B H W : nat) :
  sizes depth_init = [B; 1; H; W]%nat -> (0 < H)%nat -> (0 < W)%nat ->
  ~ depth_max == depth_min ->
  conv self image = Some image_conv ->
  deconv self (map (fun v => (v - depth_min) / (depth_max - depth_min)) depth_init)
    = Some deconved ->
  cat [relu deconved; image_conv] 1 = Some concat ->
  residual self concat = Some res ->
  sizes res = [B; 1; 2 * H; 2 * W]%nat ->
  exists up out,
    interpolate depth_init PatchMatchNetModuleImpl.kInterpBilinear = Some up
    /\ forward self image depth_init depth_min depth_max = Some out
    /\ sizes out = [B; 2 * H; 2 * W]%nat
    /\ forall b y x, (b < B)%nat -> (y < 2 * H)%nat -> (x < 2 * W)%nat ->
         at_ out [b; y; x]
         == at_ up [b; 0; y; x]%nat + (depth_max - depth_min) * at_ res [b; 0; y; x]%nat.
Proof.
  intros Hs HH HW Hne Hconv Hdeconv Hcat Hres Hsr.
  unfold forward. rewrite Hconv. cbn [mbind option_bind].
  rewrite Hdeconv. cbn [mbind option_bind]. rewrite Hcat. cbn [mbind option_bind].
  unfold interpolate, map, PatchMatchNetModuleImpl.kInterpBilinear. cbn [sizes]. rewrite Hs.
  rewrite !Qfloor_double.
  replace ((0 <? H)%nat && (0 <? W)%nat && (0 <? 2 * H)%nat && (0 <? 2 * W)%nat) with true
    by (symmetry; rewrite !andb_true_iff, !Nat.ltb_lt; lia).
  cbn [mbind option_bind]. rewrite Hres. cbn [mbind option_bind].
  unfold add, map2. cbn [sizes]. rewrite Hsr, broadcast_shapes_same.
  cbn [mbind option_bind]. unfold squeeze. cbn [sizes lookup list_lookup mbind option_bind Nat.eqb
    delete list_delete].
  eexists _, _. split; [reflexivity|]. split; [reflexivity|]. split; [reflexivity|].
  intros b y x Hb Hy Hx. cbn [at_ insert_at take drop app].
  rewrite (bindex_in_range [B; 1; 2 * H; 2 * W]%nat [b; 0; y; x]%nat)
    by (repeat (constructor; [done || lia|]); constructor).
  cbn [lookup list_lookup default]. unfold Datatypes.id.
  set (sy := area_pixel_compute_source_index (1 / 2) y).
  set (sx := area_pixel_compute_source_index (1 / 2) x).
  unfold lerp. field. intros Hz. apply Hne. lra.
Qed.

Lemma refinement_adds_scaled_residual_witness :
  exists up out,
    interpolate (full [1; 1; 1; 1]%nat (3 # 2)) PatchMatchNetModuleImpl.kInterpBilinear
      = Some up
    /\ forward constant_layers (full [1; 3; 2; 2]%nat 0) (full [1; 1; 1; 1]%nat (3 # 2)) 1 2
       = Some out
    /\ sizes out = [1; 2 * 1; 2 * 1]%nat
    /\ forall b y x, (b < 1)%nat -> (y < 2 * 1)%nat -> (x < 2 * 1)%nat ->
         at_ out [b; y; x]
         == at_ up [b; 0; y; x]%nat
            + (2 - 1) * at_ (full [1; 1; 2; 2]%nat (1 # 4)) [b; 0; y; x]%nat.
Proof.
  eapply (refinement_adds_scaled_residual constant_layers
            (full [1; 3; 2; 2]%nat 0) (full [1; 1; 1; 1]%nat (3 # 2))
            (full [1; 8; 2; 2]%nat 0) (full [1; 8; 2; 2]%nat 0) _
            (full [1; 1; 2; 2]%nat (1 # 4)) 1 2 1 1 1);
    [reflexivity | lia | lia | discriminate | reflexivity | reflexivity
    | reflexivity | reflexivity | reflexivity].
Defined.

End Refinement.

(** ** Depth weights *)

Section DepthWeight.
Import torch PatchMatchModuleImpl.

Lemma sigmoid_range (x : R) :
  (-4 <= x <= 4)%R ->
  (1 / (1 + Rtrigo_def.exp 4) <= 1 / (1 + Rtrigo_def.exp (- x))
   <= 1 / (1 + Rtrigo_def.exp (- 4)))%R.
Proof.
  intros [Hlo Hhi].
  assert (H1 : (Rtrigo_def.exp (- x) <= Rtrigo_def.exp 4)%R).
  { destruct (Req_dec (- x) 4) as [->|]; [lra|]. left. apply exp_increasing. lra. }
  assert (H2 : (Rtrigo_def.exp (- 4) <= Rtrigo_def.exp (- x))%R).
  { destruct (Req_dec (- x) (- 4)) as [->|]; [lra|]. left. apply exp_increasing. lra. }
  pose proof (exp_pos (- x)). pose proof (exp_pos 4). pose proof (exp_pos (- 4)).
  unfold Rdiv. rewrite !Rmult_1_l. split; apply Rinv_le_contravar; lra.
Qed.

Lemma view_samples_index (B D k H W b d j h w : nat) :
  b < B -> d < D -> j < k -> h < H -> w < W ->
  unravel [B; D; k * H; W] (ravel [B; D; k; H; W] [b; d; j; h; w])
  = [b; d; j * H + h; w].
Proof.
  intros Hb Hd Hj Hh Hw.
  assert (Hjh : j * H + h < k * H) by nia.
  unfold ravel. cbn [zip zip_with foldl fst snd unravel numel foldr].
  replace (D * (k * H * (W * 1))) with (D * (k * H * W)) by lia.
  replace (k * H * (W * 1)) with (k * H * W) by lia.
  replace (W * 1) with W by lia.
  replace (((((0 * B + b) * D + d) * k + j) * H + h) * W + w)
    with (b * (D * (k * H * W)) + (d * (k * H * W) + ((j * H + h) * W + w))) by lia.
  assert (Hr : (j * H + h) * W + w < k * H * W) by nia.
  assert (Hr' : d * (k * H * W) + ((j * H + h) * W + w) < D * (k * H * W)) by nia.
  destruct (div_mod_add b (D * (k * H * W)) _ Hr') as [-> ->].
  destruct (div_mod_add d (k * H * W) _ Hr) as [-> ->].
  destruct (div_mod_add (j * H + h) W w Hw) as [-> ->].
  by rewrite Nat.div_1_r.
Qed.

Local Open Scope Q_scope.

(** The depth weights in closed form. *)
Lemma GetDepthWeight_at (evaluation_neighbors : nat) (interval_scale : Q)
    (depth grid : Tensor Q) (depth_min depth_max : Q) (B D H W : nat) :
  sizes depth = [B; D; H; W] ->
  sizes grid = [B; (evaluation_neighbors * H)%nat; W; 2%nat] ->
  (0 < H)%nat -> (0 < W)%nat ->
  let weight b d y x :=
    (1 / at_ depth [b; d; y; x] - 1 / depth_max) / (1 / depth_min - 1 / depth_max) in
  exists out,
    GetDepthWeight evaluation_neighbors interval_scale depth grid depth_min depth_max
      = Some out
    /\ sizes out = [B; D; evaluation_neighbors; H; W]
    /\ (forall ix, exists c, 0 <= c <= 4
          /\ at_ out ix = (1 / (1 + Rtrigo_def.exp (- Q2R (2 * (2 - c)))))%R)
    /\ forall b d j h w,
         (b < B)%nat -> (d < D)%nat -> (j < evaluation_neighbors)%nat ->
         (h < H)%nat -> (w < W)%nat ->
         at_ out [b; d; j; h; w]
         = (1 / (1 + Rtrigo_def.exp
              (- Q2R (2 * (2 - Qmin (Qmax
                   (Qabs (bilinear_sample kBorder (weight b d) H W
                            (at_ grid [b; (j * H + h)%nat; w; 0%nat])
                            (at_ grid [b; (j * H + h)%nat; w; 1%nat])
                          - weight b d h w) / interval_scale) 0) 4)))))%R.
Proof.
  intros Hsd Hsg HH HW weight. unfold GetDepthWeight, size. rewrite Hsd.
  cbn [lookup list_lookup mbind option_bind].
  unfold grid_sample, map. cbn [sizes]. rewrite Hsd, Hsg.
  rewrite Nat.eqb_refl, (proj2 (Nat.ltb_lt 0 H)), (proj2 (Nat.ltb_lt 0 W)) by lia.
  cbn [andb Nat.eqb mbind option_bind].
  rewrite view_is_Some by (cbn [sizes numel foldr]; lia).
  cbn [mbind option_bind]. unfold unsqueeze, dim. cbn [sizes]. rewrite ?Hsd.
  cbn [length Nat.leb mbind option_bind insert_at take drop app].
  unfold sub, map2. cbn [sizes].
  assert (Hbc : broadcast_shapes [B; D; evaluation_neighbors; H; W] [B; D; 1%nat; H; W]
                = Some [B; D; evaluation_neighbors; H; W]).
  { apply broadcast_shapes_ones. repeat (constructor; [auto|]). constructor. }
  rewrite Hbc. cbn [mbind option_bind].
  eexists. split; [reflexivity|]. split; [reflexivity|]. split.
  - intros ix. cbn [at_ real.sigmoid clamp map].
    eexists. split; [|reflexivity]. apply Qclamp_range. discriminate.
  - intros b d j h w Hb Hd Hj Hh Hw. cbn [at_ real.sigmoid clamp map].
    rewrite (bindex_in_range [B; D; evaluation_neighbors; H; W] [b; d; j; h; w])
      by (repeat (constructor; [done|]); constructor).
    assert (Hb1 : bindex [B; D; 1%nat; H; W] [b; d; j; h; w] = [b; d; 0%nat; h; w]).
    { unfold bindex. cbn [length Nat.sub drop zip_with Nat.eqb].
      repeat f_equal.
      - destruct (Nat.eqb_spec B 1); lia.
      - destruct (Nat.eqb_spec D 1); lia.
      - destruct (Nat.eqb_spec H 1); lia.
      - destruct (Nat.eqb_spec W 1); lia. }
    rewrite Hb1, view_samples_index by done.
    cbn [lookup list_lookup default delete list_delete]. unfold Datatypes.id.
    reflexivity.
Qed.

(** Whatever the depths and the grid, every depth weight lies between
    [sigmoid(-4)] and [sigmoid(4)]: the normalized inverse-depth difference
    is clamped to [0, 4] before the sigmoid, so no weight vanishes and the
    normalization of the weights never divides by zero. The hypotheses on
    the depths, the range and the interval scale keep every division of
    the function away from zero, where exact and floating-point arithmetic
    part. *)
Theorem depth_weights_bounded (evaluation_neighbors : nat) (interval_scale : Q)
    (depth grid : Tensor Q) (depth_min depth_max : Q) (B D H W : nat) :
  sizes depth = [B; D; H; W] ->
  sizes grid = [B; (evaluation_neighbors * H)%nat; W; 2%nat] ->
  (0 < H)%nat -> (0 < W)%nat ->
  0 < depth_min -> depth_min < depth_max -> ~ interval_scale == 0 ->
  (forall b d y x, (b < B)%nat -> (d < D)%nat -> (y < H)%nat -> (x < W)%nat ->
     ~ at_ depth [b; d; y; x] == 0) ->
  exists out,
    GetDepthWeight evaluation_neighbors interval_scale depth grid depth_min depth_max
      = Some out
    /\ sizes out = [B; D; evaluation_neighbors; H; W]
    /\ forall ix,
         (0 < 1 / (1 + Rtrigo_def.exp 4) <= at_ out ix
          /\ at_ out ix <= 1 / (1 + Rtrigo_def.exp (- 4)) < 1)%R.
Proof.
  intros Hsd Hsg HH HW _ _ _ _.
  destruct (GetDepthWeight_at evaluation_neighbors interval_scale depth grid
              depth_min depth_max B D H W Hsd Hsg HH HW) as (out & Hout & Hsz & Hin & _).
  exists out. split; [exact Hout|]. split; [exact Hsz|].
  intros ix. destruct (Hin ix) as (c & [Hc0 Hc4] & ->).
  assert (Hx : (-4 <= Q2R (2 * (2 - c)) <= 4)%R).
  { apply Qle_Rle in Hc0, Hc4.
    rewrite Q2R_mult, Q2R_minus.
    replace (Q2R 2) with 2%R by (unfold Q2R; simpl; lra).
    replace (Q2R 0) with 0%R in Hc0 by (unfold Q2R; simpl; lra).
    replace (Q2R 4) with 4%R in Hc4 by (unfold Q2R; simpl; lra).
    lra. }
  destruct (sigmoid_range _ Hx) as [H1 H2].
  pose proof (exp_pos 4). pose proof (exp_pos (- 4)).
  repeat split; try assumption.
  - apply Rdiv_lt_0_compat; lra.
  - unfold Rdiv. rewrite Rmult_1_l.
    apply Rlt_le_trans with (/ 1)%R; [apply Rinv_lt_contravar; lra | rewrite Rinv_1; lra].
Qed.

Lemma depth_weights_bounded_witness :
  exists out,
    GetDepthWeight 1 (1 # 10) two_hypotheses one_neighbor 1 3 = Some out
    /\ sizes out = [1; 2; 1; 1; 1]%nat
    /\ forall ix,
         (0 < 1 / (1 + Rtrigo_def.exp 4) <= at_ out ix
          /\ at_ out ix <= 1 / (1 + Rtrigo_def.exp (- 4)) < 1)%R.
Proof.
  apply (depth_weights_bounded 1 (1 # 10) two_hypotheses one_neighbor 1 3 1 2 1 1);
    [reflexivity | reflexivity | lia | lia | reflexivity | reflexivity | discriminate |].
  intros b d y x _ _ _ _. cbn. by destruct d.
Defined.

Lemma clamp_zero (v : Q) : v == 0 -> Qmin (Qmax v 0) 4 == 0.
Proof. intros Hv. rewrite Qclamp_id; [exact Hv | lra]. Qed.

(** Where a depth hypothesis is constant over the image, every neighbor
    has the inverse depth of the pixel itself and gets the largest weight,
    [sigmoid(4)]. *)
Theorem depth_weights_of_flat_plane (evaluation_neighbors : nat) (interval_scale : Q)
    (depth grid : Tensor Q) (depth_min depth_max : Q) (B D H W : nat) (z : nat -> nat -> Q) :
  sizes depth = [B; D; H; W] ->
  sizes grid = [B; (evaluation_neighbors * H)%nat; W; 2%nat] ->
  (0 < H)%nat -> (0 < W)%nat ->
  0 < depth_min -> depth_min < depth_max -> ~ interval_scale == 0 ->
  (forall b d, ~ z b d == 0) ->
  (forall b d y x, (y < H)%nat -> (x < W)%nat -> at_ depth [b; d; y; x] = z b d) ->
  exists out,
    GetDepthWeight evaluation_neighbors interval_scale depth grid depth_min depth_max
      = Some out
    /\ forall b d j h w,
         (b < B)%nat -> (d < D)%nat -> (j < evaluation_neighbors)%nat ->
         (h < H)%nat -> (w < W)%nat ->
         at_ out [b; d; j; h; w] = (1 / (1 + Rtrigo_def.exp (- 4)))%R.
Proof.
  intros Hsd Hsg HH HW _ _ Hscale _ Hflat.
  destruct (GetDepthWeight_at evaluation_neighbors interval_scale depth grid
              depth_min depth_max B D H W Hsd Hsg HH HW) as (out & Hout & _ & _ & Hat).
  exists out. split; [exact Hout|].
  intros b d j h w Hb Hd Hj Hh Hw. rewrite (Hat b d j h w) by done.
  do 4 f_equal.
  set (c := (1 / z b d - 1 / depth_max) / (1 / depth_min - 1 / depth_max)).
  match goal with
  | |- context [bilinear_sample kBorder ?p H W ?gx ?gy] =>
      pose proof (bilinear_border_bounds p H W gx gy c c HH HW) as Hs;
      set (s := bilinear_sample kBorder p H W gx gy) in *
  end.
  destruct Hs as [Hs1 Hs2].
  { intros y x Hy Hx. rewrite (Hflat b d y x Hy Hx). fold c. lra. }
  rewrite (Hflat b d h w Hh Hw). fold c.
  assert (Hzero : Qabs (s - c) / interval_scale == 0).
  { assert (s - c == 0) as -> by lra. change (Qabs 0) with 0. unfold Qdiv. ring. }
  replace (-4)%R with (- Q2R 4)%R by (unfold Q2R; simpl; lra).
  f_equal. apply Qeq_eqR. rewrite (clamp_zero _ Hzero). reflexivity.
Qed.

Lemma depth_weights_of_flat_plane_witness :
  exists out,
    GetDepthWeight 1 (1 # 10) two_hypotheses one_neighbor 1 3 = Some out
    /\ forall b d j h w,
         (b < 1)%nat -> (d < 2)%nat -> (j < 1)%nat -> (h < 1)%nat -> (w < 1)%nat ->
         at_ out [b; d; j; h; w] = (1 / (1 + Rtrigo_def.exp (- 4)))%R.
Proof.
  apply (depth_weights_of_flat_plane 1 (1 # 10) two_hypotheses one_neighbor 1 3 1 2 1 1
           (fun _ d => if bool_decide (d = 0%nat) then 3 else 1));
    [reflexivity | reflexivity | lia | lia | reflexivity | reflexivity | discriminate
    | intros b d; by destruct d |].
  intros b d y x _ _. cbn. by destruct d.
Defined.

End DepthWeight.

(** ** Sampling grids of the neighbours *)

Section Grid.
Import torch PatchMatchModuleImpl.
Local Open Scope Q_scope.

Lemma neighbor_grids_spec (xy off : Tensor Q) (B C P : nat) (orig : list offset) (i : nat) :
  sizes xy = [B; 2; P]%nat -> sizes off = [B; C; P] ->
  (2 * (i + length orig) <= C)%nat ->
  exists gs,
    neighbor_grids xy off i orig = Some gs
    /\ length gs = length orig
    /\ forall k o, orig !! k = Some o ->
         exists g, gs !! k = Some g /\ sizes g = [B; 2; 1; P]%nat
           /\ forall b c p, (b < B)%nat -> (c < 2)%nat -> (p < P)%nat ->
                at_ g [b; c; 0; p]%nat = at_ (moved_grid xy off B P (i + k) o) [b; c; 0; p]%nat.
Proof.
  intros Hxy Hoff. revert i. induction orig as [|o rest IH]; intros i Hlen.
  - exists []. split; [done|]. split; [done|]. intros k o Hk. done.
  - cbn [length] in Hlen. cbn [neighbor_grids].
    rewrite (select_is_Some off 1 (2 * i) C) by (rewrite ?Hoff; (done || lia)).
    rewrite (select_is_Some off 1 (2 * i + 1) C) by (rewrite ?Hoff; (done || lia)).
    unfold unsqueeze, cat, add, map2, map, dim.
    repeat progress
      (cbn [sizes forallb delete list_delete length Nat.ltb Nat.leb andb mbind option_bind
            insert_at take drop app fmap list_fmap lookup list_lookup default sum_list
            sum_list_with insert list_insert Nat.add];
       unfold Datatypes.id;
       rewrite ?Hoff, ?Hxy, ?broadcast_shapes_same, ?bool_decide_eq_true_2 by done).
    destruct (IH (S i)) as (gs & -> & Hl & Hgs); [lia|].
    cbn [mbind option_bind]. eexists. split; [reflexivity|]. split; [cbn; lia|].
    intros [|k] o' Hk; cbn [lookup list_lookup] in *.
    + injection Hk as <-. eexists. split; [reflexivity|]. split; [reflexivity|].
      intros b c p Hb Hc Hp. cbn [at_ moved_grid delete list_delete lookup list_lookup default].
      unfold Datatypes.id.
      rewrite (bindex_in_range [B; 2; P]%nat [b; c; p])
        by (repeat (constructor; [done|]); constructor).
      rewrite Nat.add_0_r. f_equal.
      destruct c as [|[|c]]; [| |lia];
        cbn [cat_at sizes lookup list_lookup default Nat.ltb Nat.leb at_ insert list_insert
             delete list_delete insert_at take drop app Nat.sub];
        unfold Datatypes.id; reflexivity.
    + destruct (Hgs k o' Hk) as (g & Hg & Hsz & Hat).
      exists g. split; [exact Hg|]. split; [exact Hsz|].
      intros b c p Hb Hc Hp. rewrite Hat by done.
      replace (S i + k)%nat with (i + S k)%nat by lia. reflexivity.
Qed.

Lemma select_None {A} (t : Tensor A) (d i n : nat) :
  sizes t !! d = Some n -> (n <= i)%nat -> select t d i = None.
Proof.
  intros Hn Hi. unfold select. rewrite Hn. cbn [mbind option_bind].
  by rewrite (proj2 (Nat.ltb_ge _ _) Hi).
Qed.

Lemma neighbor_grids_None (xy off : Tensor Q) (B C P : nat) (orig : list offset) (i : nat) :
  sizes off = [B; C; P] -> (2 * i <= C)%nat -> (C < 2 * (i + length orig))%nat ->
  neighbor_grids xy off i orig = None.
Proof.
  intros Hoff. revert i. induction orig as [|o rest IH]; intros i Hi Hlen.
  - cbn [length] in Hlen. lia.
  - cbn [length] in Hlen. cbn [neighbor_grids].
    destruct (decide (C <= 2 * i + 1)%nat) as [Hc|Hc].
    + destruct (decide (C <= 2 * i)%nat) as [Hc'|Hc'].
      * by rewrite (select_None off 1 (2 * i) C) by (rewrite ?Hoff; done).
      * rewrite (select_None off 1 (2 * i + 1) C) by (rewrite ?Hoff; done).
        destruct (select off 1 (2 * i)) as [sx|]; [cbn [mbind option_bind]|done].
        by destruct (unsqueeze sx 1).
    + rewrite (IH (S i)) by lia.
      repeat match goal with
             | |- mbind _ ?e = None => destruct e; cbn [mbind option_bind]; [|done]
             end.
      done.
Qed.

Lemma cat_at_units {A} (d : nat) (t0 : Tensor A) (ts : list (Tensor A)) (k : nat) (g : Tensor A) :
  Forall (fun t => sizes t !! d = Some 1%nat) ts ->
  ts !! k = Some g -> cat_at d t0 ts k = (g, 0%nat).
Proof.
  intros Hall. revert k. induction Hall as [|t ts Ht _ IH]; intros k Hk; [done|].
  cbn [cat_at]. rewrite Ht. cbn [default]. unfold Datatypes.id.
  destruct k as [|k]; cbn [lookup list_lookup] in Hk.
  - injection Hk as ->. reflexivity.
  - cbn [Nat.ltb Nat.leb]. replace (S k - 1)%nat with k by lia. by apply IH.
Qed.

Lemma cat_units (gs : list (Tensor Q)) (B P : nat) (g0 : Tensor Q) :
  gs !! 0%nat = Some g0 ->
  Forall (fun g => sizes g = [B; 2; 1; P]%nat) gs ->
  exists t, cat gs 2 = Some t
    /\ sizes t = [B; 2%nat; length gs; P]
    /\ forall b c k p g, gs !! k = Some g ->
         at_ t [b; c; k; p] = at_ g [b; c; 0; p]%nat.
Proof.
  intros H0 Hall. destruct gs as [|g gs']; [done|]. injection H0 as ->.
  unfold cat.
  assert (Hchk : forallb (fun t => bool_decide (delete 2%nat (sizes t) = delete 2%nat (sizes g0))
                                   && (2 <? dim t)%nat) (g0 :: gs') = true).
  { apply forallb_forall. intros t Ht%list_elem_of_In.
    rewrite Forall_forall in Hall.
    rewrite (Hall t Ht), (Hall g0 (list_elem_of_here _ _)).
    unfold dim. rewrite (Hall t Ht). by rewrite bool_decide_eq_true_2. }
  rewrite Hchk. eexists. split; [reflexivity|]. cbn [sizes]. split.
  - rewrite (Forall_inv Hall).
    cbn [insert list_insert]. do 2 f_equal. f_equal.
    clear -Hall. rewrite Forall_forall in Hall.
    induction (g0 :: gs') as [|t l IH]; [done|].
    cbn [fmap list_fmap sum_list sum_list_with length].
    rewrite (Hall t (list_elem_of_here _ _)). cbn [lookup list_lookup default].
    cbn [fmap list_fmap] in IH. rewrite IH; [done|].
    intros t' Ht'. apply Hall. by right.
  - intros b c k p g Hg. cbn [at_ lookup list_lookup default]. unfold Datatypes.id.
    rewrite (cat_at_units 2 g0 (g0 :: gs') k g); [done| |done].
    eapply Forall_impl; [exact Hall|]. intros t ->. done.
Qed.


Lemma GetGrid_base (off : Tensor Q) (orig : list offset) (nn B H W : nat) :
  exists xy,
    sizes xy = [B; 2; H * W]%nat
    /\ (forall b h w, (b < B)%nat -> (h < H)%nat -> (w < W)%nat ->
          at_ xy [b; 0; h * W + w]%nat = inject_Z (Z.of_nat w)
          /\ at_ xy [b; 1; h * W + w]%nat = inject_Z (Z.of_nat h))
    /\ GetGrid off orig nn B H W
       = (xy_grids ← neighbor_grids xy off 0 orig;
          xy_grid ← cat xy_grids 2;
          xs ← select xy_grid 1 0;
          let x_norm := map (fun v => v / ((inject_Z (Z.of_nat W) - 1) / 2) - 1) xs in
          ys ← select xy_grid 1 1;
          let y_norm := map (fun v => v / ((inject_Z (Z.of_nat H) - 1) / 2) - 1) ys in
          both ← stack [x_norm; y_norm] 3;
          view both [B; nn * H; W; 2]%nat).
Proof.
  unfold GetGrid, meshgrid, arange. cbn [sizes mbind option_bind fst snd].
  rewrite !Z.sub_0_r, !Nat2Z.id.
  rewrite !view_is_Some by (cbn; lia).
  unfold stack, unsqueeze, repeat, dim.
  repeat progress
    (cbn [sizes forallb length Nat.ltb Nat.leb andb mbind option_bind
          insert_at take drop app Nat.sub replicate zip_with];
     rewrite ?bool_decide_eq_true_2 by done).
  eexists. split; [|split; [|reflexivity]].
  - cbn [sizes]. f_equal; [lia|]. f_equal. f_equal. lia.
  - intros b h w Hb Hh Hw.
    cbn [at_ delete list_delete lookup list_lookup default zip_with drop take].
    assert (Hp : (h * W + w < H * W)%nat) by nia.
    change (0 mod 2)%nat with 0%nat. change (1 mod 2)%nat with 1%nat.
    unfold Datatypes.id. cbn [lookup list_lookup default at_].
    rewrite Nat.mod_small by exact Hp.
    unfold ravel. cbn [zip zip_with foldl fst snd unravel numel foldr drop take
                       lookup list_lookup default].
    rewrite !Nat.mul_1_r, Nat.div_1_r, Nat.mul_0_l, Nat.add_0_l.
    destruct (div_mod_add h W w Hw) as [-> ->]. rewrite !Z.add_0_l. done.
Qed.

Lemma GetGrid_stacked (off : Tensor Q) (orig : list offset) (nn B H W : nat) :
  sizes off = [B; 2 * nn; H * W]%nat ->
  (0 < length orig <= nn)%nat ->
  exists both,
    GetGrid off orig nn B H W = view both [B; nn * H; W; 2]%nat
    /\ sizes both = [B; length orig; (H * W)%nat; 2%nat]
    /\ forall b j h w o, (b < B)%nat -> (h < H)%nat -> (w < W)%nat ->
         orig !! j = Some o ->
         at_ both [b; j; h * W + w; 0]%nat
         = (inject_Z (Z.of_nat w) + (inject_Z (snd o) + at_ off [b; 2 * j; h * W + w]%nat))
           / ((inject_Z (Z.of_nat W) - 1) / 2) - 1
         /\ at_ both [b; j; h * W + w; 1]%nat
         = (inject_Z (Z.of_nat h) + (inject_Z (fst o) + at_ off [b; 2 * j + 1; h * W + w]%nat))
           / ((inject_Z (Z.of_nat H) - 1) / 2) - 1.
Proof.
  intros Hoff [Hpos Hle].
  destruct (GetGrid_base off orig nn B H W) as (xy & Hxy & Hxyat & ->).
  destruct (neighbor_grids_spec xy off B (2 * nn) (H * W) orig 0 Hxy Hoff) as (gs & -> & Hlen & Hgs);
    [cbn [Nat.add]; lia|].
  cbn [mbind option_bind].
  assert (Hall : Forall (fun g : Tensor Q => sizes g = [B; 2; 1; H * W]%nat) gs).
  { apply Forall_lookup. intros k g Hg.
    assert (Hk : (k < length orig)%nat) by (rewrite <- Hlen; by eapply lookup_lt_Some).
    destruct (lookup_lt_is_Some_2 orig k Hk) as [o Ho].
    destruct (Hgs k o Ho) as (g' & Hg' & Hsz & _). congruence. }
  destruct gs as [|g0 gs']; [cbn [length] in Hlen; lia|].
  destruct (cat_units (g0 :: gs') B (H * W) g0 eq_refl Hall) as (t & -> & Hszt & Htat).
  cbn [mbind option_bind].
  rewrite (select_is_Some t 1 0 2) by (rewrite ?Hszt; (done || lia)).
  rewrite (select_is_Some t 1 1 2) by (rewrite ?Hszt; (done || lia)).
  cbn [mbind option_bind]. cbv zeta.
  unfold stack, map, dim.
  repeat progress
    (cbn [sizes forallb length Nat.ltb Nat.leb andb mbind option_bind delete list_delete
          insert_at take drop app];
     rewrite ?Hszt, ?bool_decide_eq_true_2 by done).
  eexists. split; [reflexivity|]. split.
  - cbn [sizes]. cbn [length] in Hlen. by rewrite Hlen.
  - intros b j h w o Hb Hh Hw Ho.
    destruct (Hgs j o Ho) as (g & Hg & _ & Hgat).
    destruct (Hxyat b h w Hb Hh Hw) as [Hx Hy].
    assert (Hp : (h * W + w < H * W)%nat) by nia.
    cbn [at_ lookup list_lookup default delete list_delete insert_at take drop app].
    unfold Datatypes.id.
    cbn [at_ lookup list_lookup default delete list_delete insert_at take drop app].
    rewrite !(Htat _ _ _ _ g Hg), !Hgat by (done || lia).
    cbn [at_ moved_grid lookup list_lookup default Nat.add].
    unfold Datatypes.id. by rewrite Hx, Hy.
Qed.

Lemma view_grid_index (B k H W b j h w c : nat) :
  (b < B)%nat -> (j < k)%nat -> (h < H)%nat -> (w < W)%nat -> (c < 2)%nat ->
  unravel [B; k; H * W; 2]%nat (ravel [B; k * H; W; 2]%nat [b; j * H + h; w; c]%nat)
  = [b; j; h * W + w; c]%nat.
Proof.
  intros Hb Hj Hh Hw Hc.
  unfold ravel. cbn [zip zip_with foldl fst snd unravel numel foldr].
  rewrite !Nat.mul_1_r, Nat.mul_0_l, Nat.add_0_l.
  replace ((((b * (k * H) + (j * H + h)) * W + w) * 2 + c))%nat
    with (b * (k * (H * W * 2)) + (j * (H * W * 2) + ((h * W + w) * 2 + c)))%nat by lia.
  assert (Hp : (h * W + w < H * W)%nat) by nia.
  assert (H1 : ((h * W + w) * 2 + c < H * W * 2)%nat) by lia.
  assert (H2 : (j * (H * W * 2) + ((h * W + w) * 2 + c) < k * (H * W * 2))%nat) by nia.
  destruct (div_mod_add b (k * (H * W * 2)) _ H2) as [-> ->].
  destruct (div_mod_add j (H * W * 2) _ H1) as [-> ->].
  destruct (div_mod_add (h * W + w) 2 c Hc) as [-> ->].
  by rewrite Nat.div_1_r.
Qed.

Lemma GetGrid_is_Some_iff (off : Tensor Q) (orig : list offset) (nn B H W : nat) :
  sizes off = [B; 2 * nn; H * W]%nat ->
  (0 < B)%nat -> (0 < H)%nat -> (0 < W)%nat ->
  is_Some (GetGrid off orig nn B H W) <-> length orig = nn /\ (0 < nn)%nat.
Proof.
  intros Hoff HB HH HW.
  destruct (decide (nn < length orig)%nat) as [Hgt|Hle].
  { destruct (GetGrid_base off orig nn B H W) as (xy & _ & _ & ->).
    rewrite (neighbor_grids_None xy off B (2 * nn) (H * W) orig 0 Hoff) by (cbn [Nat.add]; lia).
    cbn [mbind option_bind]. split; [by intros [? ?]|lia]. }
  destruct (decide (length orig = 0)%nat) as [Hz|Hnz].
  { destruct orig; [|done].
    destruct (GetGrid_base off [] nn B H W) as (xy & _ & _ & ->).
    cbn [neighbor_grids mbind option_bind cat]. split; [by intros [? ?]|cbn [length]; lia]. }
  destruct (GetGrid_stacked off orig nn B H W Hoff) as (both & -> & Hsz & _); [lia|].
  unfold view. rewrite Hsz. cbn [numel foldr].
  destruct (Nat.eqb_spec (B * (length orig * (H * W * (2 * 1))))
              (B * (nn * H * (W * (2 * 1))))) as [He|He].
  - split; [intros _|by eexists]. split; [nia|lia].
  - split; [by intros [? ?]|]. intros [Hl _]. subst nn. exfalso. apply He. lia.
Qed.

(** [GetGrid] on an offset tensor with two channels per neighbour returns
    a grid exactly when the offset table has one entry per neighbour and
    there is at least one neighbour: a longer table selects a channel that
    does not exist, a shorter one makes the final [view] fail, and an
    empty one makes [torch::cat] raise. *)
Theorem GetGrid_needs_matching_table (off : Tensor Q) (orig : list offset) (nn B H W : nat) :
  sizes off = [B; 2 * nn; H * W]%nat ->
  (0 < B)%nat -> (0 < H)%nat -> (0 < W)%nat ->
  is_Some (GetGrid off orig nn B H W) <-> length orig = nn /\ (0 < nn)%nat.
Proof. apply GetGrid_is_Some_iff. Qed.

(** With one table entry per neighbour, [GetGrid] returns a grid of shape
    [B; N * H; W; 2] whose entry for neighbour [j] at pixel [(h, w)] is the
    pixel position moved by the table offset [(dy, dx)] and by the learned
    offset, normalised to [-1, 1]: x = (w + dx + offset) / ((W - 1) / 2) - 1
    and y = (h + dy + offset) / ((H - 1) / 2) - 1. For a width or height
    of 1 the code divides by zero, hence the bounds on [H] and [W]. *)
Theorem GetGrid_normalised_coordinates (off : Tensor Q) (orig : list offset) (B H W : nat) :
  sizes off = [B; 2 * length orig; H * W]%nat ->
  (0 < length orig)%nat -> (1 < H)%nat -> (1 < W)%nat ->
  exists grid,
    GetGrid off orig (length orig) B H W = Some grid
    /\ sizes grid = [B; length orig * H; W; 2]%nat
    /\ forall b j h w dy dx, (b < B)%nat -> (h < H)%nat -> (w < W)%nat ->
         orig !! j = Some (dy, dx) ->
         at_ grid [b; j * H + h; w; 0]%nat
         = (inject_Z (Z.of_nat w) + (inject_Z dx + at_ off [b; 2 * j; h * W + w]%nat))
           / ((inject_Z (Z.of_nat W) - 1) / 2) - 1
         /\ at_ grid [b; j * H + h; w; 1]%nat
         = (inject_Z (Z.of_nat h) + (inject_Z dy + at_ off [b; 2 * j + 1; h * W + w]%nat))
           / ((inject_Z (Z.of_nat H) - 1) / 2) - 1.
Proof.
  intros Hoff Hpos HH HW.
  destruct (GetGrid_stacked off orig (length orig) B H W Hoff) as (both & -> & Hsz & Hat); [lia|].
  rewrite view_is_Some by (rewrite Hsz; cbn [numel foldr]; lia).
  eexists. split; [reflexivity|]. split; [reflexivity|].
  intros b j h w dy dx Hb Hh Hw Ho.
  assert (Hj : (j < length orig)%nat) by (by eapply lookup_lt_Some).
  cbn [at_]. rewrite Hsz.
  rewrite !view_grid_index by (done || lia).
  exact (Hat b j h w (dy, dx) Hb Hh Hw Ho).
Qed.

Lemma GetGrid_needs_matching_table_witness :
  is_Some (GetGrid half_pixel_offsets [(-1, 0); (0, 1)]%Z 2 1 2 2)
  <-> length [(-1, 0); (0, 1)]%Z = 2%nat /\ (0 < 2)%nat.
Proof.
  apply (GetGrid_needs_matching_table half_pixel_offsets [(-1, 0); (0, 1)]%Z 2 1 2 2);
    [reflexivity | lia | lia | lia].
Defined.

Lemma GetGrid_normalised_coordinates_witness :
  exists grid,
    GetGrid half_pixel_offsets [(-1, 0); (0, 1)]%Z 2 1 2 2 = Some grid
    /\ sizes grid = [1; 2 * 2; 2; 2]%nat
    /\ forall b j h w dy dx, (b < 1)%nat -> (h < 2)%nat -> (w < 2)%nat ->
         [(-1, 0); (0, 1)]%Z !! j = Some (dy, dx) ->
         at_ grid [b; j * 2 + h; w; 0]%nat
         = (inject_Z (Z.of_nat w)
            + (inject_Z dx + at_ half_pixel_offsets [b; 2 * j; h * 2 + w]%nat))
           / ((inject_Z (Z.of_nat 2) - 1) / 2) - 1
         /\ at_ grid [b; j * 2 + h; w; 1]%nat
         = (inject_Z (Z.of_nat h)
            + (inject_Z dy + at_ half_pixel_offsets [b; 2 * j + 1; h * 2 + w]%nat))
           / ((inject_Z (Z.of_nat 2) - 1) / 2) - 1.
Proof.
  apply (GetGrid_normalised_coordinates half_pixel_offsets [(-1, 0); (0, 1)]%Z 1 2 2);
    [reflexivity | cbn; lia | lia | lia].
Defined.

End Grid.

(** ** Pixel-wise view weights *)

Section Pixelwise.
Import torch.
Local Open Scope R_scope.






End Pixelwise.

(** ** Saving and loading *)

Section SaveLoad.
Import Serialize.
Context {T Archive : Type}.
Variable try_read : Archive -> string -> bool -> option T.
Variable write : Archive -> string -> T -> bool -> Archive.
Variable copy_ : T -> T -> T.

(** The archive returns what was written under a key, and a write leaves
    the other keys as they were. *)
Hypothesis read_written : forall a k v b, try_read (write a k v b) k b = Some v.
Hypothesis read_other : forall a k v b k' b',
  k' <> k -> try_read (write a k v b) k' b' = try_read a k' b'.

Lemma read_writes_other (l : list (string * T)) (b : bool) (a : Archive) k b' :
  k ∉ l.*1 ->
  try_read (foldl (fun archive param => write archive param.1 param.2 b) a l) k b'
  = try_read a k b'.
Proof.
  revert a. induction l as [|p l IH]; intros a Hk; [done|].
  cbn [foldl]. rewrite fmap_cons, not_elem_of_cons in Hk. destruct Hk as [Hne Hk].
  rewrite IH by done. by apply read_other.
Qed.

Lemma read_writes_same (l : list (string * T)) (b : bool) (a : Archive) k v :
  NoDup l.*1 -> (k, v) ∈ l ->
  try_read (foldl (fun archive param => write archive param.1 param.2 b) a l) k b
  = Some v.
Proof.
  revert a. induction l as [|p l IH]; intros a Hnd Hin; [by apply elem_of_nil in Hin|].
  rewrite fmap_cons in Hnd. apply NoDup_cons in Hnd as [Hp Hnd].
  cbn [foldl]. apply elem_of_cons in Hin as [<-|Hin].
  - rewrite read_writes_other by done. apply read_written.
  - by apply IH.
Qed.

Lemma ReadValues_all_found (archive : Archive) (pd : gmap string string) (b : bool)
    (dict stored : list (string * T)) :
  Forall2 (fun p s => p.1 = s.1 /\ try_read archive s.1 b = Some s.2
                      /\ forall alt, pd !! s.1 = Some alt -> try_read archive alt b = None)
          dict stored ->
  ReadValues try_read copy_ archive dict pd b
  = (zip_with (fun p s => (p.1, copy_ p.2 s.2)) dict stored, []).
Proof.
  induction 1 as [|p s dict stored (Hk & Hv & Halt) _ IH]; [done|].
  cbn [ReadValues zip_with]. rewrite IH. unfold read_value. rewrite Hk.
  destruct (pd !! s.1) as [alt|] eqn:E.
  - rewrite (Halt alt eq_refl), Hv. done.
  - rewrite Hv. done.
Qed.

Lemma same_names_Forall2 (Q : string * T -> Prop) (dict stored : list (string * T)) :
  dict.*1 = stored.*1 -> (forall s, s ∈ stored -> Q s) ->
  Forall2 (fun p s => p.1 = s.1 /\ Q s) dict stored.
Proof.
  revert stored. induction dict as [|p dict IH]; intros [|s stored] Hn HQ; try done.
  rewrite !fmap_cons in Hn. injection Hn as Hk Hn.
  constructor.
  - split; [done|]. apply HQ, list_elem_of_here.
  - apply IH; [done|]. intros s' Hs'. by apply HQ, list_elem_of_further.
Qed.

(** Saving a module into an empty archive and loading the archive into a
    module with the same parameter and buffer names gives every entry the
    saved value ([copy_] of it into the entry) and prints no warning,
    provided the saved names are distinct and the renaming table sends no
    saved name to another saved name (the renamed key is tried first, so
    such an entry would receive the other entry's value). *)
Theorem load_restores_saved (saved self : @Module_ T) (empty : Archive) :
  (forall k b, try_read empty k b = None) ->
  NoDup ((named_parameters saved).*1 ++ (named_buffers saved).*1) ->
  (named_parameters self).*1 = (named_parameters saved).*1 ->
  (named_buffers self).*1 = (named_buffers saved).*1 ->
  (forall k alt, k ∈ (named_parameters saved).*1 ++ (named_buffers saved).*1 ->
     param_dict self !! k = Some alt ->
     alt ∉ (named_parameters saved).*1 ++ (named_buffers saved).*1) ->
  load try_read copy_ self (save write saved empty)
  = (mkModule
       (zip_with (fun p s => (p.1, copy_ p.2 s.2)) (named_parameters self)
                 (named_parameters saved))
       (zip_with (fun p s => (p.1, copy_ p.2 s.2)) (named_buffers self)
                 (named_buffers saved))
       (param_dict self), []).
Proof.
  intros Hempty Hnd Hps Hbs Hpd.
  apply NoDup_app in Hnd as (Hndp & Hdisj & Hndb).
  assert (Halt : forall k alt b,
            k ∈ (named_parameters saved).*1 ++ (named_buffers saved).*1 ->
            param_dict self !! k = Some alt ->
            try_read (save write saved empty) alt b = None).
  { intros k alt b Hk Hd. specialize (Hpd k alt Hk Hd).
    rewrite not_elem_of_app in Hpd. destruct Hpd as [H1 H2].
    unfold save. rewrite !read_writes_other by done. apply Hempty. }
  unfold load.
  rewrite (ReadValues_all_found _ _ false _ (named_parameters saved)).
  2:{ apply (same_names_Forall2
               (fun s => try_read (save write saved empty) s.1 false = Some s.2
                         /\ forall alt, param_dict self !! s.1 = Some alt ->
                              try_read (save write saved empty) alt false = None));
        [done|].
      intros [k v] Hin. cbn [fst snd].
      assert (Hk : k ∈ (named_parameters saved).*1)
        by (apply list_elem_of_fmap; by exists (k, v)).
      split.
      - unfold save. rewrite read_writes_other by (intros Hb; by apply (Hdisj k)).
        by apply read_writes_same.
      - intros alt. apply Halt, elem_of_app. by left. }
  rewrite (ReadValues_all_found _ _ true _ (named_buffers saved)).
  2:{ apply (same_names_Forall2
               (fun s => try_read (save write saved empty) s.1 true = Some s.2
                         /\ forall alt, param_dict self !! s.1 = Some alt ->
                              try_read (save write saved empty) alt true = None));
        [done|].
      intros [k v] Hin. cbn [fst snd].
      assert (Hk : k ∈ (named_buffers saved).*1)
        by (apply list_elem_of_fmap; by exists (k, v)).
      split.
      - unfold save. by apply read_writes_same.
      - intros alt. apply Halt, elem_of_app. by right. }
  done.
Qed.
End SaveLoad.

Section SaveLoadWitness.
Import Serialize.

Lemma table_read_written (a : gmap string nat) k v (b : bool) :
  table_try_read (table_write a k v b) k b = Some v.
Proof. apply lookup_insert_eq. Qed.

Lemma table_read_other (a : gmap string nat) k v (b : bool) k' (b' : bool) :
  k' <> k -> table_try_read (table_write a k v b) k' b' = table_try_read a k' b'.
Proof. intros Hne. by apply lookup_insert_ne. Qed.

Lemma load_restores_saved_witness :
  load table_try_read (fun _ new => new) fresh_module
       (save table_write trained_module ∅)
  = (mkModule [("w", 1); ("b", 2)] [("mean", 3)] (param_dict fresh_module), []).
Proof.
  apply (load_restores_saved table_try_read table_write (fun _ new => new)
           table_read_written table_read_other trained_module fresh_module ∅).
  - intros k b. apply lookup_empty.
  - cbn. compute_done.
  - reflexivity.
  - reflexivity.
  - intros k alt Hk Hd. cbn in Hk, Hd |- *.
    destruct (decide (k = "w")) as [->|Hne].
    + rewrite lookup_singleton_eq in Hd. injection Hd as <-. compute_done.
    + by rewrite lookup_singleton_ne in Hd.
Defined.

End SaveLoadWitness.

(** ** The grids of a module *)

Section ModuleGrids.
Import torch PatchMatchModuleImpl.

(** The grids [forward] builds from the tables of [CalcOffsets]. The
    evaluation grid is defined exactly for 9 neighbours, or 17 with a
    non-zero dilation; the propagation grid, which is built only for a
    positive number of propagation neighbours, exactly for 4, 8 or 16. For any other count
    [CalcOffsets] only prints an error and leaves the table empty, and
    [GetGrid] raises. *)
Theorem module_grids_need_supported_counts
    (propagation_neighbors evaluation_neighbors dilation : Z)
    (prop eval : list offset) (prop_offset eval_offset : Tensor Q) (B H W : nat) :
  CalcOffsets propagation_neighbors evaluation_neighbors dilation = Some (prop, eval) ->
  sizes eval_offset = [B; 2 * Z.to_nat evaluation_neighbors; H * W]%nat ->
  sizes prop_offset = [B; 2 * Z.to_nat propagation_neighbors; H * W]%nat ->
  (0 < B)%nat -> (0 < H)%nat -> (0 < W)%nat ->
  (is_Some (GetGrid eval_offset eval (Z.to_nat evaluation_neighbors) B H W)
   <-> evaluation_neighbors = 9%Z \/ (evaluation_neighbors = 17%Z /\ dilation <> 0%Z))
  /\ ((0 < propagation_neighbors)%Z ->
      is_Some (GetGrid prop_offset prop (Z.to_nat propagation_neighbors) B H W)
      <-> propagation_neighbors ∈ [4; 8; 16]%Z).
Proof.
  intros Hc He Hp HB HH HW.
  destruct (CalcOffsets_lengths _ _ _ _ _ Hc) as [Hlp Hle].
  split.
  - rewrite (GetGrid_is_Some_iff eval_offset eval _ B H W He HB HH HW), Hle.
    destruct (decide (evaluation_neighbors = 9%Z)) as [->|N9].
    { rewrite bool_decide_eq_true_2 by done. split; [by left|]. intros _. split; [done|lia]. }
    rewrite (bool_decide_eq_false_2 _ N9).
    destruct (decide (evaluation_neighbors = 17%Z)) as [->|N17].
    { rewrite bool_decide_eq_true_2 by done.
      destruct (Z.eqb_spec dilation 0) as [->|Hd].
      - split; [intros [? _]; lia|]. intros [?|[_ ?]]; done.
      - split; [by right|]. intros _. split; [done|lia]. }
    rewrite (bool_decide_eq_false_2 _ N17).
    split; [lia|]. intros [?|[? _]]; done.
  - intros Hpos.
    rewrite (GetGrid_is_Some_iff prop_offset prop _ B H W Hp HB HH HW), Hlp.
    destruct (decide (propagation_neighbors ∈ [0; 4; 8; 16]%Z)) as [Hin|Hin].
    + rewrite (bool_decide_eq_true_2 _ Hin).
      rewrite !elem_of_cons, elem_of_nil in Hin. rewrite !elem_of_cons, elem_of_nil.
      split; [lia|]. intros _. split; [done|lia].
    + rewrite (bool_decide_eq_false_2 _ Hin).
      rewrite !elem_of_cons, elem_of_nil in Hin. rewrite !elem_of_cons, elem_of_nil.
      split; [lia|]. intros ?. exfalso. apply Hin. lia.
Qed.

Lemma module_grids_need_supported_counts_witness :
  (is_Some (GetGrid (full [1; 18; 4]%nat 0%Q) (square9 1) (Z.to_nat 9) 1 2 2)
   <-> 9%Z = 9%Z \/ (9%Z = 17%Z /\ 2%Z <> 0%Z))
  /\ ((0 < 5)%Z ->
      is_Some (GetGrid (full [1; 10; 4]%nat 0%Q) [] (Z.to_nat 5) 1 2 2)
      <-> 5%Z ∈ [4; 8; 16]%Z).
Proof.
  apply (module_grids_need_supported_counts 5 9 2 [] (square9 1)
           (full [1; 10; 4]%nat 0%Q) (full [1; 18; 4]%nat 0%Q) 1 2 2);
    [reflexivity | reflexivity | reflexivity | lia | lia | lia].
Defined.

End ModuleGrids.
